(** * Q2P: the particle-based query encoder of [model/q2p.py]

    A shallow embedding of the module classes of [q2p.py] ([LayerNorm],
    [SelfAttention], [FFN], [ParticleCrusher], [Q2P]) and of the recursive
    interpreter [Q2P.forward], followed by the properties proved about them.

    Conventions of the embedding.
    - Scalars are real numbers: a tensor entry is an [R], and [exp], [sqrt],
      [tanh] are the functions of the standard library of reals.  Rounding
      of machine floats is not part of the model.
    - A tensor is its shape together with its indexing function; entries
      outside the shape are never read by an operation with an in-range result
      index, and every property is stated for in-range indices.
    - A Python exception is a [Raise] result; operations of the tensor library
      that reject their operands (mismatched shapes, empty reductions, bad
      indices) raise [TorchError].
    - A module is the record of its parameters; the sizes given to its
      constructor are arguments of its [forward].
    - [nn.Dropout] is in evaluation mode (the identity). *)

From Stdlib Require Import Reals Lra Lia List ZArith String Bool Arith Permutation.
Import ListNotations.

Open Scope R_scope.

#[local] Set Warnings "-register-all".

(** ** Exceptions and results *)

Inductive exn : Type :=
| AssertionError   (* a failed [assert] *)
| IndexError       (* Python sequence index out of range *)
| TypeError        (* [None] used where a tensor is expected *)
| TorchError.      (* any exception raised inside the tensor library *)

Inductive result (A : Type) : Type :=
| Ok (a : A)
| Raise (e : exn).

Arguments Ok {A} a.
Arguments Raise {A} e.

Definition bind {A B : Type} (r : result A) (k : A -> result B) : result B :=
  match r with
  | Ok a => k a
  | Raise e => Raise e
  end.

Notation "x <- e1 ;; e2" := (bind e1 (fun x => e2))
  (at level 61, e1 at next level, right associativity).

Definition check (b : bool) : result unit :=
  if b then Ok tt else Raise TorchError.

Definition mapM {A B : Type} (f : A -> result B) : list A -> result (list B) :=
  fix go (l : list A) : result (list B) :=
    match l with
    | [] => Ok []
    | a :: l' => b <- f a ;; bs <- go l' ;; Ok (b :: bs)
    end.

(** ** Finite sums and maxima over an index range *)

(** [rsum n f] is [f 0 + ... + f (n-1)]. *)
Fixpoint rsum (n : nat) (f : nat -> R) : R :=
  match n with
  | O => 0
  | S n' => rsum n' f + f n'
  end.

(** [rmax_to n f] is the largest of [f 0, ..., f n]. *)
Fixpoint rmax_to (n : nat) (f : nat -> R) : R :=
  match n with
  | O => f O
  | S n' => Rmax (rmax_to n' f) (f (S n'))
  end.

(** ** Scalar activation functions *)

Definition sigmoid (x : R) : R := 1 / (1 + exp (- x)).

Definition gauss (t : R) : R := exp (- (t * t)).

(** [gauss] is continuous, hence integrable between 0 and any [x]. *)
Definition gauss_integrable (x : R) : Riemann_integrable gauss 0 x.
Proof.
  assert (Hc : continuity gauss).
  { unfold gauss.
    apply (continuity_comp (fun t => - (t * t)) exp).
    - apply continuity_opp.
      apply continuity_mult; apply derivable_continuous, derivable_id.
    - apply derivable_continuous, derivable_exp. }
  destruct (Rle_dec 0 x) as [H | H].
  - apply continuity_implies_RiemannInt; [exact H | intros; apply Hc].
  - apply RiemannInt_P1.
    apply continuity_implies_RiemannInt; [lra | intros; apply Hc].
Qed.

(** The error function, [erf x = 2/sqrt(pi) * integral of exp(-t^2) on [0,x]]. *)
Definition erf (x : R) : R := 2 / sqrt PI * RiemannInt (gauss_integrable x).

(** [nn.GELU()]: [x * Phi(x)] with [Phi] the standard Gaussian distribution
    function, [Phi(x) = (1 + erf (x / sqrt 2)) / 2]. *)
Definition GELU (x : R) : R := x * ((1 + erf (x / sqrt 2)) / 2).

(** ** Tensors *)

Record tensor2 : Type := mkT2 {
  rows : nat;
  cols : nat;
  at2 : nat -> nat -> R
}.

Record tensor3 : Type := mkT3 {
  d0 : nat;
  d1 : nat;
  d2 : nat;
  at3 : nat -> nat -> nat -> R
}.

(** Two tensors are the same tensor when they have the same shape and the
    same entries inside it. *)
Definition teq3 (x y : tensor3) : Prop :=
  d0 x = d0 y /\ d1 x = d1 y /\ d2 x = d2 y /\
  forall b i k, (b < d0 x)%nat -> (i < d1 x)%nat -> (k < d2 x)%nat ->
                at3 x b i k = at3 y b i k.

Definition req3 (r s : result tensor3) : Prop :=
  match r, s with
  | Ok x, Ok y => teq3 x y
  | Raise e, Raise e' => e = e'
  | _, _ => False
  end.

(** Elementwise application of a scalar function. *)
Definition map3 (f : R -> R) (x : tensor3) : tensor3 :=
  mkT3 (d0 x) (d1 x) (d2 x) (fun b i k => f (at3 x b i k)).

(** Broadcasting of one dimension: equal sizes, or one of them is 1. *)
Definition broadcast_dim (a b : nat) : result nat :=
  if (a =? b)%nat then Ok a
  else if (a =? 1)%nat then Ok b
  else if (b =? 1)%nat then Ok a
  else Raise TorchError.

(** Index into a dimension of size [n] that may have been broadcast. *)
Definition bidx (n i : nat) : nat := if (n =? 1)%nat then O else i.

(** Elementwise binary operation with broadcasting. *)
Definition zip3 (f : R -> R -> R) (x y : tensor3) : result tensor3 :=
  n0 <- broadcast_dim (d0 x) (d0 y) ;;
  n1 <- broadcast_dim (d1 x) (d1 y) ;;
  n2 <- broadcast_dim (d2 x) (d2 y) ;;
  Ok (mkT3 n0 n1 n2
        (fun b i k => f (at3 x (bidx (d0 x) b) (bidx (d1 x) i) (bidx (d2 x) k))
                        (at3 y (bidx (d0 y) b) (bidx (d1 y) i) (bidx (d2 y) k)))).

(** A 1-D tensor of length [n] seen as a tensor of shape [1, 1, n]. *)
Definition vec3 (n : nat) (v : nat -> R) : tensor3 :=
  mkT3 1 1 n (fun _ _ k => v k).

(** [torch.unsqueeze(x, 1)]. *)
Definition unsqueeze1 (x : tensor2) : tensor3 :=
  mkT3 (rows x) 1 (cols x) (fun b _ k => at2 x b k).

(** [x.mean(-1, keepdim=True)]. *)
Definition mean_last (x : tensor3) : tensor3 :=
  mkT3 (d0 x) (d1 x) 1
       (fun b i _ => rsum (d2 x) (fun k => at3 x b i k) / INR (d2 x)).

(** [x.permute(0, 2, 1)]. *)
Definition permute021 (x : tensor3) : tensor3 :=
  mkT3 (d0 x) (d2 x) (d1 x) (fun b i j => at3 x b j i).

(** [torch.matmul] on two 3-D tensors: batched matrix product, the batch
    dimension being broadcast. *)
Definition matmul (x y : tensor3) : result tensor3 :=
  n0 <- broadcast_dim (d0 x) (d0 y) ;;
  _ <- check (d2 x =? d1 y)%nat ;;
  Ok (mkT3 n0 (d1 x) (d2 y)
        (fun b i j => rsum (d2 x)
           (fun l => at3 x (bidx (d0 x) b) i l * at3 y (bidx (d0 y) b) l j))).

(** [nn.Softmax(dim=-1)]. *)
Definition softmax_last (x : tensor3) : tensor3 :=
  mkT3 (d0 x) (d1 x) (d2 x)
       (fun b i j => exp (at3 x b i j) / rsum (d2 x) (fun k => exp (at3 x b i k))).

(** [torch.cat(ts, dim=1)]: the list must be non-empty, and the operands
    agree on the other two dimensions. *)
Fixpoint cat1_from (acc : tensor3) (ts : list tensor3) : result tensor3 :=
  match ts with
  | [] => Ok acc
  | t :: ts' =>
      _ <- check ((d0 t =? d0 acc) && (d2 t =? d2 acc))%nat ;;
      cat1_from (mkT3 (d0 acc) (d1 acc + d1 t) (d2 acc)
                   (fun b i k => if (i <? d1 acc)%nat then at3 acc b i k
                                 else at3 t b (i - d1 acc) k)) ts'
  end.

Definition cat1 (ts : list tensor3) : result tensor3 :=
  match ts with
  | [] => Raise TorchError
  | t :: ts' => cat1_from t ts'
  end.

(** [x.max(dim=1)], the values: the reduced dimension must not be empty. *)
Definition max1 (x : tensor3) : result tensor2 :=
  match d1 x with
  | O => Raise TorchError
  | S n => Ok (mkT2 (d0 x) (d2 x) (fun b e => rmax_to n (fun p => at3 x b p e)))
  end.

(** [x.reshape(b, -1, e)] for a 2-D tensor [x] of shape [b, e]: the middle
    dimension is inferred as [b * e / (b * e) = 1], which the library refuses
    as ambiguous when [b * e = 0]. *)
Definition reshape_infer2 (x : tensor2) : result tensor3 :=
  _ <- check (negb (rows x * cols x =? 0)%nat) ;;
  Ok (unsqueeze1 x).

(** [x.view(b, -1, e)] for a 3-D tensor [x] of shape [b, n, e]: the middle
    dimension is inferred as [n], refused as ambiguous when [b * e = 0]. *)
Definition view_infer3 (x : tensor3) : result tensor3 :=
  _ <- check (negb (d0 x * d2 x =? 0)%nat) ;;
  Ok x.

(** ** Python values handled by the interpreter *)

(** A structured query is a nested Python sequence.  [Node tag items] is the
    sequence whose element 0 is the string [tag] and whose elements 1, 2, ...
    are [items]; [Ids l] is a sequence of integers (entity or relation ids). *)
Inductive structured_query : Type :=
| Ids (ids : list Z)
| Node (tag : string) (items : list structured_query).

(** What [Q2P.forward] returns: [None], a particle set, or a loss. *)
Inductive pyvalue : Type :=
| VNone
| VTensor (t : tensor3)
| VScalar (r : R).

(** [torch.tensor(o)] for a sequence of integers; a sequence holding a string
    is refused. *)
Definition torch_tensor (o : structured_query) : result (list Z) :=
  match o with
  | Ids l => Ok l
  | Node _ _ => Raise TorchError
  end.

(** A tensor operand; [None] is not one. *)
Definition as_tensor (v : pyvalue) : result tensor3 :=
  match v with
  | VTensor t => Ok t
  | _ => Raise TypeError
  end.

(** ** nn.Linear, nn.Embedding, nn.Dropout *)

(** [weight] has shape [out_features, in_features]; [bias] is [None] for
    [bias=False]. *)
Record Linear : Type := mkLinear {
  weight : nat -> nat -> R;
  bias : option (nat -> R)
}.

Definition bias_at (L : Linear) (o : nat) : R :=
  match bias L with
  | Some b => b o
  | None => 0
  end.

Definition Linear_forward (in_features out_features : nat) (L : Linear)
           (x : tensor3) : result tensor3 :=
  _ <- check (d2 x =? in_features)%nat ;;
  Ok (mkT3 (d0 x) (d1 x) out_features
        (fun b i o => rsum in_features (fun l => at3 x b i l * weight L o l)
                      + bias_at L o)).

Record Embedding : Type := mkEmbedding {
  emb_weight : nat -> nat -> R
}.

(** Lookup of a 1-D tensor of indices.  An empty Python list makes a float
    tensor, which is refused as an index; so is an index outside the table. *)
Definition Embedding_forward (num_embeddings embedding_dim : nat) (E : Embedding)
           (ids : list Z) : result tensor2 :=
  _ <- check (negb (List.length ids =? 0)%nat) ;;
  _ <- check (forallb (fun z => (0 <=? z)%Z && (z <? Z.of_nat num_embeddings)%Z) ids) ;;
  Ok (mkT2 (List.length ids) embedding_dim
        (fun b k => emb_weight E (Z.to_nat (nth b ids 0%Z)) k)).

(** [nn.Dropout] in evaluation mode. *)
Definition dropout (x : tensor3) : tensor3 := x.

(** ** LayerNorm *)

(** [variance_epsilon] is the constructor's [eps] (default [1e-12]).  Over the
    reals the square root and the quotient of [forward] are those of the
    source when [variance_epsilon] is positive; statements about the values
    of the output assume it positive. *)
Record LayerNorm : Type := mkLayerNorm {
  ln_weight : nat -> R;
  ln_bias : nat -> R;
  variance_epsilon : R
}.

Section LayerNorm_module.
Variable hidden_size : nat.

Definition LayerNorm_forward (ln : LayerNorm) (x : tensor3) : result tensor3 :=
  let u := mean_last x in
  xu <- zip3 Rminus x u ;;
  let s := mean_last (map3 (fun v => v ^ 2) xu) in
  xu' <- zip3 Rminus x u ;;
  x' <- zip3 Rdiv xu' (map3 (fun v => sqrt (v + variance_epsilon ln)) s) ;;
  wx <- zip3 Rmult (vec3 hidden_size (ln_weight ln)) x' ;;
  zip3 Rplus wx (vec3 hidden_size (ln_bias ln)).
End LayerNorm_module.

(** ** SelfAttention *)

Record SelfAttention : Type := mkSelfAttention {
  query : Linear;
  key : Linear;
  value : Linear
}.

Section SelfAttention_module.
Variable hidden_size : nat.

Definition SelfAttention_forward (sa : SelfAttention) (particles : tensor3)
  : result tensor3 :=
  K <- Linear_forward hidden_size hidden_size (query sa) particles ;;
  V <- Linear_forward hidden_size hidden_size (query sa) particles ;;
  Q <- Linear_forward hidden_size hidden_size (query sa) particles ;;
  attention_scores <- matmul Q (permute021 K) ;;
  let attention_scores :=
    map3 (fun s => s / sqrt (INR hidden_size)) attention_scores in
  let attention_probs := softmax_last attention_scores in
  matmul attention_probs V.

(** Scaled dot-product attention as the specification words it: the query,
    key and value projections each come from their own layer. *)
Definition qkv_attention_spec (sa : SelfAttention) (particles : tensor3)
  : result tensor3 :=
  Q <- Linear_forward hidden_size hidden_size (query sa) particles ;;
  K <- Linear_forward hidden_size hidden_size (key sa) particles ;;
  V <- Linear_forward hidden_size hidden_size (value sa) particles ;;
  scores <- matmul Q (permute021 K) ;;
  matmul (softmax_last (map3 (fun s => s / sqrt (INR hidden_size)) scores)) V.
End SelfAttention_module.

(** ** FFN *)

Record FFN : Type := mkFFN {
  linear1 : Linear;
  linear2 : Linear
}.

Section FFN_module.
Variable hidden_size : nat.

Definition FFN_forward (ffn : FFN) (particles : tensor3) : result tensor3 :=
  h <- Linear_forward hidden_size hidden_size (linear1 ffn) (dropout particles) ;;
  Linear_forward hidden_size hidden_size (linear2 ffn) (dropout (map3 GELU h)).
End FFN_module.

(** ** ParticleCrusher *)

(** [off_sets] has shape [1, num_particles, embedding_size]. *)
Record ParticleCrusher : Type := mkParticleCrusher {
  off_sets : nat -> nat -> nat -> R
}.

Section ParticleCrusher_module.
Variables embedding_size num_particles : nat.

Definition ParticleCrusher_forward (pc : ParticleCrusher)
           (batch_of_embeddings : tensor2) : result tensor3 :=
  reshaped <- reshape_infer2 batch_of_embeddings ;;
  zip3 Rplus reshaped (mkT3 1 num_particles embedding_size (off_sets pc)).
End ParticleCrusher_module.

(** ** LabelSmoothingLoss *)

(** Modelled from the spec: the class [LabelSmoothingLoss] is imported from
    the module [model], which is not part of [q2p.py].  The loss is the
    label-smoothed cross-entropy between the per-entity scores and the gold
    entity of each batch element: the gold entity gets mass [1 - smoothing],
    the mass [smoothing] is spread uniformly over the other entities, and the
    result is averaged over the batch. *)
Definition LabelSmoothingLoss_forward (smoothing : R) (pred : tensor2)
           (target : list Z) : result R :=
  _ <- check (List.length target =? rows pred)%nat ;;
  _ <- check (forallb (fun z => (0 <=? z)%Z && (z <? Z.of_nat (cols pred))%Z) target) ;;
  let log_softmax b e :=
    at2 pred b e - ln (rsum (cols pred) (fun k => exp (at2 pred b k))) in
  let true_dist b e :=
    if (e =? Z.to_nat (nth b target 0%Z))%nat then 1 - smoothing
    else smoothing / INR (cols pred - 1) in
  Ok (rsum (rows pred)
        (fun b => rsum (cols pred) (fun e => - true_dist b e * log_softmax b e))
      / INR (rows pred)).

(** ** Q2P *)

Record Q2P : Type := mkQ2P {
  num_entities : nat;
  num_relations : nat;
  embedding_size : nat;
  num_particles : nat;
  entity_embedding : Embedding;
  relation_embedding : Embedding;
  (* the callable [self.label_smoothing_loss] *)
  label_smoothing_loss : tensor2 -> list Z -> result R;
  to_particles : ParticleCrusher;
  projection_layer_norm_1 : LayerNorm;
  projection_layer_norm_2 : LayerNorm;
  projection_self_attn : SelfAttention;
  projection_Wz : Linear;
  projection_Uz : Linear;
  projection_Wr : Linear;
  projection_Ur : Linear;
  projection_Wh : Linear;
  projection_Uh : Linear;
  high_projection_attn : SelfAttention;
  high_projection_ffn : FFN;
  high_projection_layer_norm_1 : LayerNorm;
  high_projection_layer_norm_2 : LayerNorm;
  intersection_attn : SelfAttention;
  intersection_ffn : FFN;
  intersection_layer_norm_1 : LayerNorm;
  intersection_layer_norm_2 : LayerNorm;
  intersection_layer_norm_3 : LayerNorm;
  intersection_layer_norm_4 : LayerNorm;
  complement_attn : SelfAttention;
  complement_ffn : FFN;
  complement_layer_norm_1 : LayerNorm;
  complement_layer_norm_2 : LayerNorm;
  complement_layer_norm_3 : LayerNorm;
  complement_layer_norm_4 : LayerNorm
}.

Section Q2P_module.
Variable self : Q2P.

Local Abbreviation E := (embedding_size self).

(** [self.decoder]: a bias-free linear layer whose weight is the weight of
    [self.entity_embedding] (one parameter, two users). *)
Definition decoder : Linear :=
  mkLinear (emb_weight (entity_embedding self)) None.

Definition scoring (query_encoding : tensor3) : result tensor2 :=
  query_scores <- Linear_forward E (num_entities self) decoder query_encoding ;;
  max1 query_scores.

Definition loss_fnt (query_encoding : pyvalue) (labels : list Z) : result R :=
  enc <- as_tensor query_encoding ;;
  query_scores <- scoring enc ;;
  label_smoothing_loss self query_scores labels.

Definition projection (relation_ids : structured_query) (sub_query_encoding : tensor3)
  : result tensor3 :=
  let Wz := projection_Wz self in
  let Uz := projection_Uz self in
  let Wr := projection_Wr self in
  let Ur := projection_Ur self in
  let Wh := projection_Wh self in
  let Uh := projection_Uh self in
  relation_ids <- torch_tensor relation_ids ;;
  relation_embeddings <-
    Embedding_forward (num_relations self) E (relation_embedding self) relation_ids ;;
  let relation_transition := unsqueeze1 relation_embeddings in
  let projected_particles := sub_query_encoding in
  wz <- Linear_forward E E Wz (dropout relation_transition) ;;
  uz <- Linear_forward E E Uz (dropout projected_particles) ;;
  z_in <- zip3 Rplus wz uz ;;
  let z := map3 sigmoid z_in in
  wr <- Linear_forward E E Wr (dropout relation_transition) ;;
  ur <- Linear_forward E E Ur (dropout projected_particles) ;;
  r_in <- zip3 Rplus wr ur ;;
  let r := map3 sigmoid r_in in
  wh <- Linear_forward E E Wh (dropout relation_transition) ;;
  gated <- zip3 Rmult projected_particles r ;;
  uh <- Linear_forward E E Uh (dropout gated) ;;
  h_in <- zip3 Rplus wh uh ;;
  let h_hat := map3 tanh h_in in
  keep <- zip3 Rmult (map3 (fun v => 1 - v) z) sub_query_encoding ;;
  new <- zip3 Rmult z h_hat ;;
  h <- zip3 Rplus keep new ;;
  let projected_particles := h in
  projected_particles <-
    LayerNorm_forward E (projection_layer_norm_1 self) projected_particles ;;
  projected_particles <-
    SelfAttention_forward E (projection_self_attn self) (dropout projected_particles) ;;
  LayerNorm_forward E (projection_layer_norm_2 self) projected_particles.

Definition higher_projection (relation_ids : structured_query) (sub_query_encoding : tensor3)
  : result tensor3 :=
  particles <- SelfAttention_forward E (high_projection_attn self) sub_query_encoding ;;
  particles <- LayerNorm_forward E (high_projection_layer_norm_1 self) particles ;;
  ffn_out <- FFN_forward E (high_projection_ffn self) particles ;;
  particles <- zip3 Rplus ffn_out particles ;;
  particles <- LayerNorm_forward E (high_projection_layer_norm_2 self) particles ;;
  projection relation_ids particles.

Definition intersection (sub_query_encoding_list : list tensor3) : result tensor3 :=
  all_subquery_encodings <- cat1 sub_query_encoding_list ;;
  flatten_particles <- view_infer3 all_subquery_encodings ;;
  flatten_particles <-
    SelfAttention_forward E (intersection_attn self) (dropout flatten_particles) ;;
  flatten_particles <-
    LayerNorm_forward E (intersection_layer_norm_1 self) flatten_particles ;;
  ffn_out <- FFN_forward E (intersection_ffn self) flatten_particles ;;
  flatten_particles <- zip3 Rplus ffn_out flatten_particles ;;
  flatten_particles <-
    LayerNorm_forward E (intersection_layer_norm_2 self) flatten_particles ;;
  flatten_particles <-
    SelfAttention_forward E (intersection_attn self) (dropout flatten_particles) ;;
  flatten_particles <-
    LayerNorm_forward E (intersection_layer_norm_3 self) flatten_particles ;;
  ffn_out <- FFN_forward E (intersection_ffn self) flatten_particles ;;
  flatten_particles <- zip3 Rplus ffn_out flatten_particles ;;
  LayerNorm_forward E (intersection_layer_norm_4 self) flatten_particles.

Definition negation (sub_query_encoding_list : tensor3) : result tensor3 :=
  let new_particles := sub_query_encoding_list in
  new_particles <-
    SelfAttention_forward E (complement_attn self) (dropout new_particles) ;;
  new_particles <- LayerNorm_forward E (complement_layer_norm_1 self) new_particles ;;
  ffn_out <- FFN_forward E (complement_ffn self) new_particles ;;
  new_particles <- zip3 Rplus ffn_out new_particles ;;
  new_particles <- LayerNorm_forward E (complement_layer_norm_2 self) new_particles ;;
  new_particles <-
    SelfAttention_forward E (complement_attn self) (dropout new_particles) ;;
  new_particles <- LayerNorm_forward E (complement_layer_norm_3 self) new_particles ;;
  ffn_out <- FFN_forward E (complement_ffn self) new_particles ;;
  new_particles <- zip3 Rplus ffn_out new_particles ;;
  LayerNorm_forward E (complement_layer_norm_4 self) new_particles.

Definition union (sub_query_encoding_list : list tensor3) : result tensor3 :=
  cat1 sub_query_encoding_list.

(** The tags accepted by the assertion at the entry of [forward]. *)
Definition known_tags : list string := ["p"; "e"; "i"; "u"; "n"]%string.

Definition tag_in (tag : string) (tags : list string) : bool :=
  existsb (String.eqb tag) tags.

(** [q[0] == 'e'] for an element [q] of a query. *)
Definition head_is_e (q : structured_query) : bool :=
  match q with
  | Node tag _ => String.eqb tag "e"
  | Ids _ => false
  end.

Fixpoint forward (batched_structured_query : structured_query) (label : option (list Z))
         {struct batched_structured_query} : result pyvalue :=
  match batched_structured_query with
  | Ids [] => Raise IndexError
  | Ids (_ :: _) => Raise AssertionError
  | Node tag items =>
      if negb (tag_in tag known_tags) then Raise AssertionError else
      this_query_result <-
        (if String.eqb tag "p" then
           match items with
           | relation_ids :: sub :: _ =>
               sub_query_result <- forward sub None ;;
               sub_query_result <- as_tensor sub_query_result ;;
               if head_is_e sub
               then t <- projection relation_ids sub_query_result ;; Ok (VTensor t)
               else t <- higher_projection relation_ids sub_query_result ;;
                    Ok (VTensor t)
           | _ => Raise IndexError
           end
         else if String.eqb tag "i" then
           sub_query_result_list <- mapM (fun q => forward q None) items ;;
           sub_query_result_list <- mapM as_tensor sub_query_result_list ;;
           t <- intersection sub_query_result_list ;; Ok (VTensor t)
         else if String.eqb tag "u" then
           sub_query_result_list <- mapM (fun q => forward q None) items ;;
           sub_query_result_list <- mapM as_tensor sub_query_result_list ;;
           t <- union sub_query_result_list ;; Ok (VTensor t)
         else if String.eqb tag "n" then
           match items with
           | sub :: _ =>
               sub_query_result <- forward sub None ;;
               sub_query_result <- as_tensor sub_query_result ;;
               t <- negation sub_query_result ;; Ok (VTensor t)
           | [] => Raise IndexError
           end
         else if String.eqb tag "e" then
           match items with
           | ids :: _ =>
               entity_ids <- torch_tensor ids ;;
               emb <- Embedding_forward (num_entities self) E
                        (entity_embedding self) entity_ids ;;
               t <- ParticleCrusher_forward E (num_particles self)
                      (to_particles self) emb ;;
               Ok (VTensor t)
           | [] => Raise IndexError
           end
         else Ok VNone) ;;
      match label with
      | None => Ok this_query_result
      | Some labels => l <- loss_fnt this_query_result labels ;; Ok (VScalar l)
      end
  end.
End Q2P_module.

(** ** The specification's reading of the operators *)

(** Kleisli composition, left to right. *)
Definition kcomp {A B C : Type} (f : A -> result B) (g : B -> result C)
  : A -> result C :=
  fun a => bind (f a) g.

Notation "f >=> g" := (kcomp f g) (at level 62, left associativity).

Section refinement_rounds.
Variable E : nat.

(** [FFN + id]: the feed-forward transform with its residual connection. *)
Definition ffn_residual (ffn : FFN) (x : tensor3) : result tensor3 :=
  y <- FFN_forward E ffn x ;; zip3 Rplus y x.

(** [LN4 . (FFN+id) . LN3 . Attn . LN2 . (FFN+id) . LN1 . Attn] with one
    attention module and one feed-forward module. *)
Definition two_rounds (attn : SelfAttention) (ffn : FFN)
           (ln1 ln2 ln3 ln4 : LayerNorm) : tensor3 -> result tensor3 :=
  SelfAttention_forward E attn >=> LayerNorm_forward E ln1 >=>
  ffn_residual ffn >=> LayerNorm_forward E ln2 >=>
  SelfAttention_forward E attn >=> LayerNorm_forward E ln3 >=>
  ffn_residual ffn >=> LayerNorm_forward E ln4.
End refinement_rounds.

(** Number of particles of the particle set that a query evaluates to, when
    entity anchors are expanded to [P] particles. *)
Fixpoint particle_count (P : nat) (q : structured_query) : nat :=
  match q with
  | Ids _ => O
  | Node tag items =>
      if String.eqb tag "p" then
        match items with
        | _ :: sub :: _ => particle_count P sub
        | _ => O
        end
      else if String.eqb tag "i" then list_sum (map (particle_count P) items)
      else if String.eqb tag "u" then list_sum (map (particle_count P) items)
      else if String.eqb tag "n" then
        match items with
        | sub :: _ => particle_count P sub
        | [] => O
        end
      else if String.eqb tag "e" then P
      else O
  end.

(** The queries on which the control flow of [forward] meets only known tags
    and finds every element it indexes: the sub-query of a [p] node is
    element 2, that of an [n] node element 1, an [e] node has an element 1,
    and an [i] or [u] node has at least one sub-query.  Elements after those
    are not looked at. *)
Fixpoint accepted (q : structured_query) : bool :=
  match q with
  | Ids _ => false
  | Node tag items =>
      if String.eqb tag "p" then
        match items with
        | _ :: sub :: _ => accepted sub
        | _ => false
        end
      else if String.eqb tag "i" then
        match items with
        | [] => false
        | _ => forallb accepted items
        end
      else if String.eqb tag "u" then
        match items with
        | [] => false
        | _ => forallb accepted items
        end
      else if String.eqb tag "n" then
        match items with
        | sub :: _ => accepted sub
        | [] => false
        end
      else if String.eqb tag "e" then
        match items with
        | _ :: _ => true
        | [] => false
        end
      else false
  end.

(** Well-formed queries as the specification describes them: [e] holds one
    id list, [p] a relation-id list and one sub-query, [i] and [u] at least
    two sub-queries, [n] one sub-query. *)
Fixpoint spec_well_formed (q : structured_query) : bool :=
  match q with
  | Ids _ => false
  | Node tag items =>
      if String.eqb tag "e" then
        match items with
        | [Ids _] => true
        | _ => false
        end
      else if String.eqb tag "p" then
        match items with
        | [Ids _; sub] => spec_well_formed sub
        | _ => false
        end
      else if String.eqb tag "i" || String.eqb tag "u" then
        (2 <=? List.length items)%nat && forallb spec_well_formed items
      else if String.eqb tag "n" then
        match items with
        | [sub] => spec_well_formed sub
        | _ => false
        end
      else false
  end.

(** Dot product of two vectors of length [n]. *)
Definition dot (n : nat) (u v : nat -> R) : R := rsum n (fun l => u l * v l).

(** [x[:, p, :]]: the particles of [x] rearranged along the particle axis by
    the index list [p]. *)
Definition index_select1 (p : list nat) (x : tensor3) : tensor3 :=
  mkT3 (d0 x) (List.length p) (d2 x) (fun b i k => at3 x b (nth i p O) k).

(** [p] lists each of [0, ..., n-1] once. *)
Definition is_permutation (p : list nat) (n : nat) : bool :=
  (List.length p =? n)%nat &&
  forallb (fun i => existsb (Nat.eqb i) p) (seq 0 n).

(** Entry of the output of a linear layer. *)
Definition lin (h : nat) (L : Linear) (x : tensor3) (b i o : nat) : R :=
  rsum h (fun l => at3 x b i l * weight L o l) + bias_at L o.

(** Scaled attention score of particle [i] against particle [l], and the
    attention output, all three projections being made by the layer [L]. *)
Definition score (h : nat) (L : Linear) (x : tensor3) (b i l : nat) : R :=
  rsum h (fun c => lin h L x b i c * lin h L x b l c) / sqrt (INR h).

Definition attend (h : nat) (L : Linear) (x : tensor3) (b i j : nat) : R :=
  rsum (d1 x)
    (fun l => exp (score h L x b i l)
              / rsum (d1 x) (fun k => exp (score h L x b i k))
              * lin h L x b l j).

Definition Rlist_sum (l : list R) : R := fold_right Rplus 0 l.

(** A linear layer applied to one vector of length [n]: [W v + b]. *)
Definition linear_vec (n : nat) (L : Linear) (v : nat -> R) (o : nat) : R :=
  rsum n (fun l => v l * weight L o l) + bias_at L o.

Section gru_update.
Variable m : Q2P.
Variable ids : list Z.
Variable h : tensor3.

Local Abbreviation E := (embedding_size m).

(** The embedding of the relation of batch element [b]. *)
Definition rel_vec (b : nat) : nat -> R :=
  emb_weight (relation_embedding m) (Z.to_nat (nth b ids 0%Z)).

(** Update gate [z = sigmoid (Wz rel + Uz h)]. *)
Definition gate_z (b p k : nat) : R :=
  sigmoid (linear_vec E (projection_Wz m) (rel_vec b) k
           + linear_vec E (projection_Uz m) (at3 h b p) k).

(** Reset gate [r = sigmoid (Wr rel + Ur h)]. *)
Definition gate_r (b p k : nat) : R :=
  sigmoid (linear_vec E (projection_Wr m) (rel_vec b) k
           + linear_vec E (projection_Ur m) (at3 h b p) k).

(** Candidate [h_hat = tanh (Wh rel + Uh (h * r))]. *)
Definition candidate (b p k : nat) : R :=
  tanh (linear_vec E (projection_Wh m) (rel_vec b) k
        + linear_vec E (projection_Uh m)
            (fun l => at3 h b p l * gate_r b p l) k).

(** New particles [(1 - z) * h + z * h_hat]. *)
Definition gru_update (b p k : nat) : R :=
  (1 - gate_z b p k) * at3 h b p k + gate_z b p k * candidate b p k.
End gru_update.

(** ** Vectors of one particle, and relations between tensors *)

(** Mean and variance of a vector of length [n], and the layer norm of one
    feature vector. *)
Definition vmean (n : nat) (v : nat -> R) : R := rsum n v / INR n.

Definition vvar (n : nat) (v : nat -> R) : R :=
  rsum n (fun k => (v k - vmean n v) ^ 2) / INR n.

Definition layer_norm_vec (n : nat) (ln : LayerNorm) (v : nat -> R) (k : nat) : R :=
  ln_weight ln k * ((v k - vmean n v) / sqrt (vvar n v + variance_epsilon ln))
  + ln_bias ln k.

(** [FFN(v) + v] on one feature vector. *)
Definition ffn_residual_vec (n : nat) (ffn : FFN) (v : nat -> R) (k : nat) : R :=
  linear_vec n (linear2 ffn) (fun j => GELU (linear_vec n (linear1 ffn) v j)) k + v k.

(** The gated update of [projection] on one particle [v] of batch element
    [b]. *)
Definition gru_vec (m : Q2P) (ids : list Z) (b : nat) (v : nat -> R) (k : nat) : R :=
  let E := embedding_size m in
  let z j := sigmoid (linear_vec E (projection_Wz m) (rel_vec m ids b) j
                      + linear_vec E (projection_Uz m) v j) in
  let r j := sigmoid (linear_vec E (projection_Wr m) (rel_vec m ids b) j
                      + linear_vec E (projection_Ur m) v j) in
  (1 - z k) * v k
  + z k * tanh (linear_vec E (projection_Wh m) (rel_vec m ids b) k
                + linear_vec E (projection_Uh m) (fun l => v l * r l) k).

Definition teq2 (s s' : tensor2) : Prop :=
  rows s = rows s' /\ cols s = cols s' /\
  forall b e, (b < rows s)%nat -> (e < cols s)%nat -> at2 s b e = at2 s' b e.

(** [f] acts on each particle on its own: on inputs of batch size [B] and last
    dimension [E] it returns, and particle [i] of batch element [b] of the
    output is [G b] of particle [i] of batch element [b] of the input. *)
Definition particlewise (B E : nat) (G : nat -> (nat -> R) -> nat -> R)
           (f : tensor3 -> result tensor3) : Prop :=
  forall x, d0 x = B -> d2 x = E ->
    exists y, f x = Ok y /\ d0 y = B /\ d1 y = d1 x /\ d2 y = E /\
              forall b i k, (b < B)%nat -> (i < d1 x)%nat -> (k < E)%nat ->
                            at3 y b i k = G b (at3 x b i) k.

(** [G] reads only the first [E] entries of its vector. *)
Definition vec_ext (E : nat) (G : nat -> (nat -> R) -> nat -> R) : Prop :=
  forall b v v' k, (forall l, (l < E)%nat -> v l = v' l) -> (k < E)%nat ->
                   G b v k = G b v' k.

(** [f] returns on inputs of batch size [B] and last dimension [E], keeps
    their shape, and commutes with every rearrangement of the particles. *)
Definition covariant_on (B E : nat) (f : tensor3 -> result tensor3) : Prop :=
  forall p x x',
    d0 x = B -> d2 x = E ->
    is_permutation p (d1 x) = true ->
    teq3 x' (index_select1 p x) ->
    exists y y', f x = Ok y /\ f x' = Ok y' /\
                 d0 y = B /\ d1 y = d1 x /\ d2 y = E /\
                 teq3 y' (index_select1 p y).

(** Batch element [b] of a particle set, as a particle set of batch size 1,
    and the query that keeps, of every id list, the id at position [b]. *)
Definition select_batch (b : nat) (x : tensor3) : tensor3 :=
  mkT3 1 (d1 x) (d2 x) (fun _ i k => at3 x b i k).

Fixpoint select_query (b : nat) (q : structured_query) : structured_query :=
  match q with
  | Ids l => Ids [nth b l 0%Z]
  | Node tag items => Node tag (map (select_query b) items)
  end.

(** [f1] does on batch element [b] alone what [f] does on batch element [b]
    of a batch of size [B]. *)
Definition batch_covariant (B E b : nat) (f f1 : tensor3 -> result tensor3) : Prop :=
  forall x x1,
    d0 x = B -> d2 x = E ->
    teq3 x1 (select_batch b x) ->
    exists y y1, f x = Ok y /\ f1 x1 = Ok y1 /\
                 d0 y = B /\ d1 y = d1 x /\ d2 y = E /\
                 teq3 y1 (select_batch b y).

(** The index list that exchanges a first block of [n1] particles with a
    second block of [n2] particles. *)
Definition swap_blocks (n1 n2 : nat) : list nat := seq n1 n2 ++ seq 0 n1.

(** Queries that [forward] evaluates to a particle set of batch size [B]:
    known tags, the elements each node indexes present, id lists of length [B]
    inside their embedding table. *)
Definition ids_ok (B n : nat) (o : structured_query) : bool :=
  match o with
  | Ids l => (List.length l =? B)%nat
             && forallb (fun z => (0 <=? z)%Z && (z <? Z.of_nat n)%Z) l
  | Node _ _ => false
  end.

Fixpoint evaluable (m : Q2P) (B : nat) (q : structured_query) : bool :=
  match q with
  | Ids _ => false
  | Node tag items =>
      if String.eqb tag "p" then
        match items with
        | rel :: sub :: _ => ids_ok B (num_relations m) rel && evaluable m B sub
        | _ => false
        end
      else if String.eqb tag "i" then
        match items with
        | [] => false
        | _ => forallb (evaluable m B) items
        end
      else if String.eqb tag "u" then
        match items with
        | [] => false
        | _ => forallb (evaluable m B) items
        end
      else if String.eqb tag "n" then
        match items with
        | sub :: _ => evaluable m B sub
        | [] => false
        end
      else if String.eqb tag "e" then
        match items with
        | ids :: _ => ids_ok B (num_entities m) ids
        | [] => false
        end
      else false
  end.

(** ** Concrete instances *)

(** A one-dimensional attention module: query weight 1, key weight 3, value
    weight 2, no bias. *)
Definition sa_121 : SelfAttention :=
  mkSelfAttention (mkLinear (fun _ _ => 1) (Some (fun _ => 0)))
                  (mkLinear (fun _ _ => 3) (Some (fun _ => 0)))
                  (mkLinear (fun _ _ => 2) (Some (fun _ => 0))).

(** The particle set [[[1]]] of shape [1, 1, 1]. *)
Definition x_111 : tensor3 := mkT3 1 1 1 (fun _ _ _ => 1).

Definition eye_linear : Linear :=
  mkLinear (fun o l => if (o =? l)%nat then 1 else 0) (Some (fun _ => 0)).

Definition default_layer_norm : LayerNorm :=
  mkLayerNorm (fun _ => 1) (fun _ => 0) (/ 10 ^ 12).

Definition eye_attention : SelfAttention :=
  mkSelfAttention eye_linear eye_linear eye_linear.

Definition eye_ffn : FFN := mkFFN eye_linear eye_linear.

(** Ten entities, ten relations, embedding dimension 4, two particles. *)
Definition q2p_small : Q2P :=
  {| num_entities := 10;
     num_relations := 10;
     embedding_size := 4;
     num_particles := 2;
     entity_embedding := mkEmbedding (fun i k => INR (i + k));
     relation_embedding := mkEmbedding (fun i k => INR (i * k));
     label_smoothing_loss := LabelSmoothingLoss_forward (1 / 10);
     to_particles := mkParticleCrusher (fun _ p _ => INR p);
     projection_layer_norm_1 := default_layer_norm;
     projection_layer_norm_2 := default_layer_norm;
     projection_self_attn := eye_attention;
     projection_Wz := eye_linear;
     projection_Uz := eye_linear;
     projection_Wr := eye_linear;
     projection_Ur := eye_linear;
     projection_Wh := eye_linear;
     projection_Uh := eye_linear;
     high_projection_attn := eye_attention;
     high_projection_ffn := eye_ffn;
     high_projection_layer_norm_1 := default_layer_norm;
     high_projection_layer_norm_2 := default_layer_norm;
     intersection_attn := eye_attention;
     intersection_ffn := eye_ffn;
     intersection_layer_norm_1 := default_layer_norm;
     intersection_layer_norm_2 := default_layer_norm;
     intersection_layer_norm_3 := default_layer_norm;
     intersection_layer_norm_4 := default_layer_norm;
     complement_attn := eye_attention;
     complement_ffn := eye_ffn;
     complement_layer_norm_1 := default_layer_norm;
     complement_layer_norm_2 := default_layer_norm;
     complement_layer_norm_3 := default_layer_norm;
     complement_layer_norm_4 := default_layer_norm |}.

(** The queries [("e", [3])] and [("p", [5], ("u", ("e", [3]), ("e", [3])))]. *)
Definition q_e3 : structured_query := Node "e" [Ids [3%Z]].
Definition q_p_u : structured_query := Node "p" [Ids [5%Z]; Node "u" [q_e3; q_e3]].

(** [("p", [5], ("e", [3]), ("x",))]: a [p] node with two sub-queries, the
    second of which has an unknown tag. *)
Definition q_p_extra : structured_query := Node "p" [Ids [5%Z]; q_e3; Node "x" []].

(** The particle set [[[1;0;0;0],[0;1;0;0]]] of shape [1, 2, 4]. *)
Definition enc_124 : tensor3 :=
  mkT3 1 2 4 (fun _ p k => if (p =? k)%nat then 1 else 0).

(** ** Induction on queries *)

Section query_induction.
Variable P : structured_query -> Prop.
Hypothesis P_Ids : forall l, P (Ids l).
Hypothesis P_Node : forall tag items, Forall P items -> P (Node tag items).

Fixpoint query_induction (q : structured_query) : P q :=
  match q with
  | Ids l => P_Ids l
  | Node tag items =>
      P_Node tag items
        ((fix all (l : list structured_query) : Forall P l :=
            match l with
            | [] => Forall_nil P
            | x :: l' => Forall_cons x (query_induction x) (all l')
            end) items)
  end.
End query_induction.

(** * Properties *)

(** ** Results *)

Lemma bind_Ok_inv {A B : Type} (r : result A) (k : A -> result B) (b : B) :
  bind r k = Ok b -> exists a, r = Ok a /\ k a = Ok b.
Proof.
  destruct r as [a | e]; simpl; intros H; [exists a; auto | discriminate].
Qed.

Lemma check_Ok_inv (c : bool) (u : unit) : check c = Ok u -> c = true.
Proof. destruct c; simpl; [reflexivity | discriminate]. Qed.

Ltac inv_bind H :=
  let a := fresh "a" in
  let Ha := fresh "H" a in
  lazymatch type of H with
  | bind _ _ = Ok _ => apply bind_Ok_inv in H; destruct H as [a [Ha H]]
  end.

(** ** C8, C10: what the source text composes *)

(** C8. The output of [SelfAttention.forward] does not depend on the
    parameters of the key and value layers: two modules with the same query
    layer give the same result on every input, whatever their key and value
    layers are. *)
Theorem SelfAttention_forward_ignores_key_value :
  forall (hidden_size : nat) (query1 key1 value1 key2 value2 : Linear)
         (particles : tensor3),
    SelfAttention_forward hidden_size (mkSelfAttention query1 key1 value1) particles =
    SelfAttention_forward hidden_size (mkSelfAttention query1 key2 value2) particles.
Proof. intros; reflexivity. Qed.

Lemma negation_two_rounds (m : Q2P) (x : tensor3) :
  negation m x =
  two_rounds (embedding_size m) (complement_attn m) (complement_ffn m)
    (complement_layer_norm_1 m) (complement_layer_norm_2 m)
    (complement_layer_norm_3 m) (complement_layer_norm_4 m) x.
Proof.
  unfold negation, two_rounds, kcomp, ffn_residual, dropout.
  repeat match goal with
         | |- bind ?r _ = _ => destruct r; simpl; [ | reflexivity]
         end.
  reflexivity.
Qed.

Lemma intersection_two_rounds (m : Q2P) (l : list tensor3) :
  intersection m l =
  (cat1 >=> view_infer3 >=>
   two_rounds (embedding_size m) (intersection_attn m) (intersection_ffn m)
     (intersection_layer_norm_1 m) (intersection_layer_norm_2 m)
     (intersection_layer_norm_3 m) (intersection_layer_norm_4 m)) l.
Proof.
  unfold intersection, two_rounds, kcomp, ffn_residual, dropout.
  repeat match goal with
         | |- bind ?r _ = _ => destruct r; simpl; [ | reflexivity]
         end.
  reflexivity.
Qed.

(** C10. Negation is the two-round refinement built from the single attention
    module [complement_attn] and the single feed-forward module
    [complement_ffn] with the four complement layer norms; intersection is the
    same composition, from [intersection_attn], [intersection_ffn] and the four
    intersection layer norms, applied to the concatenated operands. *)
Theorem negation_intersection_share_attn_ffn :
  forall (m : Q2P),
    (forall x, negation m x =
       two_rounds (embedding_size m) (complement_attn m) (complement_ffn m)
         (complement_layer_norm_1 m) (complement_layer_norm_2 m)
         (complement_layer_norm_3 m) (complement_layer_norm_4 m) x) /\
    (forall l, intersection m l =
       (cat1 >=> view_infer3 >=>
        two_rounds (embedding_size m) (intersection_attn m) (intersection_ffn m)
          (intersection_layer_norm_1 m) (intersection_layer_norm_2 m)
          (intersection_layer_norm_3 m) (intersection_layer_norm_4 m)) l).
Proof.
  intros m; split; intros x.
  - apply negation_two_rounds.
  - apply intersection_two_rounds.
Qed.

Lemma forward_p_dispatch_None (m : Q2P) (relation_ids sub : structured_query)
      (rest : list structured_query) :
  forward m (Node "p" (relation_ids :: sub :: rest)) None =
  (r <- forward m sub None ;;
   t <- as_tensor r ;;
   out <- (if head_is_e sub then projection m relation_ids t
           else higher_projection m relation_ids t) ;;
   Ok (VTensor out)).
Proof.
  cbn [forward].
  change (tag_in "p" known_tags) with true.
  change (String.eqb "p" "p") with true.
  cbn [negb].
  destruct (forward m sub None) as [r | e]; simpl; [ | reflexivity].
  destruct (as_tensor r) as [t | e]; simpl; [ | reflexivity].
  destruct (head_is_e sub); simpl.
  - destruct (projection m relation_ids t); reflexivity.
  - destruct (higher_projection m relation_ids t); reflexivity.
Qed.

(** ** C1: the attention of the source against query/key/value attention *)

(** C1. On the particle set [[[1]]], with query weight 1 and value weight 2,
    [SelfAttention.forward] returns [[[1]]] (the value vectors are taken from
    the query layer), whereas attention with the value projection taken from
    the value layer returns [[[2]]]. *)
Theorem SelfAttention_forward_uses_query_for_value :
  exists y y',
    SelfAttention_forward 1 sa_121 x_111 = Ok y /\ at3 y 0 0 0 = 1 /\
    qkv_attention_spec 1 sa_121 x_111 = Ok y' /\ at3 y' 0 0 0 = 2.
Proof.
  eexists; eexists.
  split; [reflexivity | ].
  split.
  - cbn.
    match goal with |- context [exp ?a] => pose proof (exp_pos a) end.
    field. lra.
  - split; [reflexivity | ].
    cbn.
    match goal with |- context [exp ?a] => pose proof (exp_pos a) end.
    field. lra.
Qed.

(** ** Shapes *)

Lemma broadcast_dim_same (a : nat) : broadcast_dim a a = Ok a.
Proof. unfold broadcast_dim. rewrite Nat.eqb_refl. reflexivity. Qed.

Lemma broadcast_dim_1_l (b : nat) : broadcast_dim 1 b = Ok b.
Proof.
  unfold broadcast_dim. destruct (Nat.eqb_spec 1 b) as [<- | _]; reflexivity.
Qed.

Lemma broadcast_dim_1_r (a : nat) : broadcast_dim a 1 = Ok a.
Proof.
  unfold broadcast_dim. destruct (Nat.eqb_spec a 1) as [-> | _]; reflexivity.
Qed.

Ltac shapes :=
  repeat match goal with
         | t : tensor3 |- _ => destruct t
         | t : tensor2 |- _ => destruct t
         end;
  simpl in *;
  repeat (subst;
          match goal with
          | H : _ /\ _ |- _ => destruct H
          | H : broadcast_dim ?a ?a = Ok _ |- _ =>
              rewrite broadcast_dim_same in H; injection H as H
          | H : broadcast_dim 1 _ = Ok _ |- _ =>
              rewrite broadcast_dim_1_l in H; injection H as H
          | H : broadcast_dim _ 1 = Ok _ |- _ =>
              rewrite broadcast_dim_1_r in H; injection H as H
          end);
  subst.

Lemma zip3_shape (f : R -> R -> R) (x y t : tensor3) :
  zip3 f x y = Ok t ->
  broadcast_dim (d0 x) (d0 y) = Ok (d0 t) /\
  broadcast_dim (d1 x) (d1 y) = Ok (d1 t) /\
  broadcast_dim (d2 x) (d2 y) = Ok (d2 t).
Proof.
  unfold zip3. intros H.
  inv_bind H. inv_bind H. inv_bind H.
  injection H as <-. simpl. auto.
Qed.

Lemma Linear_forward_shape (i o : nat) (L : Linear) (x y : tensor3) :
  Linear_forward i o L x = Ok y ->
  d2 x = i /\ d0 y = d0 x /\ d1 y = d1 x /\ d2 y = o.
Proof.
  unfold Linear_forward. intros H. inv_bind H.
  apply check_Ok_inv, Nat.eqb_eq in Ha.
  injection H as <-. simpl. auto.
Qed.

Lemma Linear_forward_Ok (i o : nat) (L : Linear) (x : tensor3) :
  d2 x = i ->
  Linear_forward i o L x =
  Ok (mkT3 (d0 x) (d1 x) o
        (fun b p k => rsum i (fun l => at3 x b p l * weight L k l) + bias_at L k)).
Proof.
  intros H. unfold Linear_forward. rewrite H, Nat.eqb_refl. reflexivity.
Qed.

Lemma Linear_forward_Raise (i o : nat) (L : Linear) (x : tensor3) :
  d2 x <> i -> Linear_forward i o L x = Raise TorchError.
Proof.
  intros H. unfold Linear_forward.
  destruct (Nat.eqb_spec (d2 x) i); [contradiction | reflexivity].
Qed.

Lemma matmul_shape (x y t : tensor3) :
  matmul x y = Ok t ->
  broadcast_dim (d0 x) (d0 y) = Ok (d0 t) /\ d1 t = d1 x /\ d2 t = d2 y.
Proof.
  unfold matmul. intros H. inv_bind H. inv_bind H.
  injection H as <-. simpl. auto.
Qed.

Lemma SelfAttention_forward_shape (h : nat) (sa : SelfAttention) (x y : tensor3) :
  SelfAttention_forward h sa x = Ok y ->
  d2 x = h /\ d0 y = d0 x /\ d1 y = d1 x /\ d2 y = h.
Proof.
  unfold SelfAttention_forward. intros H.
  inv_bind H. inv_bind H. inv_bind H. inv_bind H.
  apply Linear_forward_shape in Ha, Ha0, Ha1.
  apply matmul_shape in Ha2, H.
  shapes. auto.
Qed.

Lemma LayerNorm_forward_shape (h : nat) (ln : LayerNorm) (x y : tensor3) :
  LayerNorm_forward h ln x = Ok y ->
  d0 y = d0 x /\ d1 y = d1 x /\ (d2 x = h -> d2 y = h).
Proof.
  unfold LayerNorm_forward. intros H.
  inv_bind H. inv_bind H. inv_bind H. inv_bind H.
  apply zip3_shape in Ha, Ha0, Ha1, Ha2, H.
  shapes. split; [reflexivity | split; [reflexivity | ]].
  intros ->. shapes. reflexivity.
Qed.

Lemma FFN_forward_shape (h : nat) (ffn : FFN) (x y : tensor3) :
  FFN_forward h ffn x = Ok y ->
  d2 x = h /\ d0 y = d0 x /\ d1 y = d1 x /\ d2 y = h.
Proof.
  unfold FFN_forward, dropout. intros H. inv_bind H.
  apply Linear_forward_shape in Ha, H.
  shapes. auto.
Qed.

Lemma ffn_residual_shape (h : nat) (ffn : FFN) (x y : tensor3) :
  ffn_residual h ffn x = Ok y ->
  d2 x = h /\ d0 y = d0 x /\ d1 y = d1 x /\ d2 y = h.
Proof.
  unfold ffn_residual. intros H. inv_bind H.
  apply FFN_forward_shape in Ha.
  apply zip3_shape in H.
  shapes. auto.
Qed.

Lemma Embedding_forward_shape (n dim : nat) (E : Embedding) (ids : list Z)
      (t : tensor2) :
  Embedding_forward n dim E ids = Ok t ->
  rows t = List.length ids /\ cols t = dim /\ ids <> [].
Proof.
  unfold Embedding_forward. intros H. inv_bind H. inv_bind H.
  apply check_Ok_inv in Ha. injection H as <-. simpl.
  repeat split. intros ->. discriminate.
Qed.

Ltac shape_facts :=
  repeat match goal with
         | H : zip3 _ _ _ = Ok _ |- _ => apply zip3_shape in H
         | H : Linear_forward _ _ _ _ = Ok _ |- _ => apply Linear_forward_shape in H
         | H : matmul _ _ = Ok _ |- _ => apply matmul_shape in H
         | H : SelfAttention_forward _ _ _ = Ok _ |- _ =>
             apply SelfAttention_forward_shape in H
         | H : LayerNorm_forward _ _ _ = Ok _ |- _ =>
             apply LayerNorm_forward_shape in H
         | H : FFN_forward _ _ _ = Ok _ |- _ => apply FFN_forward_shape in H
         | H : ffn_residual _ _ _ = Ok _ |- _ => apply ffn_residual_shape in H
         | H : Embedding_forward _ _ _ _ = Ok _ |- _ =>
             apply Embedding_forward_shape in H
         end.

Ltac shapes_imp :=
  repeat (shapes;
          match goal with
          | H : ?a = ?a -> _ |- _ => specialize (H eq_refl)
          end);
  shapes.

Ltac inv_binds H :=
  repeat inv_bind H;
  repeat match goal with
         | H' : bind _ _ = Ok _ |- _ => inv_bind H'
         end.

Lemma projection_shape (m : Q2P) (rel : structured_query) (h t : tensor3) :
  projection m rel h = Ok t ->
  d1 t = d1 h /\ d2 t = embedding_size m /\ d2 h = embedding_size m.
Proof.
  unfold projection, dropout. intros H. inv_binds H.
  shape_facts. shapes_imp. auto.
Qed.

Lemma two_rounds_shape (E : nat) (attn : SelfAttention) (ffn : FFN)
      (ln1 ln2 ln3 ln4 : LayerNorm) (x t : tensor3) :
  two_rounds E attn ffn ln1 ln2 ln3 ln4 x = Ok t ->
  d0 t = d0 x /\ d1 t = d1 x /\ d2 t = E /\ d2 x = E.
Proof.
  unfold two_rounds, kcomp. intros H. inv_binds H.
  shape_facts. shapes_imp. auto.
Qed.

Lemma higher_projection_shape (m : Q2P) (rel : structured_query) (h t : tensor3) :
  higher_projection m rel h = Ok t ->
  d1 t = d1 h /\ d2 t = embedding_size m /\ d2 h = embedding_size m.
Proof.
  unfold higher_projection. intros H. inv_binds H.
  apply projection_shape in H.
  shape_facts. shapes_imp. auto.
Qed.

Lemma negation_shape (m : Q2P) (h t : tensor3) :
  negation m h = Ok t ->
  d1 t = d1 h /\ d2 t = embedding_size m /\ d2 h = embedding_size m.
Proof.
  intros H.
  rewrite negation_two_rounds in H.
  apply two_rounds_shape in H. tauto.
Qed.

Lemma cat1_from_shape (ts : list tensor3) :
  forall acc t,
    cat1_from acc ts = Ok t ->
    d0 t = d0 acc /\ d2 t = d2 acc /\
    d1 t = (d1 acc + list_sum (map d1 ts))%nat /\
    Forall (fun x => d0 x = d0 acc /\ d2 x = d2 acc) ts.
Proof.
  induction ts as [ | x ts IH]; intros acc t H; simpl in H.
  - injection H as <-. simpl. repeat split; [lia | constructor].
  - inv_bind H. apply check_Ok_inv, andb_true_iff in Ha.
    destruct Ha as [A0 A2]. apply Nat.eqb_eq in A0, A2.
    apply IH in H. simpl in H. destruct H as (H0 & H2 & H1 & HF).
    repeat split; try assumption.
    + simpl. lia.
    + constructor; auto.
Qed.

Lemma cat1_shape (ts : list tensor3) (t : tensor3) :
  cat1 ts = Ok t ->
  d1 t = list_sum (map d1 ts) /\
  Forall (fun x => d0 x = d0 t /\ d2 x = d2 t) ts /\ ts <> [].
Proof.
  destruct ts as [ | x ts]; simpl; intros H; [discriminate | ].
  apply cat1_from_shape in H. destruct H as (H0 & H2 & H1 & HF).
  repeat split; try assumption.
  - constructor; [auto | ].
    eapply Forall_impl; [ | exact HF]. simpl. intros a [? ?]. split; congruence.
  - discriminate.
Qed.

Lemma view_infer3_inv (x t : tensor3) :
  view_infer3 x = Ok t -> t = x /\ (d0 x * d2 x)%nat <> O.
Proof.
  unfold view_infer3. intros H. inv_bind H. injection H as <-.
  apply check_Ok_inv, negb_true_iff, Nat.eqb_neq in Ha. auto.
Qed.

Lemma intersection_shape (m : Q2P) (l : list tensor3) (t : tensor3) :
  intersection m l = Ok t ->
  d1 t = list_sum (map d1 l) /\ d2 t = embedding_size m /\
  Forall (fun x => d2 x = embedding_size m) l.
Proof.
  intros H.
  rewrite intersection_two_rounds in H.
  unfold kcomp in H.
  destruct (cat1 l) as [c | ] eqn:Hc; simpl in H; [ | discriminate].
  destruct (view_infer3 c) as [v | ] eqn:Hv; simpl in H; [ | discriminate].
  apply cat1_shape in Hc. apply view_infer3_inv in Hv. destruct Hv as [-> _].
  apply two_rounds_shape in H.
  destruct Hc as (A1 & AF & _), H as (_ & H1 & H2 & H3).
  repeat split; try congruence.
  eapply Forall_impl; [ | exact AF]. simpl. intros x [_ ?]. congruence.
Qed.

Lemma union_shape (l : list tensor3) (t : tensor3) :
  union l = Ok t ->
  d1 t = list_sum (map d1 l) /\ Forall (fun x => d2 x = d2 t) l /\ l <> [].
Proof.
  unfold union. intros H. apply cat1_shape in H.
  destruct H as (H1 & HF & Hne). repeat split; try assumption.
  eapply Forall_impl; [ | exact HF]. simpl. tauto.
Qed.

Lemma ParticleCrusher_forward_shape (E P : nat) (pc : ParticleCrusher)
      (emb : tensor2) (t : tensor3) :
  ParticleCrusher_forward E P pc emb = Ok t ->
  cols emb = E ->
  d0 t = rows emb /\ d1 t = P /\ d2 t = E.
Proof.
  unfold ParticleCrusher_forward, reshape_infer2. intros H Hc.
  destruct (check _); simpl in H; [ | discriminate].
  apply zip3_shape in H. shapes. auto.
Qed.

(** ** The interpreter *)

Lemma as_tensor_inv (v : pyvalue) (t : tensor3) : as_tensor v = Ok t -> v = VTensor t.
Proof. destruct v; simpl; intros H; congruence. Qed.

Lemma forward_Node (m : Q2P) (tag : string) (items : list structured_query)
      (label : option (list Z)) :
  forward m (Node tag items) label =
  if negb (tag_in tag known_tags) then Raise AssertionError else
    this_query_result <-
      (if String.eqb tag "p" then
         match items with
         | relation_ids :: sub :: _ =>
             sub_query_result <- forward m sub None ;;
             sub_query_result <- as_tensor sub_query_result ;;
             if head_is_e sub
             then t <- projection m relation_ids sub_query_result ;; Ok (VTensor t)
             else t <- higher_projection m relation_ids sub_query_result ;;
                  Ok (VTensor t)
         | _ => Raise IndexError
         end
       else if String.eqb tag "i" then
         sub_query_result_list <- mapM (fun q => forward m q None) items ;;
         sub_query_result_list <- mapM as_tensor sub_query_result_list ;;
         t <- intersection m sub_query_result_list ;; Ok (VTensor t)
       else if String.eqb tag "u" then
         sub_query_result_list <- mapM (fun q => forward m q None) items ;;
         sub_query_result_list <- mapM as_tensor sub_query_result_list ;;
         t <- union sub_query_result_list ;; Ok (VTensor t)
       else if String.eqb tag "n" then
         match items with
         | sub :: _ =>
             sub_query_result <- forward m sub None ;;
             sub_query_result <- as_tensor sub_query_result ;;
             t <- negation m sub_query_result ;; Ok (VTensor t)
         | [] => Raise IndexError
         end
       else if String.eqb tag "e" then
         match items with
         | ids :: _ =>
             entity_ids <- torch_tensor ids ;;
             emb <- Embedding_forward (num_entities m) (embedding_size m)
                      (entity_embedding m) entity_ids ;;
             t <- ParticleCrusher_forward (embedding_size m) (num_particles m)
                    (to_particles m) emb ;;
             Ok (VTensor t)
         | [] => Raise IndexError
         end
       else Ok VNone) ;;
    match label with
    | None => Ok this_query_result
    | Some labels => l <- loss_fnt m this_query_result labels ;; Ok (VScalar l)
    end.
Proof. reflexivity. Qed.

Lemma bind_ret_inv {A : Type} (r : result A) (a : A) :
  (x <- r ;; Ok x) = Ok a -> r = Ok a.
Proof. destruct r; simpl; congruence. Qed.

(** The particle sets of a list of sub-queries, evaluated in order. *)
Lemma sub_results_shape (m : Q2P) (items : list structured_query) :
  Forall (fun q => forall t, forward m q None = Ok (VTensor t) ->
                   d1 t = particle_count (num_particles m) q /\
                   d2 t = embedding_size m) items ->
  forall vs ts,
    mapM (fun q => forward m q None) items = Ok vs ->
    mapM as_tensor vs = Ok ts ->
    list_sum (map d1 ts) = list_sum (map (particle_count (num_particles m)) items) /\
    Forall (fun t => d2 t = embedding_size m) ts.
Proof.
  induction 1 as [ | q items Hq _ IH]; simpl; intros vs ts Hvs Hts.
  - injection Hvs as <-. simpl in Hts. injection Hts as <-. simpl. auto.
  - destruct (forward m q None) as [v | ] eqn:Hv; simpl in Hvs; [ | discriminate].
    destruct (mapM _ items) as [vs' | ]; simpl in Hvs; [ | discriminate].
    injection Hvs as <-. simpl in Hts.
    destruct (as_tensor v) as [t | ] eqn:Ht; simpl in Hts; [ | discriminate].
    destruct (mapM as_tensor vs') as [ts' | ] eqn:Hts'; simpl in Hts; [ | discriminate].
    injection Hts as <-.
    apply as_tensor_inv in Ht. subst v.
    destruct (Hq t eq_refl) as [Q1 Q2].
    destruct (IH vs' ts' eq_refl Hts') as [I1 I2].
    simpl. split; [congruence | constructor; auto].
Qed.

Lemma forward_shape (m : Q2P) (q : structured_query) :
  forall t, forward m q None = Ok (VTensor t) ->
            d1 t = particle_count (num_particles m) q /\ d2 t = embedding_size m.
Proof.
  induction q as [l | tag items IH] using query_induction; intros t H.
  - destruct l; discriminate.
  - rewrite forward_Node in H.
    destruct (negb (tag_in tag known_tags)); [discriminate | ].
    apply bind_ret_inv in H. cbn [particle_count].
    destruct (String.eqb tag "p").
    { destruct items as [ | rel [ | sub rest]]; try discriminate.
      inversion IH as [ | ? ? _ IH']; subst. inversion IH' as [ | ? ? IHsub _]; subst.
      destruct (forward m sub None) as [v | ] eqn:Hv; simpl in H; [ | discriminate].
      destruct (as_tensor v) as [s | ] eqn:Hs; simpl in H; [ | discriminate].
      apply as_tensor_inv in Hs. subst v.
      destruct (IHsub s eq_refl) as [S1 S2].
      destruct (head_is_e sub).
      - destruct (projection m rel s) as [o | ] eqn:Ho; simpl in H; [ | discriminate].
        injection H as <-. apply projection_shape in Ho.
        destruct Ho as (? & ? & ?). split; congruence.
      - destruct (higher_projection m rel s) as [o | ] eqn:Ho; simpl in H;
          [ | discriminate].
        injection H as <-. apply higher_projection_shape in Ho.
        destruct Ho as (? & ? & ?). split; congruence. }
    destruct (String.eqb tag "i").
    { destruct (mapM _ items) as [vs | ] eqn:Hvs; simpl in H; [ | discriminate].
      destruct (mapM as_tensor vs) as [ts | ] eqn:Hts; simpl in H; [ | discriminate].
      destruct (intersection m ts) as [o | ] eqn:Ho; simpl in H; [ | discriminate].
      injection H as <-. apply intersection_shape in Ho.
      destruct (sub_results_shape m items IH vs ts Hvs Hts) as [S1 _].
      destruct Ho as (? & ? & _). split; congruence. }
    destruct (String.eqb tag "u").
    { destruct (mapM _ items) as [vs | ] eqn:Hvs; simpl in H; [ | discriminate].
      destruct (mapM as_tensor vs) as [ts | ] eqn:Hts; simpl in H; [ | discriminate].
      destruct (union ts) as [o | ] eqn:Ho; simpl in H; [ | discriminate].
      injection H as <-. apply union_shape in Ho.
      destruct (sub_results_shape m items IH vs ts Hvs Hts) as [S1 S2].
      destruct Ho as (O1 & O2 & O3). split; [congruence | ].
      destruct ts as [ | t0 ts]; [contradiction | ].
      inversion O2; subst. inversion S2; subst. congruence. }
    destruct (String.eqb tag "n").
    { destruct items as [ | sub rest]; try discriminate.
      inversion IH as [ | ? ? IHsub _]; subst.
      destruct (forward m sub None) as [v | ] eqn:Hv; simpl in H; [ | discriminate].
      destruct (as_tensor v) as [s | ] eqn:Hs; simpl in H; [ | discriminate].
      apply as_tensor_inv in Hs. subst v.
      destruct (IHsub s eq_refl) as [S1 S2].
      destruct (negation m s) as [o | ] eqn:Ho; simpl in H; [ | discriminate].
      injection H as <-. apply negation_shape in Ho.
      destruct Ho as (? & ? & ?). split; congruence. }
    destruct (String.eqb tag "e"); [ | discriminate].
    destruct items as [ | ids rest]; try discriminate.
    destruct (torch_tensor ids) as [l | ]; simpl in H; [ | discriminate].
    destruct (Embedding_forward _ _ _ l) as [emb | ] eqn:He; simpl in H; [ | discriminate].
    destruct (ParticleCrusher_forward _ _ _ emb) as [o | ] eqn:Ho; simpl in H;
      [ | discriminate].
    injection H as <-.
    apply Embedding_forward_shape in He. destruct He as (_ & He & _).
    apply (ParticleCrusher_forward_shape _ _ _ _ _ Ho) in He. tauto.
Qed.

(** ** C3: shapes of the operator outputs *)

Lemma list_sum_const (A : Type) (f : A -> nat) (n : nat) (l : list A) :
  Forall (fun x => f x = n) l -> list_sum (map f l) = (List.length l * n)%nat.
Proof.
  induction 1 as [ | x l Hx _ IH]; simpl; [reflexivity | ]. rewrite Hx, IH. reflexivity.
Qed.

(** C3 (as the code has it). Every operator output has the embedding
    dimension as its last dimension.  Particle expansion returns
    [num_particles] particles; projection, higher-order projection and negation
    return as many particles as their input has; intersection and union
    return the sum of their operands' particle counts ([k * n] for [k]
    operands of [n] particles each).  Hence the particle set of a query has
    [particle_count] particles. *)
Theorem operator_output_shapes :
  forall (m : Q2P),
    (forall emb t,
        cols emb = embedding_size m ->
        ParticleCrusher_forward (embedding_size m) (num_particles m)
          (to_particles m) emb = Ok t ->
        d1 t = num_particles m /\ d2 t = embedding_size m) /\
    (forall rel h t, projection m rel h = Ok t ->
                     d1 t = d1 h /\ d2 t = embedding_size m) /\
    (forall rel h t, higher_projection m rel h = Ok t ->
                     d1 t = d1 h /\ d2 t = embedding_size m) /\
    (forall h t, negation m h = Ok t ->
                 d1 t = d1 h /\ d2 t = embedding_size m) /\
    (forall l t, intersection m l = Ok t ->
                 d1 t = list_sum (map d1 l) /\ d2 t = embedding_size m /\
                 forall n, Forall (fun x => d1 x = n) l ->
                           d1 t = (List.length l * n)%nat) /\
    (forall l t, union l = Ok t ->
                 d1 t = list_sum (map d1 l) /\
                 (Forall (fun x => d2 x = embedding_size m) l ->
                  d2 t = embedding_size m) /\
                 forall n, Forall (fun x => d1 x = n) l ->
                           d1 t = (List.length l * n)%nat) /\
    (forall q t, forward m q None = Ok (VTensor t) ->
                 d1 t = particle_count (num_particles m) q /\
                 d2 t = embedding_size m).
Proof.
  intros m.
  split; [ | split; [ | split; [ | split; [ | split; [ | split]]]]].
  - intros emb t Hc H.
    destruct (ParticleCrusher_forward_shape _ _ _ _ _ H Hc) as (_ & ? & ?). auto.
  - intros rel h t H. apply projection_shape in H. tauto.
  - intros rel h t H. apply higher_projection_shape in H. tauto.
  - intros h t H. apply negation_shape in H. tauto.
  - intros l t H. apply intersection_shape in H. destruct H as (H1 & H2 & _).
    split; [assumption | split; [assumption | ]].
    intros n Hn. rewrite H1. apply list_sum_const; assumption.
  - intros l t H. apply union_shape in H. destruct H as (H1 & HF & Hne).
    split; [assumption | split].
    + intros HE. destruct l as [ | x l]; [contradiction | ].
      inversion HF; subst. inversion HE; subst. congruence.
    + intros n Hn. rewrite H1. apply list_sum_const; assumption.
  - intros q t H. apply forward_shape; assumption.
Qed.

Lemma q_p_u_evaluates :
  match forward q2p_small q_p_u None with
  | Ok (VTensor t) => (d1 t =? 4)%nat
  | _ => false
  end = true.
Proof. vm_compute. reflexivity. Qed.

Lemma operator_output_shapes_witness :
  exists t, forward q2p_small q_p_u None = Ok (VTensor t) /\
            d1 t = particle_count 2 q_p_u /\ d2 t = 4%nat.
Proof.
  pose proof q_p_u_evaluates as T.
  destruct (forward q2p_small q_p_u None) as [[ | t | ] | ] eqn:H;
    try discriminate T.
  exists t. split; [reflexivity | ].
  exact (proj2 (proj2 (proj2 (proj2 (proj2 (proj2
           (operator_output_shapes q2p_small)))))) q_p_u t H).
Defined.

(** C3 (as stated) fails: the higher-order projection applied for
    [("p", [5], ("u", ("e", [3]), ("e", [3])))] returns four particles in a
    model whose [num_particles] is two. *)
Lemma higher_projection_not_num_particles :
  exists s t,
    forward q2p_small (Node "u" [q_e3; q_e3]) None = Ok (VTensor s) /\
    higher_projection q2p_small (Ids [5%Z]) s = Ok t /\
    forward q2p_small q_p_u None = Ok (VTensor t) /\
    d1 t <> num_particles q2p_small.
Proof.
  pose proof q_p_u_evaluates as T.
  unfold q_p_u in T. rewrite forward_p_dispatch_None in T.
  destruct (forward q2p_small (Node "u" [q_e3; q_e3]) None) as [[ | s | ] | ] eqn:Hs;
    simpl in T; try discriminate T.
  change (head_is_e (Node "u" [q_e3; q_e3])) with false in T. cbv iota in T.
  destruct (higher_projection q2p_small (Ids [5%Z]) s) as [t | ] eqn:Ht;
    simpl in T; try discriminate T.
  exists s, t. split; [reflexivity | split; [exact Ht | split]].
  - unfold q_p_u. rewrite forward_p_dispatch_None, Hs. simpl.
    change (head_is_e (Node "u" [q_e3; q_e3])) with false. cbv iota.
    rewrite Ht. reflexivity.
  - apply Nat.eqb_eq in T. rewrite T. simpl. discriminate.
Qed.

(** ** C9 and C2: what [forward] returns and when it raises *)

Lemma tag_in_known (tag : string) :
  tag_in tag known_tags = true ->
  String.eqb tag "p" = false -> String.eqb tag "i" = false ->
  String.eqb tag "u" = false -> String.eqb tag "n" = false ->
  String.eqb tag "e" = true.
Proof.
  unfold tag_in, known_tags. simpl. intros H Hp Hi Hu Hn.
  rewrite Hp, Hi, Hu, Hn in H. simpl in H.
  destruct (String.eqb tag "e"); [reflexivity | discriminate].
Qed.

Lemma forward_returns (m : Q2P) (q : structured_query) (label : option (list Z)) (v : pyvalue) :
  forward m q label = Ok v ->
  match label with
  | None => exists t, v = VTensor t
  | Some _ => exists l, v = VScalar l
  end.
Proof.
  destruct q as [l | tag items]; intros H.
  - destruct l; discriminate.
  - rewrite forward_Node in H.
    destruct (tag_in tag known_tags) eqn:Hin; simpl in H; [ | discriminate].
    inv_bind H.
    assert (Ht : exists t, a = VTensor t).
    { clear H.
      destruct (String.eqb tag "p") eqn:Hp.
      { destruct items as [ | rel [ | sub rest]]; try discriminate.
        destruct (head_is_e sub); inv_binds Ha; injection Ha as <-; eauto. }
      destruct (String.eqb tag "i") eqn:Hi.
      { inv_binds Ha. injection Ha as <-. eauto. }
      destruct (String.eqb tag "u") eqn:Hu.
      { inv_binds Ha. injection Ha as <-. eauto. }
      destruct (String.eqb tag "n") eqn:Hn.
      { destruct items as [ | sub rest]; try discriminate.
        inv_binds Ha. injection Ha as <-. eauto. }
      rewrite (tag_in_known tag Hin Hp Hi Hu Hn) in Ha.
      destruct items as [ | ids rest]; try discriminate.
      inv_binds Ha. injection Ha as <-. eauto. }
    destruct label as [labels | ].
    + inv_bind H. injection H as <-. eauto.
    + injection H as <-. exact Ht.
Qed.

(** C9. [forward] never returns [None]: a tag outside the five known ones
    fails the assertion at the entry, and a call that returns normally
    returns a particle set when no label is given and a loss when one is. *)
Theorem forward_never_returns_None :
  forall (m : Q2P),
    (forall tag items label,
        tag_in tag known_tags = false ->
        forward m (Node tag items) label = Raise AssertionError) /\
    (forall q label, forward m q label <> Ok VNone) /\
    (forall q v, forward m q None = Ok v -> exists t, v = VTensor t) /\
    (forall q labels v, forward m q (Some labels) = Ok v -> exists l, v = VScalar l).
Proof.
  intros m. split; [ | split; [ | split]].
  - intros tag items label H. rewrite forward_Node, H. reflexivity.
  - intros q label H. apply forward_returns in H.
    destruct label; destruct H as [x H]; discriminate.
  - intros q v H. exact (forward_returns m q None v H).
  - intros q labels v H. exact (forward_returns m q (Some labels) v H).
Qed.

Lemma q_e3_evaluates :
  match forward q2p_small q_e3 None with
  | Ok (VTensor t) => true
  | _ => false
  end = true.
Proof. vm_compute. reflexivity. Qed.

Lemma forward_never_returns_None_witness :
  forward q2p_small (Node "x" []) None = Raise AssertionError /\
  exists t, forward q2p_small q_e3 None = Ok (VTensor t).
Proof.
  destruct (forward_never_returns_None q2p_small) as (Hassert & _ & Htensor & _).
  split.
  - apply Hassert. reflexivity.
  - pose proof q_e3_evaluates as T.
    destruct (forward q2p_small q_e3 None) as [v | ] eqn:H; [ | discriminate T].
    destruct (Htensor q_e3 v H) as [t ->]. exists t. reflexivity.
Defined.

Lemma sub_queries_raise (m : Q2P) (items : list structured_query) :
  Forall (fun q => forall label, accepted q = false ->
                   exists e, forward m q label = Raise e) items ->
  forallb accepted items = false ->
  exists e, mapM (fun q => forward m q None) items = Raise e.
Proof.
  induction 1 as [ | q items Hq _ IH]; simpl; intros Hall; [discriminate | ].
  destruct (forward m q None) as [v | e] eqn:Hv; simpl; [ | eauto].
  destruct (accepted q) eqn:Hacc.
  - destruct (IH Hall) as [e ->]. simpl. eauto.
  - destruct (Hq None eq_refl) as [e He]. congruence.
Qed.

(** C2 (as the code has it). A query on which [forward] meets an unknown
    tag, or a node that lacks an element it indexes, makes [forward] raise,
    with or without a label; and [forward] returns [None] for no query. *)
Theorem forward_raises_on_unaccepted :
  forall (m : Q2P) (q : structured_query) (label : option (list Z)),
    (accepted q = false -> exists e, forward m q label = Raise e) /\
    forward m q label <> Ok VNone.
Proof.
  intros m q label. split.
  2: { intros H. apply forward_returns in H.
       destruct label; destruct H as [x H]; discriminate. }
  revert label.
  induction q as [l | tag items IH] using query_induction; intros label Hacc.
  - destruct l; simpl; eauto.
  - rewrite forward_Node.
    destruct (tag_in tag known_tags) eqn:Hin; simpl; [ | eauto].
    cbn [accepted] in Hacc.
    match goal with
    | |- exists e, bind ?D _ = _ => assert (HD : exists e, D = Raise e)
    end.
    2: { destruct HD as [e ->]. simpl. eauto. }
    destruct (String.eqb tag "p") eqn:Hp.
    { destruct items as [ | rel [ | sub rest]]; eauto.
      inversion IH as [ | ? ? _ IH']; subst. inversion IH' as [ | ? ? IHsub _]; subst.
      destruct (IHsub None Hacc) as [e ->]. simpl. eauto. }
    destruct (String.eqb tag "i") eqn:Hi.
    { destruct items as [ | q0 rest]; [simpl; eauto | ].
      destruct (sub_queries_raise m _ IH Hacc) as [e ->]. simpl. eauto. }
    destruct (String.eqb tag "u") eqn:Hu.
    { destruct items as [ | q0 rest]; [simpl; eauto | ].
      destruct (sub_queries_raise m _ IH Hacc) as [e ->]. simpl. eauto. }
    destruct (String.eqb tag "n") eqn:Hn.
    { destruct items as [ | sub rest]; eauto.
      inversion IH as [ | ? ? IHsub _]; subst.
      destruct (IHsub None Hacc) as [e ->]. simpl. eauto. }
    rewrite (tag_in_known tag Hin Hp Hi Hu Hn) in Hacc |- *.
    destruct items as [ | ids rest]; [eauto | discriminate].
Qed.

Lemma forward_raises_on_unaccepted_witness :
  exists e, forward q2p_small (Node "p" [Ids [5%Z]; Node "x" []]) None = Raise e.
Proof.
  apply (proj1 (forward_raises_on_unaccepted q2p_small
                  (Node "p" [Ids [5%Z]; Node "x" []]) None)).
  reflexivity.
Defined.

Lemma q_p_extra_evaluates :
  match forward q2p_small q_p_extra None with
  | Ok (VTensor t) => true
  | _ => false
  end = true.
Proof. vm_compute. reflexivity. Qed.

(** C2 (as stated) fails: [("p", [5], ("e", [3]), ("x",))] has a node of
    wrong arity and contains the unknown tag ["x"], and [forward] returns a
    particle set for it. *)
Lemma forward_accepts_extra_elements :
  spec_well_formed q_p_extra = false /\
  exists t, forward q2p_small q_p_extra None = Ok (VTensor t).
Proof.
  split; [reflexivity | ].
  pose proof q_p_extra_evaluates as T.
  destruct (forward q2p_small q_p_extra None) as [[ | t | ] | ]; try discriminate T.
  exists t. reflexivity.
Qed.

(** ** C5: scoring *)

Lemma rmax_to_ge (n : nat) (f : nat -> R) :
  forall p, (p <= n)%nat -> f p <= rmax_to n f.
Proof.
  induction n as [ | n IH]; intros p Hp; simpl.
  - replace p with O by lia. apply Rle_refl.
  - destruct (Nat.eq_dec p (S n)) as [-> | Hne].
    + apply Rmax_r.
    + apply Rle_trans with (rmax_to n f); [apply IH; lia | apply Rmax_l].
Qed.

Lemma rmax_to_attained (n : nat) (f : nat -> R) :
  exists p, (p <= n)%nat /\ rmax_to n f = f p.
Proof.
  induction n as [ | n [p [Hp IH]]]; simpl.
  - exists O. split; [lia | reflexivity].
  - destruct (Rmax_case (rmax_to n f) (f (S n)) (fun r => r = rmax_to n f \/ r = f (S n)))
      as [H | H]; auto.
    + exists p. split; [lia | congruence].
    + exists (S n). split; [lia | assumption].
Qed.

(** C5. The decoder is a bias-free linear layer whose weight is the entity
    embedding table.  On an encoding of shape [batch, particles, embedding_size]
    with at least one particle, [scoring] returns a [batch, num_entities]
    tensor whose entry [(b, e)] is the maximum over the particles [p] of the
    dot product of particle [p] of batch element [b] with row [e] of the
    entity embedding table. *)
Theorem scoring_is_max_dot :
  forall (m : Q2P),
    (weight (decoder m) = emb_weight (entity_embedding m) /\
     bias (decoder m) = None) /\
    forall (query_encoding : tensor3),
      d2 query_encoding = embedding_size m ->
      (0 < d1 query_encoding)%nat ->
      exists s,
        scoring m query_encoding = Ok s /\
        rows s = d0 query_encoding /\ cols s = num_entities m /\
        forall b e,
          (b < d0 query_encoding)%nat -> (e < num_entities m)%nat ->
          (forall p, (p < d1 query_encoding)%nat ->
                     dot (embedding_size m) (at3 query_encoding b p)
                         (emb_weight (entity_embedding m) e) <= at2 s b e) /\
          (exists p, (p < d1 query_encoding)%nat /\
                     at2 s b e = dot (embedding_size m) (at3 query_encoding b p)
                                     (emb_weight (entity_embedding m) e)).
Proof.
  intros m. split; [split; reflexivity | ].
  intros enc H2 H1.
  unfold scoring. rewrite (Linear_forward_Ok _ _ _ _ H2). simpl.
  unfold max1. simpl.
  destruct (d1 enc) as [ | n] eqn:Hn; [lia | ].
  eexists. split; [reflexivity | ]. simpl.
  split; [reflexivity | split; [reflexivity | ]].
  intros b e _ _. unfold dot, bias_at. simpl. split.
  - intros p Hp.
    pose proof (rmax_to_ge n
      (fun p0 => rsum (embedding_size m)
                   (fun l => at3 enc b p0 l * emb_weight (entity_embedding m) e l) + 0)
      p ltac:(lia)) as Hge.
    simpl in Hge. lra.
  - destruct (rmax_to_attained n
      (fun p0 => rsum (embedding_size m)
                   (fun l => at3 enc b p0 l * emb_weight (entity_embedding m) e l) + 0))
      as [p [Hp Heq]].
    exists p. split; [lia | ]. rewrite Heq. lra.
Qed.

Lemma scoring_is_max_dot_witness :
  exists s, scoring q2p_small enc_124 = Ok s /\
            rows s = 1%nat /\ cols s = 10%nat.
Proof.
  destruct (proj2 (scoring_is_max_dot q2p_small) enc_124) as [s (Hs & Hr & Hc & _)].
  - reflexivity.
  - simpl. lia.
  - exists s. auto.
Defined.

(** ** C7: permutation covariance of self-attention *)

Lemma Rlist_sum_app (l l' : list R) :
  Rlist_sum (l ++ l') = Rlist_sum l + Rlist_sum l'.
Proof.
  induction l as [ | a l IH]; simpl; [lra | ]. rewrite IH. lra.
Qed.

Lemma Rlist_sum_Permutation (l l' : list R) :
  Permutation l l' -> Rlist_sum l = Rlist_sum l'.
Proof.
  induction 1; simpl; lra.
Qed.

Lemma rsum_seq (n : nat) (f : nat -> R) :
  rsum n f = Rlist_sum (map f (seq 0 n)).
Proof.
  induction n as [ | n IH]; simpl rsum; [reflexivity | ].
  rewrite seq_S, map_app, Rlist_sum_app, IH. simpl. lra.
Qed.

Lemma rsum_ext (n : nat) (f g : nat -> R) :
  (forall l, (l < n)%nat -> f l = g l) -> rsum n f = rsum n g.
Proof.
  induction n as [ | n IH]; intros H; simpl; [reflexivity | ].
  rewrite IH, H; auto.
Qed.

Lemma map_nth_seq (p : list nat) :
  map (fun i => nth i p O) (seq 0 (List.length p)) = p.
Proof.
  apply (nth_ext _ _ (nth O p O) O).
  - rewrite length_map, length_seq. reflexivity.
  - intros n Hn. rewrite length_map, length_seq in Hn.
    change (nth O p O) with ((fun i => nth i p O) O).
    rewrite map_nth, seq_nth by assumption. reflexivity.
Qed.

Lemma is_permutation_Permutation (p : list nat) (n : nat) :
  is_permutation p n = true -> List.length p = n /\ Permutation p (seq 0 n).
Proof.
  unfold is_permutation. intros H. apply andb_true_iff in H. destruct H as [Hl Hs].
  apply Nat.eqb_eq in Hl. split; [assumption | ].
  symmetry. apply NoDup_Permutation_bis.
  - apply seq_NoDup.
  - rewrite length_seq. lia.
  - intros i Hi. rewrite forallb_forall in Hs. specialize (Hs i Hi).
    apply existsb_exists in Hs. destruct Hs as [j [Hj Heq]].
    apply Nat.eqb_eq in Heq. subst. assumption.
Qed.

Lemma rsum_perm (p : list nat) (n : nat) (f : nat -> R) :
  is_permutation p n = true ->
  rsum n (fun l => f (nth l p O)) = rsum n f.
Proof.
  intros H. apply is_permutation_Permutation in H. destruct H as [Hl Hp].
  rewrite !rsum_seq.
  rewrite <- (map_map (fun l => nth l p O) f).
  rewrite <- Hl at 1. rewrite map_nth_seq.
  apply Rlist_sum_Permutation, Permutation_map. assumption.
Qed.

Lemma bidx_lt (n i : nat) : (i < n)%nat -> bidx n i = i.
Proof.
  unfold bidx. intros H. destruct (Nat.eqb_spec n 1); [lia | reflexivity].
Qed.

Lemma SelfAttention_forward_Ok (h : nat) (sa : SelfAttention) (x : tensor3) :
  d2 x = h ->
  exists y,
    SelfAttention_forward h sa x = Ok y /\
    d0 y = d0 x /\ d1 y = d1 x /\ d2 y = h /\
    forall b i j, (b < d0 x)%nat ->
                  at3 y b i j = attend h (query sa) x b i j.
Proof.
  intros H. unfold SelfAttention_forward.
  rewrite (Linear_forward_Ok _ _ _ _ H). simpl.
  unfold matmul. simpl. rewrite broadcast_dim_same, Nat.eqb_refl. simpl.
  rewrite broadcast_dim_same, Nat.eqb_refl. simpl.
  eexists. split; [reflexivity | ]. simpl.
  split; [reflexivity | split; [reflexivity | split; [reflexivity | ]]].
  intros b i j Hb. rewrite !(bidx_lt _ _ Hb). reflexivity.
Qed.

Lemma SelfAttention_forward_Raise (h : nat) (sa : SelfAttention) (x : tensor3) :
  d2 x <> h -> SelfAttention_forward h sa x = Raise TorchError.
Proof.
  intros H. unfold SelfAttention_forward.
  rewrite (Linear_forward_Raise _ _ _ _ H). reflexivity.
Qed.

Lemma attend_index_select1 (h : nat) (L : Linear) (x : tensor3) (p : list nat)
      (b i j : nat) :
  is_permutation p (d1 x) = true ->
  attend h L (index_select1 p x) b i j = attend h L x b (nth i p O) j.
Proof.
  intros Hp. destruct (is_permutation_Permutation _ _ Hp) as [Hl _].
  change (attend h L (index_select1 p x) b i j)
    with (rsum (List.length p)
            (fun l => exp (score h L x b (nth i p O) (nth l p O))
                      / rsum (List.length p)
                          (fun k => exp (score h L x b (nth i p O) (nth k p O)))
                      * lin h L x b (nth l p O) j)).
  unfold attend. rewrite Hl.
  rewrite (rsum_perm p (d1 x)
             (fun k => exp (score h L x b (nth i p O) k)) Hp).
  exact (rsum_perm p (d1 x)
           (fun l => exp (score h L x b (nth i p O) l)
                     / rsum (d1 x) (fun k => exp (score h L x b (nth i p O) k))
                     * lin h L x b l j) Hp).
Qed.

(** C7. Rearranging the particles of the input by a permutation of the
    particle axis rearranges the particles of the output of
    [SelfAttention.forward] in the same way (and an input that is refused is
    refused either way). *)
Theorem SelfAttention_forward_permutation_covariant :
  forall (h : nat) (sa : SelfAttention) (x : tensor3) (p : list nat),
    is_permutation p (d1 x) = true ->
    req3 (SelfAttention_forward h sa (index_select1 p x))
         (y <- SelfAttention_forward h sa x ;; Ok (index_select1 p y)).
Proof.
  intros h sa x p Hp.
  destruct (Nat.eq_dec (d2 x) h) as [Hd | Hd].
  - destruct (SelfAttention_forward_Ok h sa x Hd) as [y (Hy & Y0 & Y1 & Y2 & Yat)].
    destruct (SelfAttention_forward_Ok h sa (index_select1 p x) Hd)
      as [y' (Hy' & Y0' & Y1' & Y2' & Yat')].
    rewrite Hy, Hy'. simpl.
    unfold teq3. simpl in *.
    repeat split; try congruence.
    intros b i k Hb Hi Hk.
    rewrite Yat' by congruence. rewrite Yat by congruence.
    apply attend_index_select1. assumption.
  - rewrite !SelfAttention_forward_Raise by assumption. reflexivity.
Qed.

(** The two particles of [enc_124] exchanged. *)
Lemma SelfAttention_forward_permutation_covariant_witness :
  req3 (SelfAttention_forward 4 eye_attention (index_select1 [1; 0]%nat enc_124))
       (y <- SelfAttention_forward 4 eye_attention enc_124 ;;
        Ok (index_select1 [1; 0]%nat y)).
Proof.
  apply (SelfAttention_forward_permutation_covariant 4 eye_attention enc_124
           [1; 0]%nat).
  reflexivity.
Defined.

(** ** C4: projection *)

Lemma zip3_Ok (f : R -> R -> R) (x y : tensor3) (n0 n1 n2 : nat) :
  broadcast_dim (d0 x) (d0 y) = Ok n0 ->
  broadcast_dim (d1 x) (d1 y) = Ok n1 ->
  broadcast_dim (d2 x) (d2 y) = Ok n2 ->
  zip3 f x y =
  Ok (mkT3 n0 n1 n2
        (fun b i k => f (at3 x (bidx (d0 x) b) (bidx (d1 x) i) (bidx (d2 x) k))
                        (at3 y (bidx (d0 y) b) (bidx (d1 y) i) (bidx (d2 y) k)))).
Proof.
  intros H0 H1 H2. unfold zip3. rewrite H0, H1, H2. reflexivity.
Qed.

Lemma LayerNorm_forward_Ok (h : nat) (ln : LayerNorm) (x : tensor3) :
  d2 x = h ->
  exists y, LayerNorm_forward h ln x = Ok y /\
            d0 y = d0 x /\ d1 y = d1 x /\ d2 y = h.
Proof.
  intros H. unfold LayerNorm_forward.
  rewrite (zip3_Ok Rminus x (mean_last x) (d0 x) (d1 x) (d2 x))
    by (simpl; auto using broadcast_dim_same, broadcast_dim_1_r).
  simpl.
  match goal with
  | |- context [zip3 Rdiv ?a ?b] =>
      rewrite (zip3_Ok Rdiv a b (d0 x) (d1 x) (d2 x))
        by (simpl; auto using broadcast_dim_same, broadcast_dim_1_r)
  end.
  simpl.
  match goal with
  | |- context [zip3 Rmult ?a ?b] =>
      rewrite (zip3_Ok Rmult a b (d0 x) (d1 x) h)
        by (simpl; rewrite ?H; auto using broadcast_dim_same, broadcast_dim_1_l)
  end.
  simpl.
  match goal with
  | |- context [zip3 Rplus ?a ?b] =>
      rewrite (zip3_Ok Rplus a b (d0 x) (d1 x) h)
        by (simpl; auto using broadcast_dim_same, broadcast_dim_1_r)
  end.
  eexists. split; [reflexivity | ]. simpl. auto.
Qed.

Lemma Embedding_forward_Ok (n dim : nat) (E : Embedding) (ids : list Z) :
  (0 < List.length ids)%nat ->
  forallb (fun z => (0 <=? z)%Z && (z <? Z.of_nat n)%Z) ids = true ->
  Embedding_forward n dim E ids =
  Ok (mkT2 (List.length ids) dim
        (fun b k => emb_weight E (Z.to_nat (nth b ids 0%Z)) k)).
Proof.
  intros Hl Hr. unfold Embedding_forward. rewrite Hr.
  destruct (Nat.eqb_spec (List.length ids) 0); [lia | ]. reflexivity.
Qed.

Lemma bind_Ok {A B : Type} (a : A) (k : A -> result B) : bind (Ok a) k = k a.
Proof. reflexivity. Qed.

Ltac zip3_step n0 n1 n2 :=
  match goal with
  | |- context [zip3 ?f ?a ?b] =>
      rewrite (zip3_Ok f a b n0 n1 n2)
        by (simpl; auto using broadcast_dim_same, broadcast_dim_1_r, broadcast_dim_1_l);
      rewrite bind_Ok
  end.

Ltac linear_step :=
  match goal with
  | |- context [Linear_forward ?i ?o ?L ?x] =>
      rewrite (Linear_forward_Ok i o L x) by reflexivity;
      rewrite bind_Ok
  end.

Ltac eq_struct :=
  match goal with
  | |- ?x = ?x => reflexivity
  | |- rsum _ _ = rsum _ _ =>
      apply rsum_ext; intros; rewrite ?bidx_lt by assumption; eq_struct
  | |- _ = _ => progress f_equal; eq_struct
  end.

Lemma projection_gru_step (m : Q2P) (ids : list Z) (h : tensor3) :
  (0 < List.length ids)%nat ->
  forallb (fun z => (0 <=? z)%Z && (z <? Z.of_nat (num_relations m))%Z) ids = true ->
  d0 h = List.length ids ->
  d2 h = embedding_size m ->
  exists g,
    projection m (Ids ids) h =
      (n1 <- LayerNorm_forward (embedding_size m) (projection_layer_norm_1 m) g ;;
       a <- SelfAttention_forward (embedding_size m) (projection_self_attn m) n1 ;;
       LayerNorm_forward (embedding_size m) (projection_layer_norm_2 m) a) /\
    d0 g = d0 h /\ d1 g = d1 h /\ d2 g = embedding_size m /\
    forall b p k, (b < d0 h)%nat -> (p < d1 h)%nat -> (k < embedding_size m)%nat ->
                  at3 g b p k = gru_update m ids h b p k.
Proof.
  intros Hl Hr H0 H2.
  destruct h as [B N D hf]. simpl in H0, H2. subst B D.
  unfold projection, dropout.
  cbn [torch_tensor]. rewrite bind_Ok.
  rewrite (Embedding_forward_Ok _ _ _ _ Hl Hr), bind_Ok.
  linear_step. linear_step.
  zip3_step (List.length ids) N (embedding_size m).
  linear_step. linear_step.
  zip3_step (List.length ids) N (embedding_size m).
  linear_step.
  zip3_step (List.length ids) N (embedding_size m).
  linear_step.
  zip3_step (List.length ids) N (embedding_size m).
  zip3_step (List.length ids) N (embedding_size m).
  zip3_step (List.length ids) N (embedding_size m).
  zip3_step (List.length ids) N (embedding_size m).
  eexists. split; [reflexivity | ].
  cbn [d0 d1 d2 at3].
  split; [reflexivity | split; [reflexivity | split; [reflexivity | ]]].
  intros b p k Hb Hp Hk.
  cbn [at3 d0 d1 d2 at2 rows cols map3 unsqueeze1].
  rewrite !(bidx_lt _ _ Hb), !(bidx_lt _ _ Hp), !(bidx_lt _ _ Hk).
  unfold gru_update, candidate, gate_z, gate_r, linear_vec, rel_vec.
  cbn [at3].
  eq_struct.
Qed.

(** C4. For relation ids inside the relation table, one per batch element,
    and a particle set [h] of the embedding dimension, [projection] computes
    the gated update [(1 - z) * h + z * h_hat] of [gru_update] (relation
    embedding broadcast over the particle slots, [z] and [r] the sigmoid
    gates, [h_hat] the tanh candidate on the reset-gated particles), then
    applies the first layer norm, one self-attention pass and the second layer
    norm; it returns a particle set with the batch size and the particle count
    of [h]. *)
Theorem projection_is_gru_then_attention :
  forall (m : Q2P) (ids : list Z) (h : tensor3),
    (0 < List.length ids)%nat ->
    forallb (fun z => (0 <=? z)%Z && (z <? Z.of_nat (num_relations m))%Z) ids = true ->
    d0 h = List.length ids ->
    d2 h = embedding_size m ->
    exists g out,
      (d0 g = d0 h /\ d1 g = d1 h /\ d2 g = embedding_size m /\
       forall b p k,
         (b < d0 h)%nat -> (p < d1 h)%nat -> (k < embedding_size m)%nat ->
         at3 g b p k = gru_update m ids h b p k) /\
      projection m (Ids ids) h =
        (LayerNorm_forward (embedding_size m) (projection_layer_norm_1 m) >=>
         SelfAttention_forward (embedding_size m) (projection_self_attn m) >=>
         LayerNorm_forward (embedding_size m) (projection_layer_norm_2 m)) g /\
      projection m (Ids ids) h = Ok out /\
      d0 out = d0 h /\ d1 out = d1 h /\ d2 out = embedding_size m.
Proof.
  intros m ids h Hl Hr H0 H2.
  destruct (projection_gru_step m ids h Hl Hr H0 H2)
    as [g (Hproj & G0 & G1 & G2 & Gat)].
  destruct (LayerNorm_forward_Ok (embedding_size m) (projection_layer_norm_1 m) g G2)
    as [n1 (Hn1 & N0 & N1 & N2)].
  destruct (SelfAttention_forward_Ok (embedding_size m) (projection_self_attn m) n1 N2)
    as [a (Ha & A0 & A1 & A2 & _)].
  destruct (LayerNorm_forward_Ok (embedding_size m) (projection_layer_norm_2 m) a A2)
    as [out (Hout & O0 & O1 & O2)].
  exists g, out.
  split; [auto | ].
  split; [ | split; [ | repeat split; congruence]].
  - rewrite Hproj. unfold kcomp. rewrite Hn1. simpl. rewrite Ha. reflexivity.
  - rewrite Hproj, Hn1. simpl. rewrite Ha. simpl. exact Hout.
Qed.

Lemma projection_is_gru_then_attention_witness :
  exists out, projection q2p_small (Ids [5%Z]) enc_124 = Ok out /\
              d0 out = 1%nat /\ d1 out = 2%nat /\ d2 out = 4%nat.
Proof.
  destruct (projection_is_gru_then_attention q2p_small [5%Z] enc_124)
    as [g [out (_ & _ & Hout & O0 & O1 & O2)]].
  - simpl. lia.
  - reflexivity.
  - reflexivity.
  - reflexivity.
  - exists out. auto.
Defined.

(** * Further properties of the layers and of the interpreter *)

(** ** Sums *)


Lemma rsum_scal (n : nat) (c : R) (f : nat -> R) :
  rsum n (fun k => c * f k) = c * rsum n f.
Proof. induction n as [ | n IH]; simpl; [lra | rewrite IH; lra]. Qed.


Lemma rsum_le (n : nat) (f g : nat -> R) :
  (forall k, (k < n)%nat -> f k <= g k) -> rsum n f <= rsum n g.
Proof.
  induction n as [ | n IH]; intros H; simpl; [lra | ].
  assert (rsum n f <= rsum n g) by (apply IH; intros; apply H; lia).
  assert (f n <= g n) by (apply H; lia). lra.
Qed.

Lemma rsum_pos (n : nat) (f : nat -> R) :
  (0 < n)%nat -> (forall k, (k < n)%nat -> 0 < f k) -> 0 < rsum n f.
Proof.
  induction n as [ | n IH]; intros Hn H; [lia | ]. simpl.
  assert (0 < f n) by (apply H; lia).
  destruct n as [ | n']; [simpl; lra | ].
  assert (0 < rsum (S n') f) by (apply IH; [lia | intros; apply H; lia]). lra.
Qed.

Lemma vmean_ext (n : nat) (v v' : nat -> R) :
  (forall l, (l < n)%nat -> v l = v' l) -> vmean n v = vmean n v'.
Proof. intros H. unfold vmean. rewrite (rsum_ext n v v' H). reflexivity. Qed.

Lemma vvar_ext (n : nat) (v v' : nat -> R) :
  (forall l, (l < n)%nat -> v l = v' l) -> vvar n v = vvar n v'.
Proof.
  intros H. unfold vvar. rewrite (vmean_ext n v v' H).
  rewrite (rsum_ext n (fun k => (v k - vmean n v') ^ 2)
                      (fun k => (v' k - vmean n v') ^ 2)); [reflexivity | ].
  intros l Hl. rewrite (H l Hl). reflexivity.
Qed.

Lemma linear_vec_ext (n : nat) (L : Linear) (v v' : nat -> R) (o : nat) :
  (forall l, (l < n)%nat -> v l = v' l) -> linear_vec n L v o = linear_vec n L v' o.
Proof.
  intros H. unfold linear_vec. f_equal. apply rsum_ext.
  intros l Hl. rewrite (H l Hl). reflexivity.
Qed.

(** ** Each layer on one particle *)

Lemma LayerNorm_forward_at (h : nat) (ln : LayerNorm) (x : tensor3) :
  d2 x = h ->
  exists y,
    LayerNorm_forward h ln x = Ok y /\
    d0 y = d0 x /\ d1 y = d1 x /\ d2 y = h /\
    forall b i k, (b < d0 x)%nat -> (i < d1 x)%nat -> (k < h)%nat ->
                  at3 y b i k = layer_norm_vec h ln (at3 x b i) k.
Proof.
  intros H. destruct x as [B N D f]. simpl in H. subst D.
  unfold LayerNorm_forward.
  zip3_step B N h. cbv zeta. rewrite bind_Ok.
  zip3_step B N h. zip3_step B N h.
  match goal with
  | |- context [zip3 ?f ?a ?b] =>
      rewrite (zip3_Ok f a b B N h)
        by (simpl; auto using broadcast_dim_same, broadcast_dim_1_r, broadcast_dim_1_l)
  end.
  eexists. split; [reflexivity | ].
  cbn [d0 d1 d2 at3].
  split; [reflexivity | split; [reflexivity | split; [reflexivity | ]]].
  intros b i k Hb Hi Hk.
  cbn [at3 d0 d1 d2 map3 mean_last vec3 bidx Nat.eqb].
  rewrite !(bidx_lt _ _ Hb), !(bidx_lt _ _ Hi), !(bidx_lt _ _ Hk).
  unfold layer_norm_vec, vvar, vmean.
  eq_struct.
Qed.

Lemma ffn_residual_at (h : nat) (ffn : FFN) (x : tensor3) :
  d2 x = h ->
  exists y,
    ffn_residual h ffn x = Ok y /\
    d0 y = d0 x /\ d1 y = d1 x /\ d2 y = h /\
    forall b i k, (b < d0 x)%nat -> (i < d1 x)%nat -> (k < h)%nat ->
                  at3 y b i k = ffn_residual_vec h ffn (at3 x b i) k.
Proof.
  intros H. destruct x as [B N D f]. simpl in H. subst D.
  unfold ffn_residual, FFN_forward, dropout.
  linear_step. linear_step.
  match goal with
  | |- context [zip3 ?f ?a ?b] =>
      rewrite (zip3_Ok f a b B N h)
        by (simpl; auto using broadcast_dim_same)
  end.
  eexists. split; [reflexivity | ].
  cbn [d0 d1 d2 at3].
  split; [reflexivity | split; [reflexivity | split; [reflexivity | ]]].
  intros b i k Hb Hi Hk.
  cbn [at3 d0 d1 d2 map3].
  rewrite !(bidx_lt _ _ Hb), !(bidx_lt _ _ Hi), !(bidx_lt _ _ Hk).
  unfold ffn_residual_vec, linear_vec. reflexivity.
Qed.

Lemma layer_norm_vec_ext (h : nat) (ln : LayerNorm) :
  vec_ext h (fun _ => layer_norm_vec h ln).
Proof.
  intros b v v' k H Hk. unfold layer_norm_vec.
  rewrite (vmean_ext h v v' H), (vvar_ext h v v' H), (H k Hk). reflexivity.
Qed.

Lemma ffn_residual_vec_ext (h : nat) (ffn : FFN) :
  vec_ext h (fun _ => ffn_residual_vec h ffn).
Proof.
  intros b v v' k H Hk. unfold ffn_residual_vec.
  rewrite (H k Hk). f_equal.
  apply linear_vec_ext. intros l Hl.
  rewrite (linear_vec_ext h (linear1 ffn) v v' l H). reflexivity.
Qed.

Lemma gru_vec_ext (m : Q2P) (ids : list Z) :
  vec_ext (embedding_size m) (gru_vec m ids).
Proof.
  intros b v v' k H Hk. unfold gru_vec. cbv zeta.
  rewrite (H k Hk).
  rewrite (linear_vec_ext _ (projection_Uz m) v v' k H).
  rewrite (linear_vec_ext _ (projection_Uh m)
             (fun l => v l * sigmoid (linear_vec (embedding_size m) (projection_Wr m)
                                        (rel_vec m ids b) l
                                      + linear_vec (embedding_size m) (projection_Ur m) v l))
             (fun l => v' l * sigmoid (linear_vec (embedding_size m) (projection_Wr m)
                                         (rel_vec m ids b) l
                                       + linear_vec (embedding_size m) (projection_Ur m) v' l))
             k).
  - reflexivity.
  - intros l Hl. rewrite (H l Hl).
    rewrite (linear_vec_ext _ (projection_Ur m) v v' l H). reflexivity.
Qed.

Lemma LayerNorm_particlewise (B h : nat) (ln : LayerNorm) :
  particlewise B h (fun _ => layer_norm_vec h ln) (LayerNorm_forward h ln).
Proof.
  intros x H0 H2.
  destruct (LayerNorm_forward_at h ln x H2) as [y (Hy & Y0 & Y1 & Y2 & Yat)].
  exists y. repeat split; try congruence.
  intros b i k Hb Hi Hk. apply Yat; congruence.
Qed.

Lemma ffn_residual_particlewise (B h : nat) (ffn : FFN) :
  particlewise B h (fun _ => ffn_residual_vec h ffn) (ffn_residual h ffn).
Proof.
  intros x H0 H2.
  destruct (ffn_residual_at h ffn x H2) as [y (Hy & Y0 & Y1 & Y2 & Yat)].
  exists y. repeat split; try congruence.
  intros b i k Hb Hi Hk. apply Yat; congruence.
Qed.

(** ** Rearrangements of the particles *)

Lemma teq3_refl (x : tensor3) : teq3 x x.
Proof. unfold teq3. auto. Qed.

Lemma teq3_sym (x y : tensor3) : teq3 x y -> teq3 y x.
Proof.
  unfold teq3. intros (H0 & H1 & H2 & H). repeat split; try congruence.
  intros b i k Hb Hi Hk. symmetry. apply H; congruence.
Qed.

Lemma teq3_trans (x y z : tensor3) : teq3 x y -> teq3 y z -> teq3 x z.
Proof.
  unfold teq3. intros (H0 & H1 & H2 & H) (G0 & G1 & G2 & G).
  repeat split; try congruence.
  intros b i k Hb Hi Hk. rewrite H by assumption. apply G; congruence.
Qed.

Lemma is_permutation_nth_lt (p : list nat) (n i : nat) :
  is_permutation p n = true -> (i < n)%nat -> (nth i p O < n)%nat.
Proof.
  intros Hp Hi. destruct (is_permutation_Permutation p n Hp) as [Hl HP].
  assert (Hin : In (nth i p O) p) by (apply nth_In; lia).
  apply (Permutation_in _ HP) in Hin. apply in_seq in Hin. lia.
Qed.

Lemma is_permutation_onto (p : list nat) (n j : nat) :
  is_permutation p n = true -> (j < n)%nat ->
  exists i, (i < n)%nat /\ nth i p O = j.
Proof.
  intros Hp Hj. destruct (is_permutation_Permutation p n Hp) as [Hl HP].
  assert (Hin : In j p).
  { apply (Permutation_in _ (Permutation_sym HP)). apply in_seq. lia. }
  destruct (In_nth p j O Hin) as [i [Hi Hnth]].
  exists i. split; [lia | assumption].
Qed.

Lemma is_permutation_seq (n : nat) : is_permutation (seq 0 n) n = true.
Proof.
  unfold is_permutation. rewrite length_seq, Nat.eqb_refl. simpl.
  apply forallb_forall. intros i Hi. apply existsb_exists.
  exists i. split; [assumption | apply Nat.eqb_refl].
Qed.

Lemma index_select1_seq (x : tensor3) : teq3 x (index_select1 (seq 0 (d1 x)) x).
Proof.
  unfold teq3. simpl. rewrite length_seq. repeat split.
  intros b i k Hb Hi Hk. rewrite seq_nth by assumption. reflexivity.
Qed.

Lemma particlewise_covariant (B E : nat) (G : nat -> (nat -> R) -> nat -> R)
      (f : tensor3 -> result tensor3) :
  particlewise B E G f -> vec_ext E G -> covariant_on B E f.
Proof.
  intros Hf HG p x x' H0 H2 Hp (X0 & X1 & X2 & Xat). simpl in X0, X1, X2.
  destruct (is_permutation_Permutation _ _ Hp) as [Hl _].
  destruct (Hf x H0 H2) as [y (Hy & Y0 & Y1 & Y2 & Yat)].
  destruct (Hf x' ltac:(congruence) ltac:(congruence))
    as [y' (Hy' & Y0' & Y1' & Y2' & Yat')].
  exists y, y'.
  split; [exact Hy | split; [exact Hy' | ]].
  split; [exact Y0 | split; [exact Y1 | split; [exact Y2 | ]]].
  unfold teq3. simpl.
  split; [congruence | split; [congruence | split; [congruence | ]]].
  intros b i k Hb Hi Hk.
  rewrite Yat' by congruence.
  rewrite Yat; [ | congruence | apply is_permutation_nth_lt; [assumption | congruence]
                 | congruence ].
  apply HG; [ | congruence].
  intros l Hl'. apply (Xat b i l); congruence.
Qed.

Lemma covariant_on_kcomp (B E : nat) (f g : tensor3 -> result tensor3) :
  covariant_on B E f -> covariant_on B E g -> covariant_on B E (f >=> g).
Proof.
  intros Hf Hg p x x' H0 H2 Hp Hx.
  destruct (Hf p x x' H0 H2 Hp Hx) as [y [y' (Hy & Hy' & Y0 & Y1 & Y2 & Yeq)]].
  rewrite <- Y1 in Hp.
  destruct (Hg p y y' Y0 Y2 Hp Yeq) as [z [z' (Hz & Hz' & Z0 & Z1 & Z2 & Zeq)]].
  exists z, z'. unfold kcomp. rewrite Hy, Hy'. simpl.
  split; [exact Hz | split; [exact Hz' | ]].
  split; [exact Z0 | split; [congruence | split; [exact Z2 | exact Zeq]]].
Qed.

Lemma covariant_on_succeeds (B E : nat) (f : tensor3 -> result tensor3) (x : tensor3) :
  covariant_on B E f -> d0 x = B -> d2 x = E ->
  exists y, f x = Ok y /\ d0 y = B /\ d1 y = d1 x /\ d2 y = E.
Proof.
  intros Hf H0 H2.
  destruct (Hf (seq 0 (d1 x)) x x H0 H2 (is_permutation_seq _) (index_select1_seq x))
    as [y [y' (Hy & _ & Y0 & Y1 & Y2 & _)]].
  exists y. auto.
Qed.

Lemma lin_ext (h : nat) (L : Linear) (x x' : tensor3) (b i o : nat) :
  teq3 x x' -> d2 x = h -> (b < d0 x)%nat -> (i < d1 x)%nat ->
  lin h L x b i o = lin h L x' b i o.
Proof.
  intros (_ & _ & _ & Hat) H2 Hb Hi. unfold lin. f_equal.
  apply rsum_ext. intros l Hl. rewrite Hat by congruence. reflexivity.
Qed.

Lemma score_ext (h : nat) (L : Linear) (x x' : tensor3) (b i l : nat) :
  teq3 x x' -> d2 x = h -> (b < d0 x)%nat -> (i < d1 x)%nat -> (l < d1 x)%nat ->
  score h L x b i l = score h L x' b i l.
Proof.
  intros Hx H2 Hb Hi Hl. unfold score. f_equal.
  apply rsum_ext. intros c Hc.
  rewrite (lin_ext h L x x' b i c), (lin_ext h L x x' b l c) by assumption.
  reflexivity.
Qed.

Lemma attend_ext (h : nat) (L : Linear) (x x' : tensor3) (b i j : nat) :
  teq3 x x' -> d2 x = h -> (b < d0 x)%nat -> (i < d1 x)%nat ->
  attend h L x b i j = attend h L x' b i j.
Proof.
  intros Hx H2 Hb Hi. unfold attend.
  assert (H1 : d1 x' = d1 x) by (destruct Hx as (_ & ? & _); congruence).
  rewrite H1.
  assert (HD : rsum (d1 x) (fun k => exp (score h L x b i k)) =
               rsum (d1 x) (fun k => exp (score h L x' b i k))).
  { apply rsum_ext. intros k Hk.
    rewrite (score_ext h L x x' b i k) by assumption. reflexivity. }
  rewrite HD.
  apply rsum_ext. intros l Hl.
  rewrite (score_ext h L x x' b i l), (lin_ext h L x x' b l j) by assumption.
  reflexivity.
Qed.

Lemma SelfAttention_covariant (B h : nat) (sa : SelfAttention) :
  covariant_on B h (SelfAttention_forward h sa).
Proof.
  intros p x x' H0 H2 Hp Hx.
  pose proof Hx as (X0 & X1 & X2 & _). simpl in X0, X1, X2.
  destruct (is_permutation_Permutation _ _ Hp) as [Hl _].
  destruct (SelfAttention_forward_Ok h sa x H2) as [y (Hy & Y0 & Y1 & Y2 & Yat)].
  destruct (SelfAttention_forward_Ok h sa x' ltac:(congruence))
    as [y' (Hy' & Y0' & Y1' & Y2' & Yat')].
  exists y, y'.
  split; [exact Hy | split; [exact Hy' | ]].
  split; [congruence | split; [exact Y1 | split; [exact Y2 | ]]].
  unfold teq3. simpl.
  split; [congruence | split; [congruence | split; [congruence | ]]].
  intros b i k Hb Hi Hk.
  rewrite Yat' by congruence.
  rewrite Yat by congruence.
  rewrite (attend_ext h (query sa) x' (index_select1 p x) b i k Hx)
    by congruence.
  apply attend_index_select1. assumption.
Qed.

Lemma LayerNorm_covariant (B h : nat) (ln : LayerNorm) :
  covariant_on B h (LayerNorm_forward h ln).
Proof.
  eapply particlewise_covariant;
    [apply LayerNorm_particlewise | apply layer_norm_vec_ext].
Qed.

Lemma ffn_residual_covariant (B h : nat) (ffn : FFN) :
  covariant_on B h (ffn_residual h ffn).
Proof.
  eapply particlewise_covariant;
    [apply ffn_residual_particlewise | apply ffn_residual_vec_ext].
Qed.

Lemma two_rounds_covariant (B E : nat) (attn : SelfAttention) (ffn : FFN)
      (ln1 ln2 ln3 ln4 : LayerNorm) :
  covariant_on B E (two_rounds E attn ffn ln1 ln2 ln3 ln4).
Proof.
  unfold two_rounds.
  repeat apply covariant_on_kcomp;
    auto using SelfAttention_covariant, LayerNorm_covariant, ffn_residual_covariant.
Qed.

Lemma covariant_on_ext (B E : nat) (f g : tensor3 -> result tensor3) :
  (forall x, f x = g x) -> covariant_on B E g -> covariant_on B E f.
Proof.
  intros Hfg Hg p x x' H0 H2 Hp Hx. rewrite !Hfg. apply Hg; assumption.
Qed.

Lemma negation_covariant (m : Q2P) (B : nat) :
  covariant_on B (embedding_size m) (negation m).
Proof.
  eapply covariant_on_ext; [apply negation_two_rounds | apply two_rounds_covariant].
Qed.

Lemma gru_update_gru_vec (m : Q2P) (ids : list Z) (h : tensor3) (b p k : nat) :
  gru_update m ids h b p k = gru_vec m ids b (at3 h b p) k.
Proof. reflexivity. Qed.

Lemma projection_covariant (m : Q2P) (ids : list Z) :
  (0 < List.length ids)%nat ->
  forallb (fun z => (0 <=? z)%Z && (z <? Z.of_nat (num_relations m))%Z) ids = true ->
  covariant_on (List.length ids) (embedding_size m) (projection m (Ids ids)).
Proof.
  intros Hl Hr p x x' H0 H2 Hp Hx.
  pose proof Hx as (X0 & X1 & X2 & Xat). simpl in X0, X1, X2.
  destruct (is_permutation_Permutation _ _ Hp) as [Hlen _].
  destruct (projection_gru_step m ids x Hl Hr H0 H2)
    as [g (Hproj & G0 & G1 & G2 & Gat)].
  destruct (projection_gru_step m ids x' Hl Hr ltac:(congruence) ltac:(congruence))
    as [g' (Hproj' & G0' & G1' & G2' & Gat')].
  assert (Hg : teq3 g' (index_select1 p g)).
  { unfold teq3. simpl.
    split; [congruence | split; [congruence | split; [congruence | ]]].
    intros b i k Hb Hi Hk.
    rewrite Gat' by congruence.
    rewrite Gat; [ | congruence | apply is_permutation_nth_lt; congruence | congruence].
    rewrite !gru_update_gru_vec.
    apply gru_vec_ext; [ | congruence].
    intros l Hl'. apply (Xat b i l); congruence. }
  assert (Hk : covariant_on (List.length ids) (embedding_size m)
                 (LayerNorm_forward (embedding_size m) (projection_layer_norm_1 m) >=>
                  SelfAttention_forward (embedding_size m) (projection_self_attn m) >=>
                  LayerNorm_forward (embedding_size m) (projection_layer_norm_2 m))).
  { repeat apply covariant_on_kcomp;
      auto using SelfAttention_covariant, LayerNorm_covariant. }
  rewrite <- G1 in Hp.
  destruct (Hk p g g' ltac:(congruence) G2 Hp Hg)
    as [y [y' (Hy & Hy' & Y0 & Y1 & Y2 & Yeq)]].
  exists y, y'.
  assert (Hunf : forall t,
             (n1 <- LayerNorm_forward (embedding_size m) (projection_layer_norm_1 m) t ;;
              a <- SelfAttention_forward (embedding_size m) (projection_self_attn m) n1 ;;
              LayerNorm_forward (embedding_size m) (projection_layer_norm_2 m) a) =
             (LayerNorm_forward (embedding_size m) (projection_layer_norm_1 m) >=>
              SelfAttention_forward (embedding_size m) (projection_self_attn m) >=>
              LayerNorm_forward (embedding_size m) (projection_layer_norm_2 m)) t).
  { intros t. unfold kcomp.
    destruct (LayerNorm_forward _ (projection_layer_norm_1 m) t); reflexivity. }
  rewrite Hproj, Hproj', !Hunf.
  split; [exact Hy | split; [exact Hy' | ]].
  split; [exact Y0 | split; [congruence | split; [exact Y2 | exact Yeq]]].
Qed.

Lemma higher_projection_unfold (m : Q2P) (rel : structured_query) (x : tensor3) :
  higher_projection m rel x =
  (SelfAttention_forward (embedding_size m) (high_projection_attn m) >=>
   LayerNorm_forward (embedding_size m) (high_projection_layer_norm_1 m) >=>
   ffn_residual (embedding_size m) (high_projection_ffn m) >=>
   LayerNorm_forward (embedding_size m) (high_projection_layer_norm_2 m) >=>
   projection m rel) x.
Proof.
  unfold higher_projection, kcomp, ffn_residual.
  repeat match goal with
         | |- bind ?r _ = _ => destruct r; simpl; [ | reflexivity]
         end.
  reflexivity.
Qed.

Lemma higher_projection_covariant (m : Q2P) (ids : list Z) :
  (0 < List.length ids)%nat ->
  forallb (fun z => (0 <=? z)%Z && (z <? Z.of_nat (num_relations m))%Z) ids = true ->
  covariant_on (List.length ids) (embedding_size m) (higher_projection m (Ids ids)).
Proof.
  intros Hl Hr.
  eapply covariant_on_ext; [apply higher_projection_unfold | ].
  repeat apply covariant_on_kcomp;
    auto using SelfAttention_covariant, LayerNorm_covariant, ffn_residual_covariant,
               projection_covariant.
Qed.

(** ** Maxima and scoring *)

Lemma rmax_to_ext (n : nat) (f g : nat -> R) :
  (forall p, (p <= n)%nat -> f p = g p) -> rmax_to n f = rmax_to n g.
Proof.
  induction n as [ | n IH]; intros H; simpl.
  - apply H. lia.
  - rewrite IH by (intros; apply H; lia). rewrite (H (S n)) by lia. reflexivity.
Qed.

Lemma rmax_to_perm (p : list nat) (n : nat) (f : nat -> R) :
  is_permutation p (S n) = true ->
  rmax_to n (fun i => f (nth i p O)) = rmax_to n f.
Proof.
  intros Hp. apply Rle_antisym.
  - destruct (rmax_to_attained n (fun i => f (nth i p O))) as [i [Hi ->]].
    apply rmax_to_ge.
    pose proof (is_permutation_nth_lt p (S n) i Hp ltac:(lia)). lia.
  - destruct (rmax_to_attained n f) as [j [Hj ->]].
    destruct (is_permutation_onto p (S n) j Hp ltac:(lia)) as [i [Hi <-]].
    apply (rmax_to_ge n (fun i => f (nth i p O)) i). lia.
Qed.

Lemma rmax_to_S (n : nat) (f : nat -> R) :
  rmax_to (S n) f = Rmax (rmax_to n f) (f (S n)).
Proof. reflexivity. Qed.

Lemma rmax_to_cat (n1 n2 : nat) (f g : nat -> R) :
  rmax_to (S n1 + n2) (fun i => if (i <? S n1)%nat then f i else g (i - S n1)%nat) =
  Rmax (rmax_to n1 f) (rmax_to n2 g).
Proof.
  induction n2 as [ | n2 IH].
  - replace (S n1 + 0)%nat with (S n1) by lia. rewrite rmax_to_S.
    rewrite (rmax_to_ext n1 _ f).
    + destruct (Nat.ltb_spec (S n1) (S n1)); [lia | ].
      rewrite Nat.sub_diag. reflexivity.
    + intros p Hp. destruct (Nat.ltb_spec p (S n1)); [reflexivity | lia].
  - replace (S n1 + S n2)%nat with (S (S n1 + n2)) by lia.
    rewrite rmax_to_S, IH, (rmax_to_S n2 g).
    destruct (Nat.ltb_spec (S (S n1 + n2)) (S n1)); [lia | ].
    rewrite Rmax_assoc.
    replace (S (S n1 + n2) - S n1)%nat with (S n2) by lia. reflexivity.
Qed.

Lemma scoring_Ok (m : Q2P) (x : tensor3) (n : nat) :
  d2 x = embedding_size m -> d1 x = S n ->
  exists s,
    scoring m x = Ok s /\ rows s = d0 x /\ cols s = num_entities m /\
    forall b e,
      at2 s b e =
      rmax_to n (fun p => dot (embedding_size m) (at3 x b p)
                              (emb_weight (entity_embedding m) e)).
Proof.
  intros H2 H1. unfold scoring.
  rewrite (Linear_forward_Ok _ _ _ _ H2). simpl.
  unfold max1. simpl. rewrite H1.
  eexists. split; [reflexivity | ]. simpl.
  split; [reflexivity | split; [reflexivity | ]].
  intros b e. apply rmax_to_ext. intros p _.
  unfold dot, bias_at. simpl. lra.
Qed.

Lemma scoring_no_particles (m : Q2P) (x : tensor3) :
  d1 x = O -> scoring m x = Raise TorchError.
Proof.
  intros H1. unfold scoring, Linear_forward, check.
  destruct (d2 x =? embedding_size m)%nat; simpl; [ | reflexivity].
  unfold max1. simpl. rewrite H1. reflexivity.
Qed.

Lemma dot_ext (n : nat) (u u' v : nat -> R) :
  (forall l, (l < n)%nat -> u l = u' l) -> dot n u v = dot n u' v.
Proof.
  intros H. unfold dot. apply rsum_ext. intros l Hl. rewrite (H l Hl). reflexivity.
Qed.

Lemma scoring_rearranged (m : Q2P) (p : list nat) (x x' : tensor3) :
  d2 x = embedding_size m -> (0 < d1 x)%nat ->
  is_permutation p (d1 x) = true ->
  teq3 x' (index_select1 p x) ->
  exists s s', scoring m x = Ok s /\ scoring m x' = Ok s' /\ teq2 s' s.
Proof.
  intros H2 H1 Hp (X0 & X1 & X2 & Xat). simpl in X0, X1, X2.
  destruct (is_permutation_Permutation _ _ Hp) as [Hl _].
  destruct (d1 x) as [ | n] eqn:Hn; [lia | ].
  destruct (scoring_Ok m x n H2 Hn) as [s (Hs & S0 & S1 & Sat)].
  destruct (scoring_Ok m x' n ltac:(congruence) ltac:(congruence))
    as [s' (Hs' & S0' & S1' & Sat')].
  exists s, s'. split; [exact Hs | split; [exact Hs' | ]].
  unfold teq2. split; [congruence | split; [congruence | ]].
  intros b e Hb He. rewrite Sat, Sat'.
  rewrite <- (rmax_to_perm p n
                (fun i => dot (embedding_size m) (at3 x b i)
                              (emb_weight (entity_embedding m) e)) Hp).
  apply rmax_to_ext. intros i Hi. apply dot_ext.
  intros l Hl'. apply (Xat b i l); [congruence | lia | congruence].
Qed.

Lemma teq2_refl (s : tensor2) : teq2 s s.
Proof. unfold teq2. auto. Qed.

Lemma teq2_sym (s s' : tensor2) : teq2 s s' -> teq2 s' s.
Proof.
  unfold teq2. intros (H0 & H1 & H). repeat split; try congruence.
  intros b e Hb He. symmetry. apply H; congruence.
Qed.

(** ** Concatenation *)

Lemma cat1_two (x y : tensor3) :
  d0 y = d0 x -> d2 y = d2 x ->
  cat1 [x; y] =
  Ok (mkT3 (d0 x) (d1 x + d1 y) (d2 x)
        (fun b i k => if (i <? d1 x)%nat then at3 x b i k
                      else at3 y b (i - d1 x) k)).
Proof.
  intros H0 H2. simpl. rewrite H0, H2, !Nat.eqb_refl. reflexivity.
Qed.

Lemma is_permutation_swap_blocks (n1 n2 : nat) :
  is_permutation (swap_blocks n1 n2) (n1 + n2) = true.
Proof.
  unfold is_permutation, swap_blocks.
  rewrite length_app, !length_seq.
  replace (n2 + n1)%nat with (n1 + n2)%nat by lia. rewrite Nat.eqb_refl. simpl.
  apply forallb_forall. intros i Hi. apply in_seq in Hi.
  apply existsb_exists. exists i. split; [ | apply Nat.eqb_refl].
  apply in_or_app.
  destruct (Nat.lt_ge_cases i n1); [right | left]; apply in_seq; lia.
Qed.

Lemma nth_swap_blocks (n1 n2 i : nat) :
  (i < n1 + n2)%nat ->
  nth i (swap_blocks n1 n2) O = if (i <? n2)%nat then (n1 + i)%nat else (i - n2)%nat.
Proof.
  intros Hi. unfold swap_blocks.
  destruct (Nat.ltb_spec i n2).
  - rewrite app_nth1 by (rewrite length_seq; lia). apply seq_nth. lia.
  - rewrite app_nth2 by (rewrite length_seq; lia). rewrite length_seq.
    rewrite seq_nth by lia. reflexivity.
Qed.

Lemma cat1_swap (x y : tensor3) :
  d0 y = d0 x -> d2 y = d2 x ->
  exists c c',
    cat1 [x; y] = Ok c /\ cat1 [y; x] = Ok c' /\
    d0 c = d0 x /\ d1 c = (d1 x + d1 y)%nat /\ d2 c = d2 x /\
    teq3 c' (index_select1 (swap_blocks (d1 x) (d1 y)) c).
Proof.
  intros H0 H2.
  rewrite (cat1_two x y H0 H2), (cat1_two y x (eq_sym H0) (eq_sym H2)).
  eexists. eexists. split; [reflexivity | split; [reflexivity | ]].
  simpl. split; [reflexivity | split; [reflexivity | split; [reflexivity | ]]].
  unfold teq3. simpl. unfold swap_blocks at 1. rewrite length_app, !length_seq.
  split; [assumption | split; [reflexivity | split; [assumption | ]]].
  intros b i k Hb Hi Hk.
  rewrite nth_swap_blocks by lia.
  destruct (Nat.ltb_spec i (d1 y)).
  - destruct (Nat.ltb_spec (d1 x + i) (d1 x)); [lia | ].
    replace (d1 x + i - d1 x)%nat with i by lia. reflexivity.
  - destruct (Nat.ltb_spec (i - d1 y) (d1 x)); [reflexivity | lia].
Qed.

(** ** Rearranging particles and operands *)

(** X1. Negation commutes with every rearrangement of the particles of its
    input: on a particle set of the embedding dimension it returns, and
    rearranging the input particles by a permutation rearranges the output
    particles in the same way. *)
Theorem negation_permutation_covariant :
  forall (m : Q2P) (x : tensor3) (p : list nat),
    d2 x = embedding_size m ->
    is_permutation p (d1 x) = true ->
    exists y y',
      negation m x = Ok y /\ negation m (index_select1 p x) = Ok y' /\
      d1 y = d1 x /\ teq3 y' (index_select1 p y).
Proof.
  intros m x p H2 Hp.
  destruct (negation_covariant m (d0 x) p x (index_select1 p x) eq_refl H2 Hp
              (teq3_refl _)) as [y [y' (Hy & Hy' & _ & Y1 & _ & Yeq)]].
  exists y, y'. auto.
Qed.

Lemma negation_permutation_covariant_witness :
  exists y y',
    negation q2p_small enc_124 = Ok y /\
    negation q2p_small (index_select1 [1; 0]%nat enc_124) = Ok y' /\
    d1 y = 2%nat /\ teq3 y' (index_select1 [1; 0]%nat y).
Proof.
  apply (negation_permutation_covariant q2p_small enc_124 [1; 0]%nat);
    reflexivity.
Defined.

(** X2. Projection and higher-order projection commute with every
    rearrangement of the particles of their input, for relation ids inside the
    relation table, one per batch element. *)
Theorem projection_permutation_covariant :
  forall (m : Q2P) (ids : list Z) (x : tensor3) (p : list nat),
    (0 < List.length ids)%nat ->
    forallb (fun z => (0 <=? z)%Z && (z <? Z.of_nat (num_relations m))%Z) ids = true ->
    d0 x = List.length ids ->
    d2 x = embedding_size m ->
    is_permutation p (d1 x) = true ->
    (exists y y',
        projection m (Ids ids) x = Ok y /\
        projection m (Ids ids) (index_select1 p x) = Ok y' /\
        teq3 y' (index_select1 p y)) /\
    (exists y y',
        higher_projection m (Ids ids) x = Ok y /\
        higher_projection m (Ids ids) (index_select1 p x) = Ok y' /\
        teq3 y' (index_select1 p y)).
Proof.
  intros m ids x p Hl Hr H0 H2 Hp. split.
  - destruct (projection_covariant m ids Hl Hr p x (index_select1 p x) H0 H2 Hp
                (teq3_refl _)) as [y [y' (Hy & Hy' & _ & _ & _ & Yeq)]].
    exists y, y'. auto.
  - destruct (higher_projection_covariant m ids Hl Hr p x (index_select1 p x) H0 H2 Hp
                (teq3_refl _)) as [y [y' (Hy & Hy' & _ & _ & _ & Yeq)]].
    exists y, y'. auto.
Qed.

Lemma projection_permutation_covariant_witness :
  exists y y',
    projection q2p_small (Ids [5%Z]) enc_124 = Ok y /\
    projection q2p_small (Ids [5%Z]) (index_select1 [1; 0]%nat enc_124) = Ok y' /\
    teq3 y' (index_select1 [1; 0]%nat y).
Proof.
  refine (proj1 (projection_permutation_covariant q2p_small [5%Z] enc_124
                   [1; 0]%nat _ _ _ _ _)).
  - simpl. lia.
  - reflexivity.
  - reflexivity.
  - reflexivity.
  - reflexivity.
Defined.

(** X3. Scoring does not depend on the order of the particles: rearranging
    the particles of an encoding by a permutation leaves every entity score
    unchanged. *)
Theorem scoring_permutation_invariant :
  forall (m : Q2P) (x : tensor3) (p : list nat),
    d2 x = embedding_size m ->
    (0 < d1 x)%nat ->
    is_permutation p (d1 x) = true ->
    exists s s',
      scoring m x = Ok s /\ scoring m (index_select1 p x) = Ok s' /\
      rows s' = rows s /\ cols s' = cols s /\
      forall b e, (b < rows s)%nat -> (e < cols s)%nat -> at2 s' b e = at2 s b e.
Proof.
  intros m x p H2 H1 Hp.
  destruct (scoring_rearranged m p x (index_select1 p x) H2 H1 Hp (teq3_refl _))
    as [s [s' (Hs & Hs' & S0 & S1 & Sat)]].
  exists s, s'. repeat split; try assumption.
  intros b e Hb He. apply Sat; congruence.
Qed.

Lemma scoring_permutation_invariant_witness :
  exists s s',
    scoring q2p_small enc_124 = Ok s /\
    scoring q2p_small (index_select1 [1; 0]%nat enc_124) = Ok s' /\
    rows s' = rows s /\ cols s' = cols s /\
    forall b e, (b < rows s)%nat -> (e < cols s)%nat -> at2 s' b e = at2 s b e.
Proof.
  apply (scoring_permutation_invariant q2p_small enc_124 [1; 0]%nat).
  - reflexivity.
  - simpl. lia.
  - reflexivity.
Defined.

(** X4. Exchanging the two operands of an intersection exchanges the two
    blocks of particles of its result and changes nothing else; so the entity
    scores of the intersection do not depend on the order of its operands. *)
Theorem intersection_operand_order :
  forall (m : Q2P) (a b : tensor3),
    d0 b = d0 a ->
    d2 a = embedding_size m ->
    d2 b = embedding_size m ->
    (0 < d0 a)%nat ->
    (0 < embedding_size m)%nat ->
    exists y y',
      intersection m [a; b] = Ok y /\ intersection m [b; a] = Ok y' /\
      d1 y = (d1 a + d1 b)%nat /\
      teq3 y' (index_select1 (swap_blocks (d1 a) (d1 b)) y) /\
      ((0 < d1 a + d1 b)%nat ->
       exists s s', scoring m y = Ok s /\ scoring m y' = Ok s' /\ teq2 s' s).
Proof.
  intros m a b H0 Ha Hb HB HE.
  destruct (cat1_swap a b H0 ltac:(congruence))
    as [c [c' (Hc & Hc' & C0 & C1 & C2 & Ceq)]].
  pose proof Ceq as (C0' & _ & C2' & _). simpl in C0', C2'.
  assert (Hv : forall t, d0 t = d0 a -> d2 t = embedding_size m ->
                         view_infer3 t = Ok t).
  { intros t T0 T2. unfold view_infer3, check.
    destruct (Nat.eqb_spec (d0 t * d2 t) 0) as [Hz | _]; [ | reflexivity].
    rewrite T0, T2 in Hz. nia. }
  pose proof (is_permutation_swap_blocks (d1 a) (d1 b)) as Hp.
  rewrite <- C1 in Hp.
  destruct (two_rounds_covariant (d0 a) (embedding_size m)
              (intersection_attn m) (intersection_ffn m)
              (intersection_layer_norm_1 m) (intersection_layer_norm_2 m)
              (intersection_layer_norm_3 m) (intersection_layer_norm_4 m)
              (swap_blocks (d1 a) (d1 b)) c c' C0 ltac:(congruence) Hp Ceq)
    as [y [y' (Hy & Hy' & Y0 & Y1 & Y2 & Yeq)]].
  exists y, y'.
  split; [ | split; [ | split; [congruence | split; [exact Yeq | ]]]].
  - rewrite intersection_two_rounds. unfold kcomp at 1 2.
    rewrite Hc. simpl. rewrite (Hv c) by congruence. simpl. exact Hy.
  - rewrite intersection_two_rounds. unfold kcomp at 1 2.
    rewrite Hc'. simpl. rewrite (Hv c') by congruence. simpl. exact Hy'.
  - intros Hpos.
    apply (scoring_rearranged m (swap_blocks (d1 a) (d1 b)) y y' Y2);
      [lia | congruence | exact Yeq].
Qed.

Lemma intersection_operand_order_witness :
  exists y y',
    intersection q2p_small [enc_124; index_select1 [1; 0]%nat enc_124] = Ok y /\
    intersection q2p_small [index_select1 [1; 0]%nat enc_124; enc_124] = Ok y' /\
    d1 y = 4%nat /\
    teq3 y' (index_select1 (swap_blocks 2 2) y).
Proof.
  destruct (intersection_operand_order q2p_small enc_124
              (index_select1 [1; 0]%nat enc_124))
    as [y [y' (Hy & Hy' & Y1 & Yeq & _)]].
  - reflexivity.
  - reflexivity.
  - reflexivity.
  - simpl. lia.
  - simpl. lia.
  - exists y, y'. auto.
Defined.

(** ** Layer normalisation *)

Lemma INR_pos_neq (n k : nat) : (k < n)%nat -> INR n <> 0.
Proof. intros H. apply not_0_INR. lia. Qed.





Lemma layer_norm_vec_one (ln : LayerNorm) (v : nat -> R) :
  layer_norm_vec 1 ln v O = ln_bias ln O.
Proof.
  unfold layer_norm_vec.
  assert (Hm : vmean 1 v = v O) by (unfold vmean; simpl; field).
  rewrite Hm. unfold Rdiv, Rminus. rewrite Rplus_opp_r. ring.
Qed.

(** X6. With a hidden size of one and a positive epsilon, layer normalisation
    returns its bias for every input: the single feature of a particle is its
    own mean, so the centred value is zero, the variance is zero, and the
    normalised value is zero over the square root of epsilon. *)
Theorem LayerNorm_forward_hidden_size_one :
  forall (ln : LayerNorm) (x : tensor3),
    0 < variance_epsilon ln ->
    d2 x = 1%nat ->
    exists y,
      LayerNorm_forward 1 ln x = Ok y /\
      d0 y = d0 x /\ d1 y = d1 x /\ d2 y = 1%nat /\
      forall b i, (b < d0 x)%nat -> (i < d1 x)%nat -> at3 y b i O = ln_bias ln O.
Proof.
  intros ln x Heps H2.
  destruct (LayerNorm_forward_at 1 ln x H2) as [y (Hy & Y0 & Y1 & Y2 & Yat)].
  exists y.
  split; [exact Hy | split; [exact Y0 | split; [exact Y1 | split; [exact Y2 | ]]]].
  intros b i Hb Hi.
  rewrite (Yat b i O Hb Hi ltac:(lia)).
  apply layer_norm_vec_one.
Qed.

(** The particle set [[[2], [5]]] of shape [1, 2, 1]. *)
Lemma LayerNorm_forward_hidden_size_one_witness :
  exists y,
    LayerNorm_forward 1 default_layer_norm
      (mkT3 1 2 1 (fun _ i _ => if (i =? 0)%nat then 2 else 5)) = Ok y /\
    at3 y 0 0 0 = 0 /\ at3 y 0 1 0 = 0.
Proof.
  assert (Heps : 0 < variance_epsilon default_layer_norm).
  { simpl. apply Rinv_0_lt_compat. lra. }
  destruct (LayerNorm_forward_hidden_size_one default_layer_norm
              (mkT3 1 2 1 (fun _ i _ => if (i =? 0)%nat then 2 else 5)) Heps eq_refl)
    as [y (Hy & _ & _ & _ & Hat)].
  exists y. split; [exact Hy | ].
  split; apply Hat; simpl; lia.
Defined.




(** ** Attention as a weighted average *)

Lemma attend_bounds (h : nat) (L : Linear) (x : tensor3) (b i j : nat) (lo hi : R) :
  (0 < d1 x)%nat ->
  (forall l, (l < d1 x)%nat -> lo <= lin h L x b l j <= hi) ->
  lo <= attend h L x b i j <= hi.
Proof.
  intros HN Hv. unfold attend.
  set (e := fun l => exp (score h L x b i l)).
  set (D := rsum (d1 x) e).
  assert (HD : 0 < D).
  { apply rsum_pos; [assumption | intros; apply exp_pos]. }
  assert (He : forall l, 0 <= e l / D).
  { intros l. apply Rlt_le, Rdiv_lt_0_compat; [apply exp_pos | assumption]. }
  assert (Hsum : forall c, rsum (d1 x) (fun l => e l / D * c) = c).
  { intros c.
    rewrite (rsum_ext _ _ (fun l => (c / D) * e l))
      by (intros; unfold Rdiv; ring).
    rewrite rsum_scal. fold D. field. lra. }
  change (lo <= rsum (d1 x) (fun l => e l / D * lin h L x b l j) <= hi).
  split.
  - rewrite <- (Hsum lo). apply rsum_le. intros l Hl.
    apply Rmult_le_compat_l; [apply He | apply Hv; assumption].
  - rewrite <- (Hsum hi). apply rsum_le. intros l Hl.
    apply Rmult_le_compat_l; [apply He | apply Hv; assumption].
Qed.

(** X8. Each output particle of self-attention is a weighted average of the
    projected particles (the outputs of the query layer): every coordinate of
    an output particle lies between the least and the greatest value of that
    coordinate over the projected particles of the same batch element. *)
Theorem SelfAttention_forward_is_average :
  forall (h : nat) (sa : SelfAttention) (x y : tensor3) (b i j : nat) (lo hi : R),
    (0 < d1 x)%nat ->
    SelfAttention_forward h sa x = Ok y ->
    (b < d0 x)%nat ->
    (forall l, (l < d1 x)%nat -> lo <= lin h (query sa) x b l j <= hi) ->
    lo <= at3 y b i j <= hi.
Proof.
  intros h sa x y b i j lo hi HN Hy Hb Hv.
  destruct (Nat.eq_dec (d2 x) h) as [H2 | H2].
  - destruct (SelfAttention_forward_Ok h sa x H2) as [y0 (Hy0 & _ & _ & _ & Yat)].
    assert (y0 = y) by congruence. subst y0.
    rewrite Yat by assumption. apply attend_bounds; assumption.
  - rewrite (SelfAttention_forward_Raise h sa x H2) in Hy. discriminate.
Qed.

Lemma SelfAttention_forward_is_average_witness :
  exists y,
    SelfAttention_forward 4 eye_attention enc_124 = Ok y /\
    0 <= at3 y 0 0 0 <= 1.
Proof.
  destruct (SelfAttention_forward_Ok 4 eye_attention enc_124 eq_refl)
    as [y (Hy & _)].
  exists y. split; [exact Hy | ].
  apply (SelfAttention_forward_is_average 4 eye_attention enc_124 y 0 0 0 0 1).
  - simpl. lia.
  - exact Hy.
  - simpl. lia.
  - intros l Hl. simpl in Hl.
    destruct l as [ | [ | l]]; [ | | lia];
      unfold lin, enc_124, eye_attention, eye_linear, bias_at; simpl; lra.
Defined.

(** ** Union and scoring *)

Lemma dot_if (n : nat) (c : bool) (u u' v : nat -> R) :
  dot n (fun k => if c then u k else u' k) v = if c then dot n u v else dot n u' v.
Proof. destruct c; reflexivity. Qed.

(** X9. The entity scores of a union of two particle sets are the greater of
    the scores of the two operands: the disjunction is resolved by the
    max-pooling of [scoring]. *)
Theorem scoring_union_is_max :
  forall (m : Q2P) (x y : tensor3),
    d0 y = d0 x ->
    d2 x = embedding_size m ->
    d2 y = embedding_size m ->
    (0 < d1 x)%nat ->
    (0 < d1 y)%nat ->
    exists u s sx sy,
      union [x; y] = Ok u /\ scoring m u = Ok s /\
      scoring m x = Ok sx /\ scoring m y = Ok sy /\
      forall b e, at2 s b e = Rmax (at2 sx b e) (at2 sy b e).
Proof.
  intros m x y H0 Hx Hy Nx Ny.
  destruct (d1 x) as [ | nx] eqn:Hnx; [lia | ].
  destruct (d1 y) as [ | ny] eqn:Hny; [lia | ].
  destruct (scoring_Ok m x nx Hx Hnx) as [sx (Hsx & _ & _ & Sx)].
  destruct (scoring_Ok m y ny Hy Hny) as [sy (Hsy & _ & _ & Sy)].
  unfold union. rewrite (cat1_two x y H0 ltac:(congruence)).
  match goal with |- context [Ok ?t = Ok _] => set (u := t) end.
  destruct (scoring_Ok m u (S nx + ny)) as [s (Hs & _ & _ & Su)].
  { exact Hx. }
  { unfold u. simpl. rewrite Hnx, Hny. lia. }
  exists u, s, sx, sy.
  split; [reflexivity | split; [exact Hs | split; [exact Hsx | split; [exact Hsy | ]]]].
  intros b e. rewrite Su, Sx, Sy.
  rewrite <- rmax_to_cat.
  apply rmax_to_ext. intros p _.
  unfold u. cbn [at3]. rewrite Hnx.
  apply dot_if.
Qed.

Lemma scoring_union_is_max_witness :
  exists u s sx sy,
    union [enc_124; map3 (fun v => v + 1) enc_124] = Ok u /\
    scoring q2p_small u = Ok s /\
    scoring q2p_small enc_124 = Ok sx /\
    scoring q2p_small (map3 (fun v => v + 1) enc_124) = Ok sy /\
    forall b e, at2 s b e = Rmax (at2 sx b e) (at2 sy b e).
Proof.
  apply (scoring_union_is_max q2p_small enc_124 (map3 (fun v => v + 1) enc_124)).
  - reflexivity.
  - reflexivity.
  - reflexivity.
  - simpl. lia.
  - simpl. lia.
Defined.

Lemma cat1_from_Ok (l : list tensor3) :
  forall acc,
    Forall (fun y => d0 y = d0 acc /\ d2 y = d2 acc) l ->
    exists t,
      cat1_from acc l = Ok t /\ d0 t = d0 acc /\ d2 t = d2 acc /\
      d1 t = (d1 acc + list_sum (map d1 l))%nat /\
      forall b i k, (i < d1 acc)%nat -> at3 t b i k = at3 acc b i k.
Proof.
  induction l as [ | y l IH]; intros acc HF.
  - exists acc. simpl. repeat split; auto.
  - inversion HF as [ | ? ? [Y0 Y2] HF']; subst.
    simpl. rewrite Y0, Y2, !Nat.eqb_refl. simpl.
    destruct (IH (mkT3 (d0 acc) (d1 acc + d1 y) (d2 acc)
                    (fun b i k => if (i <? d1 acc)%nat then at3 acc b i k
                                  else at3 y b (i - d1 acc) k)) HF')
      as [t (Ht & T0 & T2 & T1 & Tat)].
    exists t. simpl in T0, T2, T1, Tat.
    split; [exact Ht | split; [exact T0 | split; [exact T2 | split; [lia | ]]]].
    intros b i k Hi. rewrite Tat by lia.
    destruct (Nat.ltb_spec i (d1 acc)); [reflexivity | lia].
Qed.

Lemma cat1_from_Raise (l : list tensor3) :
  forall acc,
    ~ Forall (fun y => d0 y = d0 acc /\ d2 y = d2 acc) l ->
    cat1_from acc l = Raise TorchError.
Proof.
  induction l as [ | y l IH]; intros acc HF.
  - exfalso. apply HF. constructor.
  - simpl. unfold check.
    destruct (Nat.eqb_spec (d0 y) (d0 acc)) as [Y0 | Y0]; simpl; [ | reflexivity].
    destruct (Nat.eqb_spec (d2 y) (d2 acc)) as [Y2 | Y2]; simpl; [ | reflexivity].
    apply IH. simpl. intros HF'. apply HF. constructor; auto.
Qed.

(** X10. [union] returns exactly when it is given at least one operand and
    all operands have the batch size and the last dimension of the first; it
    raises otherwise.  A single operand is returned unchanged, and the
    particles of the first operand are the first particles of the result. *)
Theorem union_returns_iff :
  union [] = Raise TorchError /\
  (forall x, union [x] = Ok x) /\
  (forall x l,
      Forall (fun y => d0 y = d0 x /\ d2 y = d2 x) l ->
      exists t,
        union (x :: l) = Ok t /\ d0 t = d0 x /\ d2 t = d2 x /\
        d1 t = (d1 x + list_sum (map d1 l))%nat /\
        forall b i k, (i < d1 x)%nat -> at3 t b i k = at3 x b i k) /\
  (forall x l,
      ~ Forall (fun y => d0 y = d0 x /\ d2 y = d2 x) l ->
      union (x :: l) = Raise TorchError).
Proof.
  split; [reflexivity | split; [reflexivity | split]].
  - intros x l HF. apply (cat1_from_Ok l x HF).
  - intros x l HF. apply (cat1_from_Raise l x HF).
Qed.

Lemma union_returns_iff_witness :
  (exists t, union [enc_124; x_111] = Raise TorchError /\
             union [enc_124; enc_124] = Ok t /\ d1 t = 4%nat).
Proof.
  destruct union_returns_iff as (_ & _ & Hok & Hraise).
  destruct (Hok enc_124 [enc_124]) as [t (Ht & _ & _ & T1 & _)].
  { repeat constructor. }
  exists t. split; [ | split; [exact Ht | exact T1]].
  apply Hraise. intros HF. inversion HF as [ | ? ? [H0 H2] _]; subst.
  simpl in H2. discriminate.
Defined.

(** X11. [scoring] raises exactly when the last dimension of the encoding is
    not the embedding dimension or the encoding has no particle. *)
Theorem scoring_raises_iff :
  forall (m : Q2P) (x : tensor3),
    scoring m x = Raise TorchError <->
    (d2 x <> embedding_size m \/ d1 x = O).
Proof.
  intros m x. split.
  - intros H.
    destruct (Nat.eq_dec (d2 x) (embedding_size m)) as [H2 | H2]; [ | left; exact H2].
    destruct (d1 x) as [ | n] eqn:Hn; [right; reflexivity | ].
    destruct (scoring_Ok m x n H2 Hn) as [s (Hs & _)]. congruence.
  - intros [H2 | H1].
    + unfold scoring. rewrite (Linear_forward_Raise _ _ _ _ H2). reflexivity.
    + apply scoring_no_particles. exact H1.
Qed.

Lemma scoring_raises_iff_witness :
  scoring q2p_small x_111 = Raise TorchError.
Proof.
  apply (proj2 (scoring_raises_iff q2p_small x_111)).
  left. simpl. discriminate.
Defined.

(** ** Entity anchors *)

Lemma ParticleCrusher_forward_at (E P : nat) (pc : ParticleCrusher) (emb : tensor2) :
  cols emb = E -> (0 < rows emb)%nat -> (0 < E)%nat ->
  exists t,
    ParticleCrusher_forward E P pc emb = Ok t /\
    d0 t = rows emb /\ d1 t = P /\ d2 t = E /\
    forall b p k, (b < rows emb)%nat -> (p < P)%nat -> (k < E)%nat ->
                  at3 t b p k = at2 emb b k + off_sets pc O p k.
Proof.
  intros Hc Hr HE. destruct emb as [B C f]. simpl in Hc, Hr. subst C.
  unfold ParticleCrusher_forward, reshape_infer2, check. simpl rows. simpl cols.
  destruct (Nat.eqb_spec (B * E) 0) as [Hz | _]; [nia | ]. simpl negb. cbv iota.
  rewrite !bind_Ok.
  rewrite (zip3_Ok Rplus _ _ B P E)
    by (simpl; auto using broadcast_dim_same, broadcast_dim_1_r, broadcast_dim_1_l).
  eexists. split; [reflexivity | ]. simpl d0. simpl d1. simpl d2.
  split; [reflexivity | split; [reflexivity | split; [reflexivity | ]]].
  intros b p k Hb Hp Hk.
  cbn [at3 d0 d1 d2 unsqueeze1 at2 bidx Nat.eqb].
  rewrite (bidx_lt _ _ Hb), (bidx_lt _ _ Hp), (bidx_lt _ _ Hk). reflexivity.
Qed.

Lemma forward_e_unfold (m : Q2P) (o : structured_query) (rest : list structured_query)
      (label : option (list Z)) :
  forward m (Node "e" (o :: rest)) label =
  (this_query_result <-
     (entity_ids <- torch_tensor o ;;
      emb <- Embedding_forward (num_entities m) (embedding_size m)
               (entity_embedding m) entity_ids ;;
      t <- ParticleCrusher_forward (embedding_size m) (num_particles m)
             (to_particles m) emb ;;
      Ok (VTensor t)) ;;
   match label with
   | None => Ok this_query_result
   | Some labels => l <- loss_fnt m this_query_result labels ;; Ok (VScalar l)
   end).
Proof. reflexivity. Qed.

Lemma entity_particles_at (m : Q2P) (ids : list Z) :
  (0 < List.length ids)%nat ->
  forallb (fun z => (0 <=? z)%Z && (z <? Z.of_nat (num_entities m))%Z) ids = true ->
  (0 < embedding_size m)%nat ->
  exists t,
    (emb <- Embedding_forward (num_entities m) (embedding_size m)
              (entity_embedding m) ids ;;
     ParticleCrusher_forward (embedding_size m) (num_particles m)
       (to_particles m) emb) = Ok t /\
    d0 t = List.length ids /\ d1 t = num_particles m /\ d2 t = embedding_size m /\
    forall b p k,
      (b < List.length ids)%nat -> (p < num_particles m)%nat ->
      (k < embedding_size m)%nat ->
      at3 t b p k =
      emb_weight (entity_embedding m) (Z.to_nat (nth b ids 0%Z)) k
      + off_sets (to_particles m) O p k.
Proof.
  intros Hl Hr HE.
  rewrite (Embedding_forward_Ok _ _ _ _ Hl Hr), bind_Ok.
  match goal with
  | |- context [ParticleCrusher_forward ?E ?P ?pc ?emb] =>
      destruct (ParticleCrusher_forward_at E P pc emb eq_refl Hl HE)
        as [t (Ht & T0 & T1 & T2 & Tat)]
  end.
  exists t.
  split; [exact Ht | split; [exact T0 | split; [exact T1 | split; [exact T2 | ]]]].
  intros b p k Hb Hp Hk. rewrite (Tat b p k Hb Hp Hk). reflexivity.
Qed.

Lemma forward_e_Ok (m : Q2P) (ids : list Z) (rest : list structured_query)
      (t : tensor3) :
  (emb <- Embedding_forward (num_entities m) (embedding_size m)
            (entity_embedding m) ids ;;
   ParticleCrusher_forward (embedding_size m) (num_particles m)
     (to_particles m) emb) = Ok t ->
  forward m (Node "e" (Ids ids :: rest)) None = Ok (VTensor t).
Proof.
  intros H. rewrite forward_e_unfold. cbn [torch_tensor]. rewrite bind_Ok.
  destruct (Embedding_forward _ _ _ ids) as [emb | ]; cbn [bind] in H |- *;
    [ | discriminate].
  rewrite H. reflexivity.
Qed.

(** ** C6: dispatch of [p] nodes *)

(** [("u", ("e", [3]), ("e", [3]))] evaluates to four particles. *)
Lemma q_u_evaluates :
  match forward q2p_small (Node "u" [q_e3; q_e3]) None with
  | Ok (VTensor t) => (d0 t =? 1)%nat && (d1 t =? 4)%nat
  | _ => false
  end = true.
Proof. vm_compute. reflexivity. Qed.

(** C6. A [p] node evaluates its sub-query (element 2) first, then calls
    [projection] on the result when the sub-query's tag is [e] and
    [higher_projection] for every other tag; with a label the particle set so
    obtained goes to the loss.  The sub-query is evaluated: its exception is
    the node's.  Over an entity anchor with ids inside the entity table the
    node returns what [projection] returns on the anchor's particles, and over
    any other sub-query that returns a particle set it returns what
    [higher_projection] returns on that set, for relation ids inside the
    relation table, one per batch element. *)
Theorem forward_p_dispatch :
  forall (m : Q2P),
    (forall (relation_ids sub : structured_query) (rest : list structured_query)
            (label : option (list Z)),
        forward m (Node "p" (relation_ids :: sub :: rest)) label =
        (this_query_result <-
           (r <- forward m sub None ;;
            t <- as_tensor r ;;
            out <- (if head_is_e sub then projection m relation_ids t
                    else higher_projection m relation_ids t) ;;
            Ok (VTensor out)) ;;
         match label with
         | None => Ok this_query_result
         | Some labels => l <- loss_fnt m this_query_result labels ;; Ok (VScalar l)
         end)) /\
    (forall (relation_ids sub : structured_query) (rest : list structured_query)
            (label : option (list Z)) (e : exn),
        forward m sub None = Raise e ->
        forward m (Node "p" (relation_ids :: sub :: rest)) label = Raise e) /\
    (forall (ids entity_ids : list Z) (erest rest : list structured_query),
        (0 < List.length ids)%nat ->
        List.length entity_ids = List.length ids ->
        forallb (fun z => (0 <=? z)%Z && (z <? Z.of_nat (num_relations m))%Z) ids = true ->
        forallb (fun z => (0 <=? z)%Z && (z <? Z.of_nat (num_entities m))%Z) entity_ids
          = true ->
        (0 < embedding_size m)%nat ->
        exists t out,
          forward m (Node "e" (Ids entity_ids :: erest)) None = Ok (VTensor t) /\
          projection m (Ids ids) t = Ok out /\
          forward m (Node "p" (Ids ids :: Node "e" (Ids entity_ids :: erest) :: rest)) None
          = Ok (VTensor out) /\
          d0 out = List.length ids /\ d1 out = num_particles m /\
          d2 out = embedding_size m) /\
    (forall (ids : list Z) (sub : structured_query) (rest : list structured_query)
            (t : tensor3),
        head_is_e sub = false ->
        forward m sub None = Ok (VTensor t) ->
        (0 < List.length ids)%nat ->
        d0 t = List.length ids ->
        forallb (fun z => (0 <=? z)%Z && (z <? Z.of_nat (num_relations m))%Z) ids = true ->
        exists out,
          higher_projection m (Ids ids) t = Ok out /\
          forward m (Node "p" (Ids ids :: sub :: rest)) None = Ok (VTensor out) /\
          d0 out = d0 t /\ d1 out = d1 t /\ d2 out = embedding_size m).
Proof.
  intros m.
  assert (Heq : forall relation_ids sub rest label,
             forward m (Node "p" (relation_ids :: sub :: rest)) label =
             (this_query_result <-
                (r <- forward m sub None ;;
                 t <- as_tensor r ;;
                 out <- (if head_is_e sub then projection m relation_ids t
                         else higher_projection m relation_ids t) ;;
                 Ok (VTensor out)) ;;
              match label with
              | None => Ok this_query_result
              | Some labels => l <- loss_fnt m this_query_result labels ;; Ok (VScalar l)
              end)).
  { intros relation_ids sub rest label.
    cbn [forward].
    change (tag_in "p" known_tags) with true.
    change (String.eqb "p" "p") with true.
    cbn [negb].
    destruct (forward m sub None) as [r | e]; simpl; [ | reflexivity].
    destruct (as_tensor r) as [t | e]; simpl; [ | reflexivity].
    destruct (head_is_e sub); simpl.
    - destruct (projection m relation_ids t); reflexivity.
    - destruct (higher_projection m relation_ids t); reflexivity. }
  split; [exact Heq | ].
  split; [ | split].
  - intros relation_ids sub rest label e He.
    rewrite Heq, He. reflexivity.
  - intros ids entity_ids erest rest Hl Hlen Hr Her HE.
    assert (Hel : (0 < List.length entity_ids)%nat) by lia.
    destruct (entity_particles_at m entity_ids Hel Her HE)
      as [t (Ht & T0 & T1 & T2 & _)].
    apply (forward_e_Ok m entity_ids erest) in Ht.
    destruct (covariant_on_succeeds _ _ _ t (projection_covariant m ids Hl Hr)
                ltac:(congruence) T2) as [out (Hout & O0 & O1 & O2)].
    exists t, out.
    split; [exact Ht | split; [exact Hout | ]].
    split; [ | split; [exact O0 | split; [congruence | exact O2]]].
    rewrite Heq, Ht. cbn [bind as_tensor head_is_e].
    change (String.eqb "e" "e") with true. cbv iota.
    rewrite Hout. reflexivity.
  - intros ids sub rest t Hne Ht Hl T0 Hr.
    destruct (forward_shape m sub t Ht) as [_ T2].
    destruct (covariant_on_succeeds _ _ _ t (higher_projection_covariant m ids Hl Hr)
                T0 T2) as [out (Hout & O0 & O1 & O2)].
    exists out.
    split; [exact Hout | ].
    split; [ | split; [congruence | split; [exact O1 | exact O2]]].
    rewrite Heq, Ht, Hne. cbn [bind as_tensor].
    rewrite Hout. reflexivity.
Qed.

(** [("p", [5], ("e", [3]))] and [("p", [5], ("u", ("e", [3]), ("e", [3])))]. *)
Lemma forward_p_dispatch_witness :
  (exists t out,
      forward q2p_small q_e3 None = Ok (VTensor t) /\
      projection q2p_small (Ids [5%Z]) t = Ok out /\
      forward q2p_small (Node "p" [Ids [5%Z]; q_e3]) None = Ok (VTensor out) /\
      d1 out = 2%nat) /\
  (exists t out,
      forward q2p_small (Node "u" [q_e3; q_e3]) None = Ok (VTensor t) /\
      higher_projection q2p_small (Ids [5%Z]) t = Ok out /\
      forward q2p_small q_p_u None = Ok (VTensor out) /\
      d1 out = 4%nat).
Proof.
  destruct (forward_p_dispatch q2p_small) as (_ & _ & Hproj & Hhigh).
  split.
  - destruct (Hproj [5%Z] [3%Z] [] []) as [t [out (Ht & Hout & Hp & _ & O1 & _)]];
      [simpl; lia | reflexivity | reflexivity | reflexivity | simpl; lia | ].
    exists t, out. split; [exact Ht | split; [exact Hout | split; [exact Hp | exact O1]]].
  - pose proof q_u_evaluates as T.
    destruct (forward q2p_small (Node "u" [q_e3; q_e3]) None) as [[ | t | ] | ] eqn:Hu;
      try discriminate T.
    apply andb_true_iff in T. destruct T as [T0 T1].
    apply Nat.eqb_eq in T0. apply Nat.eqb_eq in T1.
    destruct (Hhigh [5%Z] (Node "u" [q_e3; q_e3]) [] t eq_refl Hu)
      as [out (Hout & Hp & _ & O1 & _)];
      [simpl; lia | exact T0 | reflexivity | ].
    exists t, out.
    split; [reflexivity | split; [exact Hout | split; [exact Hp | congruence]]].
Defined.

(** X12. An entity anchor [("e", ids)] with at least one id, all inside the
    entity table, in a model of positive embedding dimension evaluates to a
    particle set of shape [len(ids), num_particles, embedding_size] whose
    particle [p] of batch element [b] is the embedding of entity [ids[b]]
    plus the offset vector of slot [p]. *)
Theorem forward_entity_anchor :
  forall (m : Q2P) (ids : list Z) (rest : list structured_query),
    (0 < List.length ids)%nat ->
    forallb (fun z => (0 <=? z)%Z && (z <? Z.of_nat (num_entities m))%Z) ids = true ->
    (0 < embedding_size m)%nat ->
    exists t,
      forward m (Node "e" (Ids ids :: rest)) None = Ok (VTensor t) /\
      d0 t = List.length ids /\ d1 t = num_particles m /\ d2 t = embedding_size m /\
      forall b p k,
        (b < List.length ids)%nat -> (p < num_particles m)%nat ->
        (k < embedding_size m)%nat ->
        at3 t b p k =
        emb_weight (entity_embedding m) (Z.to_nat (nth b ids 0%Z)) k
        + off_sets (to_particles m) O p k.
Proof.
  intros m ids rest Hl Hr HE.
  destruct (entity_particles_at m ids Hl Hr HE) as [t (Ht & Hshape)].
  exists t. split; [ | exact Hshape].
  apply forward_e_Ok. exact Ht.
Qed.

Lemma forward_entity_anchor_witness :
  exists t,
    forward q2p_small q_e3 None = Ok (VTensor t) /\
    d0 t = 1%nat /\ d1 t = 2%nat /\ d2 t = 4%nat /\
    at3 t 0 1 2 = INR (3 + 2) + INR 1.
Proof.
  destruct (forward_entity_anchor q2p_small [3%Z] [])
    as [t (Ht & T0 & T1 & T2 & Tat)].
  - simpl. lia.
  - reflexivity.
  - simpl. lia.
  - exists t. split; [exact Ht | split; [exact T0 | split; [exact T1 | split; [exact T2 | ]]]].
    apply (Tat 0%nat 1%nat 2%nat); simpl; lia.
Defined.

(** X13. An entity anchor raises inside the tensor library when its id list
    is empty or holds an id outside the entity table, when its element 1 is
    not a list of integers, and, whatever its ids, when the embedding
    dimension of the model is zero. *)
Theorem forward_entity_anchor_raises :
  forall (m : Q2P) (rest : list structured_query) (label : option (list Z)),
    (forall ids,
        ids = [] \/
        forallb (fun z => (0 <=? z)%Z && (z <? Z.of_nat (num_entities m))%Z) ids = false ->
        forward m (Node "e" (Ids ids :: rest)) label = Raise TorchError) /\
    (forall tag items,
        forward m (Node "e" (Node tag items :: rest)) label = Raise TorchError) /\
    (embedding_size m = O ->
     forall o, forward m (Node "e" (o :: rest)) label = Raise TorchError).
Proof.
  intros m rest label. split; [ | split].
  - intros ids H. rewrite forward_e_unfold. cbn [torch_tensor]. rewrite bind_Ok.
    unfold Embedding_forward, check.
    destruct H as [-> | H]; [reflexivity | ].
    destruct (negb (List.length ids =? 0)%nat); simpl; [ | reflexivity].
    rewrite H. reflexivity.
  - intros tag items. reflexivity.
  - intros HE o. rewrite forward_e_unfold.
    destruct o as [ids | tag items]; [ | reflexivity].
    cbn [torch_tensor]. rewrite bind_Ok.
    unfold Embedding_forward, check.
    destruct (negb (List.length ids =? 0)%nat); simpl; [ | reflexivity].
    destruct (forallb _ ids); simpl; [ | reflexivity].
    unfold ParticleCrusher_forward, reshape_infer2, check. simpl.
    rewrite HE, Nat.mul_0_r. reflexivity.
Qed.

Lemma forward_entity_anchor_raises_witness :
  forward q2p_small (Node "e" [Ids [10%Z]]) None = Raise TorchError.
Proof.
  apply (proj1 (forward_entity_anchor_raises q2p_small [] None) [10%Z]).
  right. reflexivity.
Defined.

(** ** Exceptions of the interpreter *)

(** X14. Which exception a malformed node raises: a sequence of integers in
    the place of a query fails the entry assertion (an empty one fails the
    indexing before it); a [p] node without element 2 and an [n] or [e] node
    without element 1 raise [IndexError]; an [i] or [u] node without
    sub-queries raises inside [torch.cat]. *)
Theorem forward_exception_kinds :
  forall (m : Q2P) (label : option (list Z)),
    forward m (Ids []) label = Raise IndexError /\
    (forall z l, forward m (Ids (z :: l)) label = Raise AssertionError) /\
    forward m (Node "p" []) label = Raise IndexError /\
    (forall rel, forward m (Node "p" [rel]) label = Raise IndexError) /\
    forward m (Node "n" []) label = Raise IndexError /\
    forward m (Node "e" []) label = Raise IndexError /\
    forward m (Node "i" []) label = Raise TorchError /\
    forward m (Node "u" []) label = Raise TorchError.
Proof.
  intros m label. repeat split; reflexivity.
Qed.

Lemma mapM_app_Raise {A B : Type} (f : A -> result B) (pre post : list A) (a : A)
      (e : exn) :
  Forall (fun q => exists v, f q = Ok v) pre ->
  f a = Raise e ->
  mapM f (pre ++ a :: post) = Raise e.
Proof.
  intros Hpre Ha. induction Hpre as [ | q pre [v Hv] _ IH]; simpl.
  - rewrite Ha. reflexivity.
  - rewrite Hv. simpl. rewrite IH. reflexivity.
Qed.

(** X15. [forward] fails fast: the exception raised by the sub-query of a
    [p] or [n] node, or by the first sub-query of an [i] or [u] node that
    raises, is the exception raised by the node; no later sub-query hides
    it. *)
Theorem forward_propagates_sub_query_exception :
  forall (m : Q2P) (e : exn) (label : option (list Z)),
    (forall rel sub rest,
        forward m sub None = Raise e ->
        forward m (Node "p" (rel :: sub :: rest)) label = Raise e) /\
    (forall sub rest,
        forward m sub None = Raise e ->
        forward m (Node "n" (sub :: rest)) label = Raise e) /\
    (forall pre sub post,
        Forall (fun q => exists v, forward m q None = Ok v) pre ->
        forward m sub None = Raise e ->
        forward m (Node "i" (pre ++ sub :: post)) label = Raise e /\
        forward m (Node "u" (pre ++ sub :: post)) label = Raise e).
Proof.
  intros m e label. split; [ | split].
  - intros rel sub rest H. rewrite forward_Node.
    change (tag_in "p" known_tags) with true.
    change (String.eqb "p" "p") with true. cbn [negb]. cbv iota.
    rewrite H. reflexivity.
  - intros sub rest H. rewrite forward_Node.
    change (tag_in "n" known_tags) with true.
    change (String.eqb "n" "p") with false.
    change (String.eqb "n" "i") with false.
    change (String.eqb "n" "u") with false.
    change (String.eqb "n" "n") with true. cbn [negb]. cbv iota.
    rewrite H. reflexivity.
  - intros pre sub post Hpre H.
    pose proof (mapM_app_Raise (fun q => forward m q None) pre post sub e Hpre H) as HM.
    split; rewrite forward_Node.
    + change (tag_in "i" known_tags) with true.
      change (String.eqb "i" "p") with false.
      change (String.eqb "i" "i") with true. cbn [negb]. cbv iota.
      rewrite HM. reflexivity.
    + change (tag_in "u" known_tags) with true.
      change (String.eqb "u" "p") with false.
      change (String.eqb "u" "i") with false.
      change (String.eqb "u" "u") with true. cbn [negb]. cbv iota.
      rewrite HM. reflexivity.
Qed.

Lemma forward_propagates_sub_query_exception_witness :
  forward q2p_small (Node "i" [q_e3; Node "x" []; Node "e" []]) None =
  Raise AssertionError.
Proof.
  refine (proj1 (proj2 (proj2 (forward_propagates_sub_query_exception
                                 q2p_small AssertionError None))
                  [q_e3] (Node "x" []) [Node "e" []] _ _)).
  - constructor; [ | constructor].
    pose proof q_e3_evaluates as T.
    destruct (forward q2p_small q_e3 None) as [v | ]; [ | discriminate T].
    exists v. reflexivity.
  - reflexivity.
Defined.

(** [("e", [3])] with the label [[3]] evaluates to a loss. *)
Lemma q_e3_loss_evaluates :
  match forward q2p_small q_e3 (Some [3%Z]) with
  | Ok (VScalar _) => true
  | _ => false
  end = true.
Proof. vm_compute. reflexivity. Qed.

(** X16. With a label, [forward] is the loss of what it returns without one:
    the particle set of the query is scored, and the scores and the labels go
    to the label-smoothing loss; every exception of the evaluation, of the
    scoring or of the loss is raised.  A query that evaluates to at least one
    particle is scored, one row per batch element and one column per entity,
    and the labelled call returns what the loss returns on these scores. *)
Theorem forward_with_label :
  forall (m : Q2P) (q : structured_query) (labels : list Z),
    forward m q (Some labels) =
    (v <- forward m q None ;;
     t <- as_tensor v ;;
     s <- scoring m t ;;
     l <- label_smoothing_loss m s labels ;;
     Ok (VScalar l)) /\
    (forall t,
        forward m q None = Ok (VTensor t) -> (0 < d1 t)%nat ->
        exists s,
          scoring m t = Ok s /\ rows s = d0 t /\ cols s = num_entities m /\
          forward m q (Some labels) =
          (l <- label_smoothing_loss m s labels ;; Ok (VScalar l))).
Proof.
  intros m q labels.
  assert (Heq : forward m q (Some labels) =
                (v <- forward m q None ;;
                 t <- as_tensor v ;;
                 s <- scoring m t ;;
                 l <- label_smoothing_loss m s labels ;;
                 Ok (VScalar l))).
  { destruct q as [l | tag items].
    - destruct l; reflexivity.
    - rewrite !forward_Node.
      destruct (negb (tag_in tag known_tags)); [reflexivity | ].
      match goal with |- bind ?D _ = _ => destruct D as [v | e] end;
        [ | reflexivity].
      simpl. unfold loss_fnt.
      destruct (as_tensor v) as [t | e]; simpl; [ | reflexivity].
      destruct (scoring m t) as [s | e]; simpl; [ | reflexivity].
      destruct (label_smoothing_loss m s labels); reflexivity. }
  split; [exact Heq | ].
  intros t Ht H1.
  destruct (forward_shape m q t Ht) as [_ T2].
  destruct (d1 t) as [ | n] eqn:Hd; [lia | ].
  destruct (scoring_Ok m t n T2 Hd) as [s (Hs & S0 & S1 & _)].
  exists s. split; [exact Hs | split; [exact S0 | split; [exact S1 | ]]].
  rewrite Heq, Ht. cbn [bind as_tensor]. rewrite Hs. reflexivity.
Qed.

Lemma forward_with_label_witness :
  exists t s l,
    forward q2p_small q_e3 None = Ok (VTensor t) /\
    scoring q2p_small t = Ok s /\
    label_smoothing_loss q2p_small s [3%Z] = Ok l /\
    forward q2p_small q_e3 (Some [3%Z]) = Ok (VScalar l).
Proof.
  pose proof q_e3_evaluates as T.
  destruct (forward q2p_small q_e3 None) as [[ | t | ] | ] eqn:Ht;
    try discriminate T.
  destruct (forward_shape q2p_small q_e3 t Ht) as [T1 _].
  destruct (proj2 (forward_with_label q2p_small q_e3 [3%Z]) t Ht)
    as [s (Hs & _ & _ & Hl)].
  { rewrite T1. simpl. lia. }
  pose proof q_e3_loss_evaluates as L. rewrite Hl in L.
  destruct (label_smoothing_loss q2p_small s [3%Z]) as [l | e] eqn:Hloss;
    [ | discriminate L].
  cbn [bind] in Hl.
  exists t, s, l.
  split; [reflexivity | split; [exact Hs | split; [exact Hloss | exact Hl]]].
Defined.

(** ** Evaluation of well-formed queries *)

Lemma ids_ok_inv (B n : nat) (o : structured_query) :
  ids_ok B n o = true ->
  exists l, o = Ids l /\ List.length l = B /\
            forallb (fun z => (0 <=? z)%Z && (z <? Z.of_nat n)%Z) l = true.
Proof.
  destruct o as [l | tag items]; simpl; intros H; [ | discriminate].
  apply andb_true_iff in H. destruct H as [Hl Hr]. apply Nat.eqb_eq in Hl.
  exists l. auto.
Qed.

Lemma view_infer3_Ok (t : tensor3) :
  (0 < d0 t)%nat -> (0 < d2 t)%nat -> view_infer3 t = Ok t.
Proof.
  intros H0 H2. unfold view_infer3, check.
  destruct (Nat.eqb_spec (d0 t * d2 t) 0) as [Hz | _]; [nia | reflexivity].
Qed.

Lemma intersection_cons (m : Q2P) (x : tensor3) (l : list tensor3) :
  intersection m (x :: l) =
  (c <- cat1_from x l ;;
   v <- view_infer3 c ;;
   two_rounds (embedding_size m) (intersection_attn m) (intersection_ffn m)
     (intersection_layer_norm_1 m) (intersection_layer_norm_2 m)
     (intersection_layer_norm_3 m) (intersection_layer_norm_4 m) v).
Proof.
  rewrite intersection_two_rounds. unfold kcomp at 1 2.
  change (cat1 (x :: l)) with (cat1_from x l).
  destruct (cat1_from x l); reflexivity.
Qed.

Lemma intersection_succeeds (m : Q2P) (B : nat) (x : tensor3) (l : list tensor3) :
  (0 < B)%nat -> (0 < embedding_size m)%nat ->
  Forall (fun y => d0 y = B /\ d2 y = embedding_size m) (x :: l) ->
  exists t, intersection m (x :: l) = Ok t /\ d0 t = B.
Proof.
  intros HB HE HF. inversion HF as [ | ? ? [X0 X2] HF']; subst.
  destruct (cat1_from_Ok l x) as [c (Hc & C0 & C2 & _)].
  { eapply Forall_impl; [ | exact HF']. simpl. intros y [? ?]. split; congruence. }
  destruct (covariant_on_succeeds (d0 x) (embedding_size m) _ c
              (two_rounds_covariant (d0 x) (embedding_size m)
                 (intersection_attn m) (intersection_ffn m)
                 (intersection_layer_norm_1 m) (intersection_layer_norm_2 m)
                 (intersection_layer_norm_3 m) (intersection_layer_norm_4 m))
              C0 ltac:(congruence)) as [t (Ht & T0 & _)].
  exists t. split; [ | exact T0].
  rewrite intersection_cons, Hc. cbn [bind].
  rewrite (view_infer3_Ok c) by lia. cbn [bind]. exact Ht.
Qed.

Lemma union_succeeds (B E : nat) (x : tensor3) (l : list tensor3) :
  Forall (fun y => d0 y = B /\ d2 y = E) (x :: l) ->
  exists t, union (x :: l) = Ok t /\ d0 t = B.
Proof.
  intros HF. inversion HF as [ | ? ? [X0 X2] HF']; subst.
  destruct (cat1_from_Ok l x) as [c (Hc & C0 & _)].
  { eapply Forall_impl; [ | exact HF']. simpl. intros y [? ?]. split; congruence. }
  exists c. split; [exact Hc | exact C0].
Qed.

Lemma sub_queries_succeed (m : Q2P) (B : nat) (items : list structured_query) :
  Forall (fun q => evaluable m B q = true ->
                   exists t, forward m q None = Ok (VTensor t) /\ d0 t = B) items ->
  forallb (evaluable m B) items = true ->
  exists ts,
    (vs <- mapM (fun q => forward m q None) items ;; mapM as_tensor vs) = Ok ts /\
    List.length ts = List.length items /\
    Forall (fun y => d0 y = B /\ d2 y = embedding_size m) ts.
Proof.
  induction 1 as [ | q items Hq _ IH]; simpl; intros Hall.
  - exists []. repeat split; constructor.
  - apply andb_true_iff in Hall. destruct Hall as [Hev Hall].
    destruct (Hq Hev) as [t (Ht & T0)].
    destruct (IH Hall) as [ts (Hts & Hlen & HF)].
    rewrite Ht. simpl.
    destruct (mapM (fun q0 => forward m q0 None) items) as [vs | ]; simpl in Hts;
      [ | discriminate].
    simpl. rewrite Hts. simpl.
    exists (t :: ts). split; [reflexivity | split; [simpl; congruence | ]].
    constructor; [ | exact HF].
    split; [exact T0 | ]. apply (forward_shape m q t Ht).
Qed.

(** X17. Every well-formed query is evaluated: in a model of positive
    embedding dimension, a query with known tags, with the elements each node
    indexes, with at least one sub-query under each [i] and [u] node, and with
    id lists of one common positive length [B] inside their embedding tables,
    makes [forward] return a particle set of shape
    [B, particle_count, embedding_size]. *)
Theorem forward_returns_on_evaluable :
  forall (m : Q2P) (B : nat) (q : structured_query),
    (0 < B)%nat ->
    (0 < embedding_size m)%nat ->
    evaluable m B q = true ->
    exists t,
      forward m q None = Ok (VTensor t) /\
      d0 t = B /\ d1 t = particle_count (num_particles m) q /\
      d2 t = embedding_size m.
Proof.
  intros m B q HB HE Hev.
  assert (Hmain : exists t, forward m q None = Ok (VTensor t) /\ d0 t = B).
  2: { destruct Hmain as [t [Ht T0]]. exists t.
       destruct (forward_shape m q t Ht) as [T1 T2]. auto. }
  revert Hev.
  induction q as [l | tag items IH] using query_induction; intros Hev;
    [discriminate | ].
  cbn [evaluable] in Hev. rewrite forward_Node.
  destruct (String.eqb tag "p") eqn:Hp.
  { apply String.eqb_eq in Hp. subst tag.
    change (tag_in "p" known_tags) with true. cbn [negb]. cbv iota.
    destruct items as [ | rel [ | sub rest]]; try discriminate.
    apply andb_true_iff in Hev. destruct Hev as [Hrel Hsub].
    destruct (ids_ok_inv _ _ _ Hrel) as [ids (-> & Hlen & Hr)].
    inversion IH as [ | ? ? _ IH']; subst. inversion IH' as [ | ? ? IHsub _]; subst.
    destruct (IHsub Hsub) as [s (Hs & S0)].
    destruct (forward_shape m sub s Hs) as [_ S2].
    rewrite Hs. simpl.
    destruct (head_is_e sub).
    - destruct (covariant_on_succeeds _ _ _ s
                  (projection_covariant m ids HB Hr) S0 S2) as [t (Ht & T0 & _)].
      rewrite Ht. simpl. exists t. auto.
    - destruct (covariant_on_succeeds _ _ _ s
                  (higher_projection_covariant m ids HB Hr) S0 S2) as [t (Ht & T0 & _)].
      rewrite Ht. simpl. exists t. auto. }
  destruct (String.eqb tag "i") eqn:Hi.
  { apply String.eqb_eq in Hi. subst tag.
    change (tag_in "i" known_tags) with true. cbn [negb]. cbv iota.
    destruct items as [ | q0 rest]; [discriminate | ].
    destruct (sub_queries_succeed m B _ IH Hev) as [ts (Hts & Hlen & HF)].
    destruct ts as [ | x ts]; [discriminate | ].
    destruct (intersection_succeeds m B x ts HB HE HF) as [t (Ht & T0)].
    destruct (mapM (fun q => forward m q None) (q0 :: rest)) as [vs | ];
      cbn [bind] in Hts; [ | discriminate].
    cbn [bind]. rewrite Hts. cbn [bind]. rewrite Ht. cbn [bind].
    exists t. auto. }
  destruct (String.eqb tag "u") eqn:Hu.
  { apply String.eqb_eq in Hu. subst tag.
    change (tag_in "u" known_tags) with true. cbn [negb]. cbv iota.
    destruct items as [ | q0 rest]; [discriminate | ].
    destruct (sub_queries_succeed m B _ IH Hev) as [ts (Hts & Hlen & HF)].
    destruct ts as [ | x ts]; [discriminate | ].
    destruct (union_succeeds B (embedding_size m) x ts HF) as [t (Ht & T0)].
    destruct (mapM (fun q => forward m q None) (q0 :: rest)) as [vs | ];
      cbn [bind] in Hts; [ | discriminate].
    cbn [bind]. rewrite Hts. cbn [bind]. rewrite Ht. cbn [bind].
    exists t. auto. }
  destruct (String.eqb tag "n") eqn:Hn.
  { apply String.eqb_eq in Hn. subst tag.
    change (tag_in "n" known_tags) with true. cbn [negb]. cbv iota.
    destruct items as [ | sub rest]; [discriminate | ].
    inversion IH as [ | ? ? IHsub _]; subst.
    destruct (IHsub Hev) as [s (Hs & S0)].
    destruct (forward_shape m sub s Hs) as [_ S2].
    rewrite Hs. simpl.
    destruct (covariant_on_succeeds _ _ _ s (negation_covariant m B) S0 S2)
      as [t (Ht & T0 & _)].
    rewrite Ht. simpl. exists t. auto. }
  destruct (String.eqb tag "e") eqn:He; [ | discriminate].
  apply String.eqb_eq in He. subst tag.
  destruct items as [ | o rest]; [discriminate | ].
  destruct (ids_ok_inv _ _ _ Hev) as [ids (-> & Hlen & Hr)].
  rewrite <- Hlen in HB.
  destruct (entity_particles_at m ids HB Hr HE) as [t (Ht & T0 & _)].
  apply (forward_e_Ok m ids rest) in Ht.
  rewrite forward_Node in Ht. exists t. split; [exact Ht | congruence].
Qed.

(** [("i", ("p", [5], ("e", [3])), ("n", ("u", ("e", [1]), ("e", [2]))))]. *)
Lemma forward_returns_on_evaluable_witness :
  exists t,
    forward q2p_small
      (Node "i" [Node "p" [Ids [5%Z]; q_e3];
                 Node "n" [Node "u" [Node "e" [Ids [1%Z]]; Node "e" [Ids [2%Z]]]]])
      None = Ok (VTensor t) /\
    d0 t = 1%nat /\ d1 t = 6%nat /\ d2 t = 4%nat.
Proof.
  refine (forward_returns_on_evaluable q2p_small 1
            (Node "i" [Node "p" [Ids [5%Z]; q_e3];
                       Node "n" [Node "u" [Node "e" [Ids [1%Z]]; Node "e" [Ids [2%Z]]]]])
            _ _ _).
  - lia.
  - simpl. lia.
  - reflexivity.
Defined.

(** ** One batch element at a time *)

Lemma particlewise_batch_covariant (B E b : nat)
      (G G1 : nat -> (nat -> R) -> nat -> R) (f f1 : tensor3 -> result tensor3) :
  particlewise B E G f -> particlewise 1 E G1 f1 -> vec_ext E G1 ->
  (forall v k, (k < E)%nat -> G1 O v k = G b v k) ->
  (b < B)%nat ->
  batch_covariant B E b f f1.
Proof.
  intros Hf Hf1 HG1 HGG Hb x x1 H0 H2 (X0 & X1 & X2 & Xat). simpl in X0, X1, X2, Xat.
  destruct (Hf x H0 H2) as [y (Hy & Y0 & Y1 & Y2 & Yat)].
  destruct (Hf1 x1 X0 ltac:(congruence)) as [y1 (Hy1 & Y0' & Y1' & Y2' & Yat')].
  exists y, y1.
  split; [exact Hy | split; [exact Hy1 | ]].
  split; [exact Y0 | split; [exact Y1 | split; [exact Y2 | ]]].
  unfold teq3. simpl.
  split; [exact Y0' | split; [congruence | split; [congruence | ]]].
  intros b0 i k Hb0 Hi Hk.
  assert (b0 = O) by lia. subst b0.
  rewrite Yat' by (try lia; congruence).
  rewrite Yat by (try lia; congruence).
  rewrite <- HGG by congruence.
  apply HG1; [ | congruence].
  intros l Hl. apply (Xat O i l); [lia | congruence | congruence].
Qed.

Lemma batch_covariant_kcomp (B E b : nat) (f f1 g g1 : tensor3 -> result tensor3) :
  batch_covariant B E b f f1 -> batch_covariant B E b g g1 ->
  batch_covariant B E b (f >=> g) (f1 >=> g1).
Proof.
  intros Hf Hg x x1 H0 H2 Hx.
  destruct (Hf x x1 H0 H2 Hx) as [y [y1 (Hy & Hy1 & Y0 & Y1 & Y2 & Yeq)]].
  destruct (Hg y y1 Y0 Y2 Yeq) as [z [z1 (Hz & Hz1 & Z0 & Z1 & Z2 & Zeq)]].
  exists z, z1. unfold kcomp. rewrite Hy, Hy1. simpl.
  split; [exact Hz | split; [exact Hz1 | ]].
  split; [exact Z0 | split; [congruence | split; [exact Z2 | exact Zeq]]].
Qed.

Lemma batch_covariant_ext (B E b : nat) (f f1 g g1 : tensor3 -> result tensor3) :
  (forall x, f x = g x) -> (forall x, f1 x = g1 x) ->
  batch_covariant B E b g g1 -> batch_covariant B E b f f1.
Proof.
  intros Hf Hf1 Hg x x1 H0 H2 Hx. rewrite Hf, Hf1. apply Hg; assumption.
Qed.

Lemma attend_select_batch (h : nat) (L : Linear) (x : tensor3) (b i j : nat) :
  attend h L (select_batch b x) O i j = attend h L x b i j.
Proof. reflexivity. Qed.

Lemma SelfAttention_batch_covariant (B h b : nat) (sa : SelfAttention) :
  (b < B)%nat ->
  batch_covariant B h b (SelfAttention_forward h sa) (SelfAttention_forward h sa).
Proof.
  intros Hb x x1 H0 H2 Hx.
  pose proof Hx as (X0 & X1 & X2 & _). simpl in X0, X1, X2.
  destruct (SelfAttention_forward_Ok h sa x H2) as [y (Hy & Y0 & Y1 & Y2 & Yat)].
  destruct (SelfAttention_forward_Ok h sa x1 ltac:(congruence))
    as [y1 (Hy1 & Y0' & Y1' & Y2' & Yat')].
  exists y, y1.
  split; [exact Hy | split; [exact Hy1 | ]].
  split; [congruence | split; [exact Y1 | split; [exact Y2 | ]]].
  unfold teq3. simpl.
  split; [congruence | split; [congruence | split; [congruence | ]]].
  intros b0 i k Hb0 Hi Hk.
  assert (b0 = O) by lia. subst b0.
  rewrite Yat' by lia. rewrite Yat by lia.
  rewrite (attend_ext h (query sa) x1 (select_batch b x) O i k Hx)
    by (try lia; congruence).
  apply attend_select_batch.
Qed.

Lemma LayerNorm_batch_covariant (B h b : nat) (ln : LayerNorm) :
  (b < B)%nat ->
  batch_covariant B h b (LayerNorm_forward h ln) (LayerNorm_forward h ln).
Proof.
  intros Hb.
  eapply particlewise_batch_covariant;
    [apply LayerNorm_particlewise | apply LayerNorm_particlewise
     | apply layer_norm_vec_ext | reflexivity | exact Hb].
Qed.

Lemma ffn_residual_batch_covariant (B h b : nat) (ffn : FFN) :
  (b < B)%nat ->
  batch_covariant B h b (ffn_residual h ffn) (ffn_residual h ffn).
Proof.
  intros Hb.
  eapply particlewise_batch_covariant;
    [apply ffn_residual_particlewise | apply ffn_residual_particlewise
     | apply ffn_residual_vec_ext | reflexivity | exact Hb].
Qed.

Lemma two_rounds_batch_covariant (B E b : nat) (attn : SelfAttention) (ffn : FFN)
      (ln1 ln2 ln3 ln4 : LayerNorm) :
  (b < B)%nat ->
  batch_covariant B E b (two_rounds E attn ffn ln1 ln2 ln3 ln4)
                  (two_rounds E attn ffn ln1 ln2 ln3 ln4).
Proof.
  intros Hb. unfold two_rounds.
  repeat apply batch_covariant_kcomp;
    auto using SelfAttention_batch_covariant, LayerNorm_batch_covariant,
               ffn_residual_batch_covariant.
Qed.

Lemma negation_batch_covariant (m : Q2P) (B b : nat) :
  (b < B)%nat ->
  batch_covariant B (embedding_size m) b (negation m) (negation m).
Proof.
  intros Hb.
  eapply batch_covariant_ext;
    [apply negation_two_rounds | apply negation_two_rounds
     | apply two_rounds_batch_covariant; exact Hb].
Qed.

Lemma forallb_nth (f : Z -> bool) (l : list Z) (b : nat) :
  forallb f l = true -> (b < List.length l)%nat -> f (nth b l 0%Z) = true.
Proof.
  intros H Hb. rewrite forallb_forall in H. apply H. apply nth_In. exact Hb.
Qed.

Lemma projection_tail_unfold (m : Q2P) (t : tensor3) :
  (n1 <- LayerNorm_forward (embedding_size m) (projection_layer_norm_1 m) t ;;
   a <- SelfAttention_forward (embedding_size m) (projection_self_attn m) n1 ;;
   LayerNorm_forward (embedding_size m) (projection_layer_norm_2 m) a) =
  (LayerNorm_forward (embedding_size m) (projection_layer_norm_1 m) >=>
   SelfAttention_forward (embedding_size m) (projection_self_attn m) >=>
   LayerNorm_forward (embedding_size m) (projection_layer_norm_2 m)) t.
Proof.
  unfold kcomp.
  destruct (LayerNorm_forward _ (projection_layer_norm_1 m) t); reflexivity.
Qed.

Lemma projection_batch_covariant (m : Q2P) (ids : list Z) (b : nat) :
  (b < List.length ids)%nat ->
  forallb (fun z => (0 <=? z)%Z && (z <? Z.of_nat (num_relations m))%Z) ids = true ->
  batch_covariant (List.length ids) (embedding_size m) b
                  (projection m (Ids ids)) (projection m (Ids [nth b ids 0%Z])).
Proof.
  intros Hb Hr x x1 H0 H2 Hx.
  pose proof Hx as (X0 & X1 & X2 & Xat). simpl in X0, X1, X2, Xat.
  assert (Hl : (0 < List.length ids)%nat) by lia.
  assert (Hr1 : forallb (fun z => (0 <=? z)%Z && (z <? Z.of_nat (num_relations m))%Z)
                        [nth b ids 0%Z] = true).
  { simpl. rewrite (forallb_nth _ ids b Hr Hb). reflexivity. }
  destruct (projection_gru_step m ids x Hl Hr H0 H2)
    as [g (Hproj & G0 & G1 & G2 & Gat)].
  destruct (projection_gru_step m [nth b ids 0%Z] x1 ltac:(simpl; lia) Hr1 X0
              ltac:(congruence))
    as [g1 (Hproj1 & G0' & G1' & G2' & Gat')].
  assert (Hg : teq3 g1 (select_batch b g)).
  { unfold teq3. simpl.
    split; [congruence | split; [congruence | split; [congruence | ]]].
    intros b0 i k Hb0 Hi Hk.
    assert (b0 = O) by lia. subst b0.
    rewrite Gat' by (try lia; congruence).
    rewrite Gat by (try lia; congruence).
    rewrite !gru_update_gru_vec.
    change (gru_vec m [nth b ids 0%Z] O (at3 x1 O i) k)
      with (gru_vec m ids b (at3 x1 O i) k).
    apply gru_vec_ext; [ | congruence].
    intros l Hl'. apply (Xat O i l); [lia | congruence | congruence]. }
  assert (Hk : batch_covariant (List.length ids) (embedding_size m) b
                 (LayerNorm_forward (embedding_size m) (projection_layer_norm_1 m) >=>
                  SelfAttention_forward (embedding_size m) (projection_self_attn m) >=>
                  LayerNorm_forward (embedding_size m) (projection_layer_norm_2 m))
                 (LayerNorm_forward (embedding_size m) (projection_layer_norm_1 m) >=>
                  SelfAttention_forward (embedding_size m) (projection_self_attn m) >=>
                  LayerNorm_forward (embedding_size m) (projection_layer_norm_2 m))).
  { repeat apply batch_covariant_kcomp;
      auto using SelfAttention_batch_covariant, LayerNorm_batch_covariant. }
  destruct (Hk g g1 ltac:(congruence) G2 Hg)
    as [y [y1 (Hy & Hy1 & Y0 & Y1 & Y2 & Yeq)]].
  exists y, y1.
  rewrite Hproj, Hproj1, !projection_tail_unfold.
  split; [exact Hy | split; [exact Hy1 | ]].
  split; [exact Y0 | split; [congruence | split; [exact Y2 | exact Yeq]]].
Qed.

Lemma higher_projection_batch_covariant (m : Q2P) (ids : list Z) (b : nat) :
  (b < List.length ids)%nat ->
  forallb (fun z => (0 <=? z)%Z && (z <? Z.of_nat (num_relations m))%Z) ids = true ->
  batch_covariant (List.length ids) (embedding_size m) b
                  (higher_projection m (Ids ids))
                  (higher_projection m (Ids [nth b ids 0%Z])).
Proof.
  intros Hb Hr.
  eapply batch_covariant_ext;
    [apply higher_projection_unfold | apply higher_projection_unfold | ].
  repeat apply batch_covariant_kcomp;
    auto using SelfAttention_batch_covariant, LayerNorm_batch_covariant,
               ffn_residual_batch_covariant, projection_batch_covariant.
Qed.

Lemma cat1_from_select (b : nat) (l : list tensor3) :
  forall l1 acc acc1,
    teq3 acc1 (select_batch b acc) ->
    Forall2 (fun t1 t => teq3 t1 (select_batch b t)) l1 l ->
    Forall (fun y => d0 y = d0 acc /\ d2 y = d2 acc) l ->
    exists c c1,
      cat1_from acc l = Ok c /\ cat1_from acc1 l1 = Ok c1 /\
      d0 c = d0 acc /\ d2 c = d2 acc /\
      teq3 c1 (select_batch b c).
Proof.
  induction l as [ | y l IH]; intros l1 acc acc1 Hacc HF2 HF.
  - inversion HF2; subst. exists acc, acc1. simpl. auto.
  - inversion HF2 as [ | y1 ? l1' ? Hy HF2']; subst.
    inversion HF as [ | ? ? [Y0 Y2] HF']; subst.
    pose proof Hacc as (A0 & A1 & A2 & Aat). simpl in A0, A1, A2, Aat.
    pose proof Hy as (B0 & B1 & B2 & Bat). simpl in B0, B1, B2, Bat.
    simpl. rewrite Y0, Y2, !Nat.eqb_refl. simpl.
    rewrite B0, A0, B2, A2, Y2, !Nat.eqb_refl. simpl.
    match goal with
    | |- exists c c1, cat1_from ?a l = Ok c /\ cat1_from ?a1 l1' = Ok c1 /\ _ =>
        destruct (IH l1' a a1) as [c [c1 (Hc & Hc1 & C0 & C2 & Ceq)]]
    end.
    + unfold teq3. simpl.
      do 3 (split; [first [reflexivity | congruence] | ]).
      intros b0 i k Hb0 Hi Hk. rewrite ?A1.
      destruct (Nat.ltb_spec i (d1 acc)).
      * apply Aat; first [lia | congruence].
      * apply Bat; first [lia | congruence].
    + exact HF2'.
    + simpl. exact HF'.
    + exists c, c1. simpl in C0, C2. auto.
Qed.

Lemma scoring_select_batch (m : Q2P) (b : nat) (x x1 : tensor3) :
  d2 x = embedding_size m -> (0 < d1 x)%nat ->
  teq3 x1 (select_batch b x) ->
  exists s s1,
    scoring m x = Ok s /\ scoring m x1 = Ok s1 /\
    forall e, at2 s1 O e = at2 s b e.
Proof.
  intros H2 H1 (X0 & X1 & X2 & Xat). simpl in X0, X1, X2, Xat.
  destruct (d1 x) as [ | n] eqn:Hn; [lia | ].
  destruct (scoring_Ok m x n H2 Hn) as [s (Hs & _ & _ & Sat)].
  destruct (scoring_Ok m x1 n ltac:(congruence) ltac:(congruence))
    as [s1 (Hs1 & _ & _ & Sat1)].
  exists s, s1. split; [exact Hs | split; [exact Hs1 | ]].
  intros e. rewrite Sat, Sat1. apply rmax_to_ext. intros p Hp.
  apply dot_ext. intros l Hl. apply (Xat O p l); [lia | lia | congruence].
Qed.

Lemma head_is_e_select_query (b : nat) (q : structured_query) :
  head_is_e (select_query b q) = head_is_e q.
Proof. destruct q; reflexivity. Qed.

Lemma sub_queries_select (m : Q2P) (B b : nat) (items : list structured_query) :
  Forall (fun q => evaluable m B q = true ->
                   exists t t1,
                     forward m q None = Ok (VTensor t) /\
                     forward m (select_query b q) None = Ok (VTensor t1) /\
                     d0 t = B /\ teq3 t1 (select_batch b t)) items ->
  forallb (evaluable m B) items = true ->
  exists ts ts1,
    (vs <- mapM (fun q => forward m q None) items ;; mapM as_tensor vs) = Ok ts /\
    (vs <- mapM (fun q => forward m q None) (map (select_query b) items) ;;
     mapM as_tensor vs) = Ok ts1 /\
    List.length ts = List.length items /\
    Forall (fun y => d0 y = B /\ d2 y = embedding_size m) ts /\
    Forall2 (fun t1 t => teq3 t1 (select_batch b t)) ts1 ts.
Proof.
  induction 1 as [ | q items Hq _ IH]; simpl; intros Hall.
  - exists [], []. repeat split; constructor.
  - apply andb_true_iff in Hall. destruct Hall as [Hev Hall].
    destruct (Hq Hev) as [t [t1 (Ht & Ht1 & T0 & Teq)]].
    destruct (IH Hall) as [ts [ts1 (Hts & Hts1 & Hlen & HF & HF2)]].
    rewrite Ht, Ht1. cbn [bind].
    destruct (mapM (fun q0 => forward m q0 None) items) as [vs | ];
      cbn [bind] in Hts; [ | discriminate].
    destruct (mapM (fun q0 => forward m q0 None) (map (select_query b) items))
      as [vs1 | ]; cbn [bind] in Hts1; [ | discriminate].
    cbn [bind mapM as_tensor]. 
    change ((fix go (l : list pyvalue) : result (list tensor3) :=
               match l with
               | [] => Ok []
               | a :: l' => b0 <- as_tensor a ;; bs <- go l' ;; Ok (b0 :: bs)
               end) vs) with (mapM as_tensor vs).
    change ((fix go (l : list pyvalue) : result (list tensor3) :=
               match l with
               | [] => Ok []
               | a :: l' => b0 <- as_tensor a ;; bs <- go l' ;; Ok (b0 :: bs)
               end) vs1) with (mapM as_tensor vs1).
    rewrite Hts, Hts1. cbn [bind].
    exists (t :: ts), (t1 :: ts1).
    split; [reflexivity | split; [reflexivity | split; [simpl; congruence | split]]].
    + constructor; [ | exact HF].
      split; [exact T0 | ]. apply (forward_shape m q t Ht).
    + constructor; assumption.
Qed.

(** X18. The batch elements are evaluated independently of each other: for a
    well-formed query over a batch of size [B], batch element [b] of the
    particle set returned by [forward] is the particle set returned for the
    query that keeps only the id at position [b] of every id list; and so are
    its entity scores. *)
Theorem forward_batch_element :
  forall (m : Q2P) (B b : nat) (q : structured_query),
    (b < B)%nat ->
    (0 < embedding_size m)%nat ->
    evaluable m B q = true ->
    exists t t1,
      forward m q None = Ok (VTensor t) /\
      forward m (select_query b q) None = Ok (VTensor t1) /\
      d0 t = B /\ teq3 t1 (select_batch b t) /\
      ((0 < d1 t)%nat ->
       exists s s1, scoring m t = Ok s /\ scoring m t1 = Ok s1 /\
                    forall e, at2 s1 O e = at2 s b e).
Proof.
  intros m B b q Hb HE Hev.
  assert (Hmain : exists t t1,
             forward m q None = Ok (VTensor t) /\
             forward m (select_query b q) None = Ok (VTensor t1) /\
             d0 t = B /\ teq3 t1 (select_batch b t)).
  2: { destruct Hmain as [t [t1 (Ht & Ht1 & T0 & Teq)]]. exists t, t1.
       split; [exact Ht | split; [exact Ht1 | split; [exact T0 | split; [exact Teq | ]]]].
       intros Hpos. destruct (forward_shape m q t Ht) as [_ T2].
       apply (scoring_select_batch m b t t1 T2 Hpos Teq). }
  revert Hev.
  induction q as [l | tag items IH] using query_induction; intros Hev;
    [discriminate | ].
  cbn [evaluable] in Hev. cbn [select_query]. rewrite !forward_Node.
  destruct (String.eqb tag "p") eqn:Hp.
  { apply String.eqb_eq in Hp. subst tag.
    change (tag_in "p" known_tags) with true. cbn [negb]. cbv iota.
    destruct items as [ | rel [ | sub rest]]; try discriminate.
    apply andb_true_iff in Hev. destruct Hev as [Hrel Hsub].
    destruct (ids_ok_inv _ _ _ Hrel) as [ids (-> & Hlen & Hr)].
    inversion IH as [ | ? ? _ IH']; subst. inversion IH' as [ | ? ? IHsub _]; subst.
    destruct (IHsub Hsub) as [s [s1 (Hs & Hs1 & S0 & Seq)]].
    destruct (forward_shape m sub s Hs) as [_ S2].
    cbn [map select_query]. rewrite Hs, Hs1. cbn [bind as_tensor].
    rewrite head_is_e_select_query.
    destruct (head_is_e sub).
    - destruct (projection_batch_covariant m ids b Hb Hr s s1 S0 S2 Seq)
        as [t [t1 (Ht & Ht1 & T0 & _ & _ & Teq)]].
      rewrite Ht, Ht1. cbn [bind]. exists t, t1. auto.
    - destruct (higher_projection_batch_covariant m ids b Hb Hr s s1 S0 S2 Seq)
        as [t [t1 (Ht & Ht1 & T0 & _ & _ & Teq)]].
      rewrite Ht, Ht1. cbn [bind]. exists t, t1. auto. }
  destruct (String.eqb tag "i") eqn:Hi.
  { apply String.eqb_eq in Hi. subst tag.
    change (tag_in "i" known_tags) with true. cbn [negb]. cbv iota.
    destruct items as [ | q0 rest]; [discriminate | ].
    destruct (sub_queries_select m B b _ IH Hev)
      as [ts [ts1 (Hts & Hts1 & Hlen & HF & HF2)]].
    destruct ts as [ | x ts]; [discriminate | ].
    inversion HF2 as [ | x1 ? ts1' ? Hx HF2']; subst.
    inversion HF as [ | ? ? [X0 X2] HF']; subst.
    destruct (cat1_from_select b ts ts1' x x1 Hx HF2')
      as [c [c1 (Hc & Hc1 & C0 & C2 & Ceq)]].
    { eapply Forall_impl; [ | exact HF']. simpl. intros y [? ?]. split; congruence. }
    pose proof Ceq as (C0' & _ & C2' & _). simpl in C0', C2'.
    destruct (two_rounds_batch_covariant (d0 x) (embedding_size m) b
                (intersection_attn m) (intersection_ffn m)
                (intersection_layer_norm_1 m) (intersection_layer_norm_2 m)
                (intersection_layer_norm_3 m) (intersection_layer_norm_4 m) Hb
                c c1 C0 ltac:(congruence) Ceq)
      as [t [t1 (Ht & Ht1 & T0 & _ & _ & Teq)]].
    destruct (mapM (fun q => forward m q None) (q0 :: rest)) as [vs | ];
      cbn [bind] in Hts; [ | discriminate].
    destruct (mapM (fun q => forward m q None) (map (select_query b) (q0 :: rest)))
      as [vs1 | ]; cbn [bind] in Hts1; [ | discriminate].
    cbn [bind]. rewrite Hts, Hts1. cbn [bind].
    rewrite !intersection_cons, Hc, Hc1. cbn [bind].
    rewrite (view_infer3_Ok c), (view_infer3_Ok c1) by lia. cbn [bind].
    rewrite Ht, Ht1. cbn [bind]. exists t, t1. auto. }
  destruct (String.eqb tag "u") eqn:Hu.
  { apply String.eqb_eq in Hu. subst tag.
    change (tag_in "u" known_tags) with true. cbn [negb]. cbv iota.
    destruct items as [ | q0 rest]; [discriminate | ].
    destruct (sub_queries_select m B b _ IH Hev)
      as [ts [ts1 (Hts & Hts1 & Hlen & HF & HF2)]].
    destruct ts as [ | x ts]; [discriminate | ].
    inversion HF2 as [ | x1 ? ts1' ? Hx HF2']; subst.
    inversion HF as [ | ? ? [X0 X2] HF']; subst.
    destruct (cat1_from_select b ts ts1' x x1 Hx HF2')
      as [c [c1 (Hc & Hc1 & C0 & C2 & Ceq)]].
    { eapply Forall_impl; [ | exact HF']. simpl. intros y [? ?]. split; congruence. }
    destruct (mapM (fun q => forward m q None) (q0 :: rest)) as [vs | ];
      cbn [bind] in Hts; [ | discriminate].
    destruct (mapM (fun q => forward m q None) (map (select_query b) (q0 :: rest)))
      as [vs1 | ]; cbn [bind] in Hts1; [ | discriminate].
    cbn [bind]. rewrite Hts, Hts1. cbn [bind].
    unfold union.
    change (cat1 (x :: ts)) with (cat1_from x ts).
    change (cat1 (x1 :: ts1')) with (cat1_from x1 ts1').
    rewrite Hc, Hc1. cbn [bind]. exists c, c1. auto. }
  destruct (String.eqb tag "n") eqn:Hn.
  { apply String.eqb_eq in Hn. subst tag.
    change (tag_in "n" known_tags) with true. cbn [negb]. cbv iota.
    destruct items as [ | sub rest]; [discriminate | ].
    inversion IH as [ | ? ? IHsub _]; subst.
    destruct (IHsub Hev) as [s [s1 (Hs & Hs1 & S0 & Seq)]].
    destruct (forward_shape m sub s Hs) as [_ S2].
    cbn [map select_query]. rewrite Hs, Hs1. cbn [bind as_tensor].
    destruct (negation_batch_covariant m B b Hb s s1 S0 S2 Seq)
      as [t [t1 (Ht & Ht1 & T0 & _ & _ & Teq)]].
    rewrite Ht, Ht1. cbn [bind]. exists t, t1. auto. }
  destruct (String.eqb tag "e") eqn:He; [ | discriminate].
  apply String.eqb_eq in He. subst tag.
  destruct items as [ | o rest]; [discriminate | ].
  destruct (ids_ok_inv _ _ _ Hev) as [ids (-> & Hlen & Hr)].
  rewrite <- Hlen in Hb.
  destruct (entity_particles_at m ids ltac:(lia) Hr HE)
    as [t (Ht & T0 & T1 & T2 & Tat)].
  destruct (entity_particles_at m [nth b ids 0%Z] ltac:(simpl; lia)
              ltac:(simpl; rewrite (forallb_nth _ ids b Hr Hb); reflexivity) HE)
    as [t1 (Ht1 & T0' & T1' & T2' & Tat')].
  apply (forward_e_Ok m ids rest) in Ht.
  apply (forward_e_Ok m [nth b ids 0%Z] (map (select_query b) rest)) in Ht1.
  rewrite forward_Node in Ht, Ht1.
  exists t, t1. cbn [map select_query].
  split; [exact Ht | split; [exact Ht1 | split; [congruence | ]]].
  unfold teq3. simpl. simpl in T0'.
  split; [exact T0' | split; [congruence | split; [congruence | ]]].
  intros b0 p k Hb0 Hpp Hk. assert (b0 = O) by lia. subst b0.
  rewrite Tat' by (simpl; first [lia | congruence]).
  rewrite Tat by first [lia | congruence].
  reflexivity.
Qed.

(** [("i", ("p", [5, 6], ("e", [3, 4])), ("n", ("e", [1, 2])))], batch element 1. *)
Lemma forward_batch_element_witness :
  exists t t1,
    forward q2p_small
      (Node "i" [Node "p" [Ids [5%Z; 6%Z]; Node "e" [Ids [3%Z; 4%Z]]];
                 Node "n" [Node "e" [Ids [1%Z; 2%Z]]]]) None = Ok (VTensor t) /\
    forward q2p_small
      (Node "i" [Node "p" [Ids [6%Z]; Node "e" [Ids [4%Z]]];
                 Node "n" [Node "e" [Ids [2%Z]]]]) None = Ok (VTensor t1) /\
    d0 t = 2%nat /\ teq3 t1 (select_batch 1 t).
Proof.
  destruct (forward_batch_element q2p_small 2 1
              (Node "i" [Node "p" [Ids [5%Z; 6%Z]; Node "e" [Ids [3%Z; 4%Z]]];
                         Node "n" [Node "e" [Ids [1%Z; 2%Z]]]]))
    as [t [t1 (Ht & Ht1 & T0 & Teq & _)]].
  - lia.
  - simpl. lia.
  - reflexivity.
  - exists t, t1. auto.
Defined.

(** X19. The elements of a node after those it indexes are never read: a
    [p] node is evaluated as if it had only its relation ids and its first
    sub-query, an [n] node as if it had only its first sub-query, an [e] node
    as if it had only its id list. *)
Theorem forward_ignores_extra_elements :
  forall (m : Q2P) (label : option (list Z)) (rest : list structured_query),
    (forall rel sub,
        forward m (Node "p" (rel :: sub :: rest)) label =
        forward m (Node "p" [rel; sub]) label) /\
    (forall sub,
        forward m (Node "n" (sub :: rest)) label =
        forward m (Node "n" [sub]) label) /\
    (forall ids,
        forward m (Node "e" (ids :: rest)) label =
        forward m (Node "e" [ids]) label).
Proof.
  intros m label rest. repeat split; intros; reflexivity.
Qed.

(** ** Broadcasting of a single relation id *)

Lemma projection_gru_step_single (m : Q2P) (r : Z) (h : tensor3) :
  ((0 <=? r)%Z && (r <? Z.of_nat (num_relations m))%Z) = true ->
  d2 h = embedding_size m ->
  exists g,
    projection m (Ids [r]) h =
      (n1 <- LayerNorm_forward (embedding_size m) (projection_layer_norm_1 m) g ;;
       a <- SelfAttention_forward (embedding_size m) (projection_self_attn m) n1 ;;
       LayerNorm_forward (embedding_size m) (projection_layer_norm_2 m) a) /\
    d0 g = d0 h /\ d1 g = d1 h /\ d2 g = embedding_size m /\
    forall b p k, (b < d0 h)%nat -> (p < d1 h)%nat -> (k < embedding_size m)%nat ->
                  at3 g b p k = gru_vec m [r] O (at3 h b p) k.
Proof.
  intros Hr H2.
  destruct h as [B N D hf]. simpl in H2. subst D.
  unfold projection, dropout.
  cbn [torch_tensor]. rewrite bind_Ok.
  rewrite (Embedding_forward_Ok _ _ _ [r])
    by (simpl; first [lia | rewrite Hr; reflexivity]).
  rewrite bind_Ok. simpl List.length.
  linear_step. linear_step.
  zip3_step B N (embedding_size m).
  linear_step. linear_step.
  zip3_step B N (embedding_size m).
  linear_step.
  zip3_step B N (embedding_size m).
  linear_step.
  zip3_step B N (embedding_size m).
  zip3_step B N (embedding_size m).
  zip3_step B N (embedding_size m).
  zip3_step B N (embedding_size m).
  eexists. split; [reflexivity | ].
  cbn [d0 d1 d2 at3].
  split; [reflexivity | split; [reflexivity | split; [reflexivity | ]]].
  intros b p k Hb Hp Hk.
  cbn [at3 d0 d1 d2 at2 rows cols map3 unsqueeze1].
  rewrite !(bidx_lt _ _ Hb), !(bidx_lt _ _ Hp), !(bidx_lt _ _ Hk).
  unfold gru_vec, linear_vec, rel_vec. cbv zeta.
  change (bidx 1 b) with O.
  cbn [nth].
  eq_struct.
Qed.

Lemma nth_repeat_lt (r : Z) (B b : nat) : (b < B)%nat -> nth b (repeat r B) 0%Z = r.
Proof.
  intros Hb. apply (repeat_spec B r). apply nth_In. rewrite repeat_length. exact Hb.
Qed.

Lemma forallb_repeat (f : Z -> bool) (r : Z) (B : nat) :
  f r = true -> forallb f (repeat r B) = true.
Proof.
  intros H. apply forallb_forall. intros z Hz.
  rewrite (repeat_spec B r z Hz). exact H.
Qed.

(** X20. A single relation id is broadcast over the batch: projecting a
    particle set of any batch size [B] with the one-element id list [[r]]
    returns what projecting it with [r] repeated [B] times returns. *)
Theorem projection_broadcasts_single_relation :
  forall (m : Q2P) (r : Z) (h : tensor3),
    ((0 <=? r)%Z && (r <? Z.of_nat (num_relations m))%Z) = true ->
    d2 h = embedding_size m ->
    (0 < d0 h)%nat ->
    exists y y',
      projection m (Ids [r]) h = Ok y /\
      projection m (Ids (repeat r (d0 h))) h = Ok y' /\
      d0 y = d0 h /\ teq3 y y'.
Proof.
  intros m r h Hr H2 HB.
  destruct (projection_gru_step_single m r h Hr H2)
    as [g (Hproj & G0 & G1 & G2 & Gat)].
  destruct (projection_gru_step m (repeat r (d0 h)) h)
    as [g' (Hproj' & G0' & G1' & G2' & Gat')].
  { rewrite repeat_length. exact HB. }
  { apply forallb_repeat. exact Hr. }
  { rewrite repeat_length. reflexivity. }
  { exact H2. }
  assert (Hg : teq3 g (index_select1 (seq 0 (d1 g')) g')).
  { apply teq3_trans with g'; [ | apply index_select1_seq].
    unfold teq3.
    split; [congruence | split; [congruence | split; [congruence | ]]].
    intros b p k Hb Hp Hk.
    rewrite Gat by congruence. rewrite Gat' by congruence.
    rewrite gru_update_gru_vec. unfold gru_vec, rel_vec.
    rewrite nth_repeat_lt by congruence. reflexivity. }
  assert (Hk : covariant_on (d0 h) (embedding_size m)
                 (LayerNorm_forward (embedding_size m) (projection_layer_norm_1 m) >=>
                  SelfAttention_forward (embedding_size m) (projection_self_attn m) >=>
                  LayerNorm_forward (embedding_size m) (projection_layer_norm_2 m))).
  { repeat apply covariant_on_kcomp;
      auto using SelfAttention_covariant, LayerNorm_covariant. }
  destruct (Hk (seq 0 (d1 g')) g' g G0' G2' (is_permutation_seq _) Hg)
    as [y' [y (Hy' & Hy & Y0 & Y1 & Y2 & Yeq)]].
  exists y, y'.
  rewrite Hproj, Hproj', !projection_tail_unfold.
  split; [exact Hy | split; [exact Hy' | ]].
  pose proof Yeq as (E0 & _). simpl in E0.
  split; [congruence | ].
  apply teq3_trans with (index_select1 (seq 0 (d1 g')) y'); [exact Yeq | ].
  rewrite <- Y1. apply teq3_sym, index_select1_seq.
Qed.

(** Relation 5 applied to a batch of two particle sets. *)
Lemma projection_broadcasts_single_relation_witness :
  exists y y',
    projection q2p_small (Ids [5%Z]) (mkT3 2 2 4 (fun b p k => INR (b + p + k))) = Ok y /\
    projection q2p_small (Ids [5%Z; 5%Z]) (mkT3 2 2 4 (fun b p k => INR (b + p + k)))
      = Ok y' /\
    d0 y = 2%nat /\ teq3 y y'.
Proof.
  refine (projection_broadcasts_single_relation q2p_small 5%Z
            (mkT3 2 2 4 (fun b p k => INR (b + p + k))) _ _ _).
  - reflexivity.
  - reflexivity.
  - simpl. lia.
Defined.
